(** * SequenceDesigner: the pulse-program compiler of QuPyt

    A shallow embedding of [SequenceDesigner.py]: the run-length digital
    event compiler ([PulseBlasterSequence]), the sampled waveform builder
    ([PulseSequence]) and the change cache of [PulseSequenceYaml].

    Python objects become records that are threaded through the methods;
    a method that can raise returns a [result]. *)

From Stdlib Require Import PrimFloat SpecFloat FloatOps.
From Stdlib Require Import ZArith String Ascii OrderedTypeEx.
From stdpp Require Import gmap strings list sorting.

Local Open Scope Z_scope.
#[local] Set Warnings "-inexact-float".

(** * Python runtime: exceptions, [sorted], list repetition *)

Inductive exn : Set :=
| KeyError
| ValueError
| IndexError
| AttributeError
| FileNotFoundError
| OverflowError.

Inductive result (A : Type) : Type :=
| Ok (a : A)
| Raise (e : exn).
Arguments Ok {A} a.
Arguments Raise {A} e.

(** Sequencing with stdpp's notation [x ← m; k]: an exception ends the run. *)
#[export] Instance result_bind : MBind result := fun A B k m =>
  match m with
  | Ok a => k a
  | Raise e => Raise e
  end.

(** [d[key]] on a dict and [l[i]] on a list. *)
Definition getitem {V : Type} (d : gmap string V) (key : string) : result V :=
  match d !! key with
  | Some v => Ok v
  | None => Raise KeyError
  end.

Definition list_getitem {A : Type} (l : list A) (i : nat) : result A :=
  match l !! i with
  | Some v => Ok v
  | None => Raise IndexError
  end.

(** A [for] loop whose body may raise. *)
Fixpoint for_each {A S : Type} (body : S -> A -> result S) (l : list A) (s : S)
  : result S :=
  match l with
  | [] => Ok s
  | x :: l' => s' ← body s x; for_each body l' s'
  end.

(** [[f(x) for x in l]] for an [f] that may raise. *)
Fixpoint traverse {A B : Type} (f : A -> result B) (l : list A)
  : result (list B) :=
  match l with
  | [] => Ok []
  | x :: l' => y ← f x; ys ← traverse f l'; Ok (y :: ys)
  end.

(** [sorted(l)]: Python's sort is stable and only ever asks [a < b].
    Insertion from the right places an element before the first one that is
    not smaller, hence before its equals that followed it in [l]. *)
Fixpoint insert_sorted {A : Type} (lt : A -> A -> bool) (x : A) (l : list A)
  : list A :=
  match l with
  | [] => [x]
  | y :: l' => if lt y x then y :: insert_sorted lt x l' else x :: y :: l'
  end.

Definition sorted {A : Type} (lt : A -> A -> bool) (l : list A) : list A :=
  foldr (insert_sorted lt) [] l.

(** [enumerate(l)] *)
Definition enumerate {A : Type} (l : list A) : list (nat * A) := imap pair l.

(** [l * n] for a list [l] and an int [n]; a count below one gives []. *)
Definition list_mul {A : Type} (l : list A) (n : Z) : list A :=
  concat (replicate (Z.to_nat n) l).

(** [l.pop(i)] *)
Definition pop {A : Type} (i : nat) (l : list A) : list A := delete i l.

(** * The specification document

    [total_duration] is a number of microseconds or the string "ignore". The
    block entries of the document map a channel name to its named pulses; as
    Python dicts iterate in insertion order they are association lists. *)

Inductive total (T : Type) : Type :=
| Ignore
| Duration (t : T).
Arguments Ignore {T}.
Arguments Duration {T} t.

Record yaml_document (T P : Type) : Type := {
  sequencing_order : list string;
  sequencing_repeats : list Z;
  yaml_total_duration : total T;
  blocks : gmap string (list (string * list (string * P)))
}.
Arguments sequencing_order {T P} _.
Arguments sequencing_repeats {T P} _.
Arguments yaml_total_duration {T P} _.
Arguments blocks {T P} _.

#[export] Instance total_eq_dec {T : Type} `{EqDecision T} :
  EqDecision (total T).
Proof. solve_decision. Defined.

#[export] Instance yaml_document_eq_dec {T P : Type}
  `{EqDecision T} `{EqDecision P} : EqDecision (yaml_document T P).
Proof. solve_decision. Defined.

(** [d.values()] *)
Definition values {K V : Type} (d : list (K * V)) : list V := d.*2.

(** [a == b] *)
Class PyEq (A : Type) : Type := py_eqb : A -> A -> bool.

(** [a == b] on two dicts: they have as many keys, and every item of [a] is
    an item of [b]. The order in which the keys were inserted plays no part. *)
Definition dict_eqb {V : Type} (eqb : V -> V -> bool)
    (a b : list (string * V)) : bool :=
  (length a =? length b)%nat &&
  forallb (fun '(k, v) =>
             existsb (fun '(k', v') => (k =? k')%string && eqb v v') b) a.

(** [a == b] on two documents, as [yaml.safe_load] returns them: the program
    and the total duration are compared as they are, the blocks as dicts of
    dicts of pulses. A pulse is a dict of numbers, which is here equal to
    itself only (no NaN). *)
Definition document_eqb {T P : Type} `{EqDecision T} `{EqDecision P}
    (a b : yaml_document T P) : bool :=
  bool_decide (sequencing_order a = sequencing_order b) &&
  bool_decide (sequencing_repeats a = sequencing_repeats b) &&
  bool_decide (yaml_total_duration a = yaml_total_duration b) &&
  (size (blocks a) =? size (blocks b))%nat &&
  forallb (fun '(name, block) =>
             from_option
               (dict_eqb (dict_eqb (fun p q : P => bool_decide (p = q))) block)
               false (blocks b !! name))
          (map_to_list (blocks a)).

#[export] Instance yaml_document_py_eq {T P : Type}
  `{EqDecision T} `{EqDecision P} : PyEq (yaml_document T P) := document_eqb.

(** * Numbers

    A time of the digital compiler is what [yaml.safe_load] has read: a
    Python int or a float. [Number T] lists what the compiler does with a
    time. On ints the arithmetic is exact; on floats every sum and every
    difference is rounded to a double. A document that mixes ints and floats
    behaves as the document of floats, as long as its ints are below
    [2 ** 53]. The times are supposed to be ordered by [<], as all numbers
    but NaN are: this is what [sorted] is modelled for. *)

Class Number (T : Type) : Type := {
  n_zero : T;                      (* 0 *)
  n_add : T -> T -> T;             (* a + b *)
  n_sub : T -> T -> T;             (* a - b *)
  n_eqb : T -> T -> bool;          (* a == b *)
  n_ltb : T -> T -> bool           (* a < b *)
}.

#[export] Instance float_number : Number float | 10 :=
  {| n_zero := PrimFloat.zero;
     n_add := PrimFloat.add;
     n_sub := PrimFloat.sub;
     n_eqb := PrimFloat.eqb;
     n_ltb := PrimFloat.ltb |}.

#[export] Instance int_number : Number Z | 0 :=
  {| n_zero := 0;
     n_add := Z.add;
     n_sub := Z.sub;
     n_eqb := Z.eqb;
     n_ltb := Z.ltb |}.

(** The numbers of [l] added one after the other, from the left. *)
Definition py_sum {T : Type} `{Number T} (l : list T) : T :=
  foldl n_add n_zero l.

(** The number that a finite double stands for, in units of [2 ** -1074],
    of which every finite double is a whole multiple. *)
Definition float_units (x : float) : option Z :=
  match Prim2SF x with
  | S754_zero _ => Some 0
  | S754_finite s m e =>
      Some ((if s then Z.neg m else Z.pos m) * 2 ^ (e + 1074))
  | _ => None
  end.

(** * PulseBlasterSequence

    The times of a document are numbers of one [Number] type [T]. Channel
    indices are naturals, so that [2 ** k] is an integer. *)

Module PulseBlasterSequence.

Record pulse (T : Type) : Type := { start : T; duration : T }.
Arguments start {T} _.
Arguments duration {T} _.

Definition ps_block (T : Type) : Type :=
  list (string * list (string * pulse T)).

Record compiled_block (T : Type) : Type := {
  cb_channel_bits : list Z;
  cb_durations : list T
}.
Arguments cb_channel_bits {T} _.
Arguments cb_durations {T} _.

(** What [warnings.warn] has been called with. *)
Inductive warning : Set :=
| BadDurationsIndex (pop_index len : nat)
| BadChannelBitsIndex (pop_index len : nat).

Record t (T : Type) : Type := {
  event_times : list T;
  event_durations : list T;
  event_channel : list string;
  events : list string;
  channel_bits : list Z;
  segment_durations : list T;
  channel_mapping : gmap string N;
  ps : gmap string (compiled_block T);
  yaml_sequence : yaml_document T (pulse T);
  total_duration : total T;
  warned : list warning
}.
Arguments event_times {T} _.
Arguments event_durations {T} _.
Arguments event_channel {T} _.
Arguments events {T} _.
Arguments channel_bits {T} _.
Arguments segment_durations {T} _.
Arguments channel_mapping {T} _.
Arguments ps {T} _.
Arguments yaml_sequence {T} _.
Arguments total_duration {T} _.
Arguments warned {T} _.

Section model.
Context {T : Type} `{Number T}.

Definition set_event_times (v : list T) (s : t T) : t T :=
  {| event_times := v; event_durations := event_durations s;
     event_channel := event_channel s; events := events s;
     channel_bits := channel_bits s; segment_durations := segment_durations s;
     channel_mapping := channel_mapping s; ps := ps s;
     yaml_sequence := yaml_sequence s; total_duration := total_duration s;
     warned := warned s |}.

Definition set_event_durations (v : list T) (s : t T) : t T :=
  {| event_times := event_times s; event_durations := v;
     event_channel := event_channel s; events := events s;
     channel_bits := channel_bits s; segment_durations := segment_durations s;
     channel_mapping := channel_mapping s; ps := ps s;
     yaml_sequence := yaml_sequence s; total_duration := total_duration s;
     warned := warned s |}.

Definition set_event_channel (v : list string) (s : t T) : t T :=
  {| event_times := event_times s; event_durations := event_durations s;
     event_channel := v; events := events s;
     channel_bits := channel_bits s; segment_durations := segment_durations s;
     channel_mapping := channel_mapping s; ps := ps s;
     yaml_sequence := yaml_sequence s; total_duration := total_duration s;
     warned := warned s |}.

Definition set_events (v : list string) (s : t T) : t T :=
  {| event_times := event_times s; event_durations := event_durations s;
     event_channel := event_channel s; events := v;
     channel_bits := channel_bits s; segment_durations := segment_durations s;
     channel_mapping := channel_mapping s; ps := ps s;
     yaml_sequence := yaml_sequence s; total_duration := total_duration s;
     warned := warned s |}.

Definition set_channel_bits (v : list Z) (s : t T) : t T :=
  {| event_times := event_times s; event_durations := event_durations s;
     event_channel := event_channel s; events := events s;
     channel_bits := v; segment_durations := segment_durations s;
     channel_mapping := channel_mapping s; ps := ps s;
     yaml_sequence := yaml_sequence s; total_duration := total_duration s;
     warned := warned s |}.

Definition set_segment_durations (v : list T) (s : t T) : t T :=
  {| event_times := event_times s; event_durations := event_durations s;
     event_channel := event_channel s; events := events s;
     channel_bits := channel_bits s; segment_durations := v;
     channel_mapping := channel_mapping s; ps := ps s;
     yaml_sequence := yaml_sequence s; total_duration := total_duration s;
     warned := warned s |}.

Definition set_ps (v : gmap string (compiled_block T)) (s : t T) : t T :=
  {| event_times := event_times s; event_durations := event_durations s;
     event_channel := event_channel s; events := events s;
     channel_bits := channel_bits s; segment_durations := segment_durations s;
     channel_mapping := channel_mapping s; ps := v;
     yaml_sequence := yaml_sequence s; total_duration := total_duration s;
     warned := warned s |}.

Definition warn (w : warning) (s : t T) : t T :=
  {| event_times := event_times s; event_durations := event_durations s;
     event_channel := event_channel s; events := events s;
     channel_bits := channel_bits s; segment_durations := segment_durations s;
     channel_mapping := channel_mapping s; ps := ps s;
     yaml_sequence := yaml_sequence s; total_duration := total_duration s;
     warned := warned s ++ [w] |}.

(** [__init__], after [_load_yaml_sequence] has read the document. *)
Definition __init__ (mapping : gmap string N)
    (doc : yaml_document T (pulse T)) : t T :=
  {| event_times := []; event_durations := []; event_channel := [];
     events := []; channel_bits := []; segment_durations := [];
     channel_mapping := mapping; ps := ∅; yaml_sequence := doc;
     total_duration := yaml_total_duration doc; warned := [] |}.

Definition _reset_attributes (s : t T) : t T :=
  set_segment_durations []
    (set_channel_bits []
      (set_events []
        (set_event_channel []
          (set_event_durations []
            (set_event_times [] s))))).

Definition _append_event (s : t T) (channel : string) (p : pulse T) : t T :=
  let s := set_event_times (event_times s ++ [start p]) s in
  let s := set_event_times
             (event_times s ++ [n_add (start p) (duration p)]) s in
  let s := set_event_channel (event_channel s ++ [channel]) s in
  let s := set_event_channel (event_channel s ++ [channel]) s in
  let s := set_events (events s ++ ["up"%string]) s in
  set_events (events s ++ ["down"%string]) s.

Definition _parse_channel (s : t T) (channel : string)
    (channel_pulses : list (string * pulse T)) : t T :=
  foldl (fun s p => _append_event s channel p) s (values channel_pulses).

Definition _parse_block (s : t T) (block : ps_block T) : t T :=
  foldl (fun s '(channel, channel_pulses) =>
           _parse_channel s channel channel_pulses) s block.

(** Python compares the zipped tuples [(time, channel, event)] element by
    element: the first position where they differ decides. *)
Definition tuple_lt (a b : T * string * string) : bool :=
  let '(t1, c1, e1) := a in
  let '(t2, c2, e2) := b in
  if negb (n_eqb t1 t2) then n_ltb t1 t2
  else if negb (c1 =? c2)%string then String.ltb c1 c2
  else String.ltb e1 e2.

Definition zip3 (s : t T) : list (T * string * string) :=
  zip (zip (event_times s) (event_channel s)) (events s).

(** The sorted tuples are unzipped and unpacked into three names: with no
    event there is nothing to unpack and Python raises ValueError. *)
Definition _sort_pulses (s : t T) : result (t T) :=
  match sorted tuple_lt (zip3 s) with
  | [] => Raise ValueError
  | l =>
      Ok (set_events l.*2
           (set_event_channel (l.*1).*2
             (set_event_times (l.*1).*1 s)))
  end.

Definition _get_event_durations (s : t T) : result (t T) :=
  let s := set_event_durations
             (zip_with n_sub (tail (event_times s)) (removelast (event_times s)))
             s in
  match total_duration s with
  | Ignore => Ok s
  | Duration total_duration =>
      match last (event_times s) with
      | None => Raise IndexError
      | Some t_last =>
          if negb (n_eqb t_last total_duration)
          then Ok (set_event_durations
                     (event_durations s ++ [n_sub total_duration t_last]) s)
          else Ok s
      end
  end.

Definition _event_to_sign (event : string) : result Z :=
  if (event =? "up")%string then Ok 1
  else if (event =? "down")%string then Ok (-1)
  else Raise ValueError.

Definition pop_step (s : t T) (pop_index : nat) : t T :=
  let s :=
    if (pop_index <? length (event_durations s))%nat
    then set_event_durations (pop pop_index (event_durations s)) s
    else warn (BadDurationsIndex pop_index (length (event_durations s))) s in
  if (pop_index <? length (channel_bits s))%nat
  then set_channel_bits (pop pop_index (channel_bits s)) s
  else warn (BadChannelBitsIndex pop_index (length (channel_bits s))) s.

Definition indices_to_pop (durations : list T) : list nat :=
  (filter (fun '(idx, dur) => n_eqb dur n_zero = true) (enumerate durations)).*1.

Definition _pop_uncessary_entries (s : t T) : t T :=
  foldl pop_step s
    (sorted (fun a b => (b <? a)%nat) (indices_to_pop (event_durations s))).

Definition channel_bits_step (s : t T) (i : nat) : result (t T) :=
  let prev_val := default 0 (last (channel_bits s)) in
  channel ← list_getitem (event_channel s) i;
  k ← getitem (channel_mapping s) channel;
  event ← list_getitem (events s) i;
  sign ← _event_to_sign event;
  Ok (set_channel_bits (channel_bits s ++ [prev_val + 2 ^ Z.of_N k * sign]) s).

Definition _compute_channel_bits (s : t T) : result (t T) :=
  s ← for_each channel_bits_step (seq 0 (length (event_durations s))) s;
  t0 ← list_getitem (event_times s) 0;
  let s :=
    if negb (n_eqb t0 n_zero)
    then set_event_durations (t0 :: event_durations s)
           (set_channel_bits (0 :: channel_bits s) s)
    else s in
  Ok (_pop_uncessary_entries s).

Definition parse_one (s : t T) (block : string) : result (t T) :=
  b ← getitem (blocks (yaml_sequence s)) block;
  let s := _parse_block s b in
  s ← _sort_pulses s;
  s ← _get_event_durations s;
  s ← _compute_channel_bits s;
  let s := set_ps (<[block := {| cb_channel_bits := channel_bits s;
                                 cb_durations := event_durations s |}]> (ps s)) s in
  Ok (_reset_attributes s).

Definition parse_pulse_sequence_file (s : t T) : result (t T) :=
  for_each parse_one (sequencing_order (yaml_sequence s)) s.

Definition compile (s : t T) : result (list Z * list T) :=
  for_each
    (fun '(channel_bits, bits_duration) '(sequence_block, block_repeats) =>
       b ← getitem (ps s) sequence_block;
       Ok (channel_bits ++ list_mul (cb_channel_bits b) block_repeats,
           bits_duration ++ list_mul (cb_durations b) block_repeats))
    (zip (sequencing_order (yaml_sequence s))
         (sequencing_repeats (yaml_sequence s)))
    ([], []).

End model.
End PulseBlasterSequence.


(** * Floating-point numbers

    Samples, amplitudes and times of the waveform path are IEEE doubles. The
    development is parametric in them: [Float64 R] lists the operations the
    source applies to floats. The conversion of a float to an int raises
    OverflowError on an infinity and ValueError on a NaN. *)

Class Float64 (R : Type) : Type := {
  f_zero : R;                      (* 0.0, the content of [np.zeros] *)
  f_one : R;                       (* 1 *)
  f_micro : R;                     (* 1e-6 *)
  f_two_pi : R;                    (* 2 * np.pi *)
  f_add : R -> R -> R;
  f_mul : R -> R -> R;
  f_cos : R -> R;                  (* np.cos *)
  f_pos : R -> bool;               (* x > 0 *)
  f_trunc : R -> result Z;         (* int(x) *)
  f_round : R -> result Z;         (* int(round(x)) *)
  f_isclose : R -> Z -> bool;      (* np.isclose(x, n) *)
  f_of_uint8 : Z -> R;             (* a byte stored into a float array *)
  f_linspace : R -> nat -> nat -> R  (* np.linspace(0, stop, num)[i] *)
}.

(** * numpy indexing

    An integer index counts from the end when negative and must fall inside
    the axis; the bounds of a slice are clipped to the axis instead. *)

Definition np_index (n : nat) (i : Z) : result nat :=
  if (0 <=? i) && (i <? Z.of_nat n) then Ok (Z.to_nat i)
  else if (- Z.of_nat n <=? i) && (i <? 0) then Ok (Z.to_nat (i + Z.of_nat n))
  else Raise IndexError.

Definition slice_bound (n : nat) (i : Z) : nat :=
  Z.to_nat (if i <? 0 then Z.max (i + Z.of_nat n) 0 else Z.min i (Z.of_nat n)).

(** First position and length of [start:stop] on an axis of size [n]. *)
Definition slice_range (n : nat) (start stop : Z) : nat * nat :=
  (slice_bound n start, (slice_bound n stop - slice_bound n start)%nat).

(** [l[start:stop] = vals] for a slice that starts at [lo] and has the length
    of [vals]. *)
Definition write_slice {A : Type} (lo : nat) (vals : list A) (l : list A)
  : list A :=
  take lo l ++ vals ++ drop (lo + length vals) l.

(** * PulseSequence

    [pulses] is the array of shape (numseqs, 7 * len(awg_sources),
    num_points) that [__init__] allocates, as nested lists
    [variant][row][sample]; its shape is fixed by these three attributes, and
    index and slice arithmetic is done on them. As a slice of the time axis
    and the same slice of a row have one length, the assignment in
    [add_pulse] never meets a shape mismatch. The attributes [min_time] and
    [properties], which no method reads back, and the printed warnings are
    left out. *)

Module PulseSequence.
Section model.
Context {R : Type} `{Float64 R}.

Record t : Type := {
  samp_rate : R;
  num_points : nat;
  time : list R;
  numseqs : nat;
  awg_sources : list Z;
  pulses : list (list (list R));
  sequencer : option (list Z);
  sequencernames : option (list string);
  flag_channels : option (list (string * list string));
  warning_counter : nat
}.

Definition set_pulses (v : list (list (list R))) (s : t) : t :=
  {| samp_rate := samp_rate s; num_points := num_points s; time := time s;
     numseqs := numseqs s; awg_sources := awg_sources s; pulses := v;
     sequencer := sequencer s; sequencernames := sequencernames s;
     flag_channels := flag_channels s; warning_counter := warning_counter s |}.

Definition set_sequencer (v : option (list Z)) (s : t) : t :=
  {| samp_rate := samp_rate s; num_points := num_points s; time := time s;
     numseqs := numseqs s; awg_sources := awg_sources s; pulses := pulses s;
     sequencer := v; sequencernames := sequencernames s;
     flag_channels := flag_channels s; warning_counter := warning_counter s |}.

Definition set_sequencernames (v : option (list string)) (s : t) : t :=
  {| samp_rate := samp_rate s; num_points := num_points s; time := time s;
     numseqs := numseqs s; awg_sources := awg_sources s; pulses := pulses s;
     sequencer := sequencer s; sequencernames := v;
     flag_channels := flag_channels s; warning_counter := warning_counter s |}.

Definition set_flag_channels (v : option (list (string * list string))) (s : t)
  : t :=
  {| samp_rate := samp_rate s; num_points := num_points s; time := time s;
     numseqs := numseqs s; awg_sources := awg_sources s; pulses := pulses s;
     sequencer := sequencer s; sequencernames := sequencernames s;
     flag_channels := v; warning_counter := warning_counter s |}.

Definition set_warning_counter (v : nat) (s : t) : t :=
  {| samp_rate := samp_rate s; num_points := num_points s; time := time s;
     numseqs := numseqs s; awg_sources := awg_sources s; pulses := pulses s;
     sequencer := sequencer s; sequencernames := sequencernames s;
     flag_channels := flag_channels s; warning_counter := v |}.

(** [np.linspace] and [np.zeros] refuse a negative size. *)
Definition __init__ (numseqs : nat) (duration : R) (awg_sources : list Z)
    (samprate : R) : result t :=
  num_points ← f_trunc (f_mul (f_mul samprate duration) f_micro);
  if num_points <? 0 then Raise ValueError
  else
    let num_points := Z.to_nat num_points in
    Ok {| samp_rate := samprate;
          num_points := num_points;
          time := f_linspace duration num_points <$> seq 0 num_points;
          numseqs := numseqs;
          awg_sources := awg_sources;
          pulses := replicate numseqs
                      (replicate (7 * length awg_sources)
                         (replicate num_points f_zero));
          sequencer := None;
          sequencernames := None;
          flag_channels := None;
          warning_counter := 0 |}.

(** [int(round(points))] is evaluated for the comparison and again for the
    result; it is converted once here. *)
Definition time_to_index (s : t) (time : R) : result (Z * t) :=
  let points := f_mul (f_mul (samp_rate s) time) f_micro in
  index ← f_round points;
  let s := if negb (f_isclose points index)
           then set_warning_counter (warning_counter s + 1) s
           else s in
  Ok (index, s).

(** The bounds [int(start)] and [int(start + duration)] of the write. With
    input type "time" they are the ints that [time_to_index] returns; with
    any other the floats are converted where the slice is built, before an
    index is looked at. *)
Definition index_range (s : t) (start duration : R) (inputtype : string)
  : result (Z * Z * t) :=
  if (inputtype =? "time")%string then
    '(start, s) ← time_to_index s start;
    '(duration, s) ← time_to_index s duration;
    Ok (start, start + duration, s)
  else
    first ← f_trunc start;
    stop ← f_trunc (f_add start duration);
    Ok (first, stop, s).

(** [amplitude * fr], spread over the [len] samples from [lo] on. *)
Definition pulse_values (s : t) (lo len : nat) (amplitude : R)
    (freq : option (R * R)) : list R :=
  match freq with
  | Some (frequency, phase) =>
      let frequency := f_mul frequency f_micro in
      let fr := (fun t => f_cos (f_add (f_mul (f_mul f_two_pi frequency) t) phase))
                <$> take len (drop lo (time s)) in
      f_mul amplitude <$> fr
  | None => replicate len (f_mul amplitude f_one)
  end.

Definition write_row (channel lo : nat) (vals : list R)
    (variant : list (list R)) : list (list R) :=
  alter (write_slice lo vals) channel variant.

(** [numseq] is an int, or a pair whose two entries bound a range of
    variants: the [try] branch serves the pair, and an int, which cannot be
    subscripted, falls to the [except] branch. A channel outside the array
    fails in both branches. *)
Definition add_pulse (s : t) (numseq : Z + Z * Z) (start duration : R)
    (channel : Z) (inputtype : string) (amplitude : R)
    (freq : option (R * R)) : result t :=
  '(start, stop, s) ← index_range s start duration inputtype;
  let '(lo, len) := slice_range (num_points s) start stop in
  let vals := pulse_values s lo len amplitude freq in
  match numseq with
  | inr (first, last) =>
      channel ← np_index (7 * length (awg_sources s)) channel;
      let '(v0, n) := slice_range (numseqs s) first last in
      Ok (set_pulses
            (take v0 (pulses s)
             ++ (write_row channel lo vals <$> take n (drop v0 (pulses s)))
             ++ drop (v0 + n) (pulses s)) s)
  | inl numseq =>
      numseq ← np_index (numseqs s) numseq;
      channel ← np_index (7 * length (awg_sources s)) channel;
      Ok (set_pulses (alter (write_row channel lo vals) numseq (pulses s)) s)
  end.

(** One byte per sample out of six marker rows: [packed |= marker << (7 -
    bit_offset)] in uint8 arithmetic. *)
Definition pack_step (packed : list Z) (bit_offset : nat) (marker : list R)
  : list Z :=
  zip_with (fun p m => Z.lor p (Z.shiftl (Z.b2z (f_pos m)) (7 - Z.of_nat bit_offset) mod 256))
           packed marker.

Definition pack_markers (n : nat) (markers : list (list R)) : list Z :=
  foldl (fun packed '(bit_offset, marker) => pack_step packed bit_offset marker)
        (replicate n 0) (enumerate markers).

(** The two rows that [make] writes for source number [si], in one variant. *)
Definition collapse_source (n : nat) (variant : list (list R)) (si : nat)
  : result (list (list R)) :=
  let base := (7 * si)%nat in
  analog ← list_getitem variant base;
  markers ← traverse (fun bit_offset => list_getitem variant (base + 1 + bit_offset))
                     (seq 0 6);
  Ok [analog; f_of_uint8 <$> pack_markers n markers].

Record artifact : Type := {
  final : list (list (list R));
  saved_sequencer : option (list Z);
  saved_sequencernames : option (list string);
  saved_flag_channels : list (string * list string)
}.

(** [make] returns what [np.savez] is given, but for the fingerprint. The
    whole-array statements of the source act on every variant alike; they
    are written here variant by variant. Reading [flag_channels] before it was
    ever assigned is an AttributeError. *)
Definition make (s : t) : result artifact :=
  final ← traverse
            (fun variant =>
               rows ← traverse (collapse_source (num_points s) variant)
                               (seq 0 (length (awg_sources s)));
               Ok (concat rows))
            (pulses s);
  match flag_channels s return result artifact with
  | None => Raise AttributeError
  | Some flags =>
      Ok {| final := final;
            saved_sequencer := sequencer s;
            saved_sequencernames := sequencernames s;
            saved_flag_channels := flags |}
  end.

End model.
End PulseSequence.

(** * PulseSequenceYaml

    The three files of the class: the specification document, its ".aux"
    sidecar and the "sequence.npz" archive. A file holds the value that
    [yaml.safe_load] returns for it, [None] standing for a missing file.
    The sidecar is only ever compared with the document, with Python's [==],
    which does not look at the order of the keys of a dict: the order in
    which [yaml.dump] writes them is therefore left out. *)

Module PulseSequenceYaml.

Record pulse (R : Type) : Type := {
  start : R;
  duration : R;
  amplitude : R;
  frequency : R;
  phase : R
}.
Arguments start {R} _.
Arguments duration {R} _.
Arguments amplitude {R} _.
Arguments frequency {R} _.
Arguments phase {R} _.

#[global] Instance pulse_eq_dec {R : Type} `{EqDecision R} :
  EqDecision (pulse R).
Proof. solve_decision. Defined.

Record files (D A : Type) : Type := {
  yaml_file : option D;
  aux_file : option D;
  npz_file : option A
}.
Arguments yaml_file {D A} _.
Arguments aux_file {D A} _.
Arguments npz_file {D A} _.

Definition write_aux {D A : Type} (v : D) (fs : files D A) : files D A :=
  {| yaml_file := yaml_file fs; aux_file := Some v; npz_file := npz_file fs |}.

Definition write_npz {D A : Type} (v : A) (fs : files D A) : files D A :=
  {| yaml_file := yaml_file fs; aux_file := aux_file fs; npz_file := Some v |}.

Definition _sequence_didnt_change {D A : Type} `{PyEq D}
    (fs : files D A) : result (bool * files D A) :=
  match yaml_file fs with
  | None => Raise FileNotFoundError
  | Some sequence_instructions =>
      match aux_file fs with
      | Some previous_sequence_instructions =>
          Ok (py_eqb previous_sequence_instructions sequence_instructions,
              write_aux sequence_instructions fs)
      | None => Ok (false, write_aux sequence_instructions fs)
      end
  end.

Section translate.
Context {R : Type} `{Float64 R} `{EqDecision R}.

(** A channel is mapped to a row of the array or, as a string, to a flag. *)
Record t : Type := {
  awg_sources : list Z;
  channel_mapping : gmap string (Z + string);
  samp_rate : R
}.

Definition document : Type := yaml_document R (pulse R).

#[global] Instance document_eq_dec : EqDecision document :=
  yaml_document_eq_dec.

#[global] Instance document_py_eq : PyEq document := document_eqb.

Definition add_channel (i : nat)
    (acc : PulseSequence.t * list string)
    (mapped_channel : Z + string) (pulses : list (string * pulse R))
  : result (PulseSequence.t * list string) :=
  let '(seq, flags) := acc in
  match mapped_channel with
  | inr flag => Ok (seq, flags ++ [flag])
  | inl mapped_channel =>
      seq ← for_each
              (fun seq p =>
                 PulseSequence.add_pulse seq (inl (Z.of_nat i))
                   (start p) (duration p) mapped_channel "time"
                   (amplitude p) (Some (frequency p, phase p)))
              (values pulses) seq;
      Ok (seq, flags)
  end.

Definition add_block (self : t) (sequence_instructions : document)
    (acc : PulseSequence.t * list (string * list string))
    (entry : nat * string)
  : result (PulseSequence.t * list (string * list string)) :=
  let '(seq, flag_channels) := acc in
  let '(i, block) := entry in
  b ← getitem (blocks sequence_instructions) block;
  '(seq, flags) ← for_each
                    (fun acc '(channel, pulses) =>
                       mapped_channel ← getitem (channel_mapping self) channel;
                       add_channel i acc mapped_channel pulses)
                    b (seq, []);
  Ok (seq, flag_channels ++ [(block, flags)]).

(** [float("ignore")] is a ValueError. *)
Definition translate_yaml_to_numeric_instructions (self : t)
    (fs : files document PulseSequence.artifact)
  : result (files document PulseSequence.artifact) :=
  '(unchanged, fs) ← _sequence_didnt_change fs;
  if (unchanged : bool) then Ok fs
  else
    sequence_instructions ←
      (if yaml_file fs is Some d then Ok d else Raise FileNotFoundError);
    let sequence_order := sequencing_order sequence_instructions in
    let sequencing_repeats := sequencing_repeats sequence_instructions in
    duration ←
      (if yaml_total_duration sequence_instructions is Duration d
       then Ok d else Raise ValueError);
    let sorted_pulse_blocks := sorted String.ltb (remove_dups sequence_order) in
    seq ← PulseSequence.__init__ (length sorted_pulse_blocks) duration
            (awg_sources self) (samp_rate self);
    '(seq, flag_channels) ←
      for_each (add_block self sequence_instructions)
               (enumerate sorted_pulse_blocks) (seq, []);
    let seq := PulseSequence.set_flag_channels (Some flag_channels) seq in
    let seq := PulseSequence.set_sequencer (Some sequencing_repeats) seq in
    let seq := PulseSequence.set_sequencernames (Some sequence_order) seq in
    archive ← PulseSequence.make seq;
    Ok (write_npz archive fs).

End translate.
End PulseSequenceYaml.

(** * Doubles on small integers

    The instance the examples run on: doubles restricted to integers of
    small magnitude, where sums, products, comparisons and conversions are
    exact. The sample rate is counted in samples per microsecond, which turns
    the factor 1e-6 into 1. The examples modulate with frequency 0 and phase
    0 at most: the cosine is only taken at 0, where it is 1, and the time
    axis, which the frequency multiplies, does not matter. *)

#[export] Instance integer_samples : Float64 Z :=
  {| f_zero := 0; f_one := 1; f_micro := 1; f_two_pi := 6;
     f_add := Z.add; f_mul := Z.mul; f_cos := fun _ => 1;
     f_pos := Z.ltb 0; f_trunc := Ok; f_round := Ok;
     f_isclose := Z.eqb; f_of_uint8 := id;
     f_linspace := fun _ _ _ => 0 |}.

(** * Inputs of the examples *)

Module Examples.
Import PulseBlasterSequence.

Definition example_doc (T : Z) (p : pulse Z) : yaml_document Z (pulse Z) :=
  {| sequencing_order := ["A"%string];
     sequencing_repeats := [2];
     yaml_total_duration := Duration T;
     blocks := {[ "A"%string := [("ch"%string, [("p1"%string, p)])] ]} |}.

Definition example_mapping : gmap string N := {[ "ch"%string := 3%N ]}.

Definition two_channel_block : ps_block Z :=
  [("b"%string, [("p1"%string, {| start := 0; duration := 1 |})]);
   ("a"%string, [("p1"%string, {| start := 0; duration := 1 |})])].

Definition two_channel_doc : yaml_document Z (pulse Z) :=
  {| sequencing_order := ["A"%string];
     sequencing_repeats := [1];
     yaml_total_duration := Ignore;
     blocks := {[ "A"%string := two_channel_block ]} |}.

Definition two_channel_mapping : gmap string N :=
  {[ "a"%string := 0%N; "b"%string := 1%N ]}.

(** A document with float times: one pulse from 0.27 us on, 0.07 us long, in
    a block of 0.9 us. As in Python, a decimal literal is the double nearest
    to it. *)
Definition float_doc : yaml_document float (pulse float) :=
  {| sequencing_order := ["A"%string];
     sequencing_repeats := [1];
     yaml_total_duration := Duration 0.9%float;
     blocks :=
       {[ "A"%string :=
            [("ch"%string,
              [("p1"%string,
                {| start := 0.27%float; duration := 0.07%float |})])] ]} |}.

End Examples.

(** One block, played three times: a pulse on the analog row of the source
    and a flag channel. *)
Definition cache_doc : PulseSequenceYaml.document (R:=Z) :=
  {| sequencing_order := ["A"%string];
     sequencing_repeats := [3];
     yaml_total_duration := Duration 4;
     blocks :=
       {[ "A"%string :=
            [("mw"%string,
              [("p1"%string,
                {| PulseSequenceYaml.start := 1;
                   PulseSequenceYaml.duration := 2;
                   PulseSequenceYaml.amplitude := 5;
                   PulseSequenceYaml.frequency := 0;
                   PulseSequenceYaml.phase := 0 |})]);
             ("laser"%string, [])] ]} |}.

(** The same document as [yaml.dump] writes it and [yaml.safe_load] reads it
    back: the keys of every dict in sorted order. *)
Definition dumped_cache_doc : PulseSequenceYaml.document (R:=Z) :=
  {| sequencing_order := ["A"%string];
     sequencing_repeats := [3];
     yaml_total_duration := Duration 4;
     blocks :=
       {[ "A"%string :=
            [("laser"%string, []);
             ("mw"%string,
              [("p1"%string,
                {| PulseSequenceYaml.start := 1;
                   PulseSequenceYaml.duration := 2;
                   PulseSequenceYaml.amplitude := 5;
                   PulseSequenceYaml.frequency := 0;
                   PulseSequenceYaml.phase := 0 |})])] ]} |}.

(** The object that [PulseSequence(1, 4, [1], samprate=1)] builds on
    [integer_samples]: one variant, one source, four samples. *)
Definition example_sequence : PulseSequence.t (R:=Z) :=
  {| PulseSequence.samp_rate := 1;
     PulseSequence.num_points := 4;
     PulseSequence.time := [0; 0; 0; 0];
     PulseSequence.numseqs := 1;
     PulseSequence.awg_sources := [1];
     PulseSequence.pulses := replicate 1 (replicate 7 (replicate 4 0));
     PulseSequence.sequencer := None;
     PulseSequence.sequencernames := None;
     PulseSequence.flag_channels := None;
     PulseSequence.warning_counter := 0 |}.

(** Markers 1, 3 and 5 of the source are high on every sample. *)
Definition alternating_markers : result (PulseSequence.t (R:=Z)) :=
  s ← PulseSequence.add_pulse example_sequence (inl 0) 0 4 2 "points" 1 None;
  s ← PulseSequence.add_pulse s (inl 0) 0 4 4 "points" 1 None;
  s ← PulseSequence.add_pulse s (inl 0) 0 4 6 "points" 1 None;
  Ok (PulseSequence.set_flag_channels (Some []) s).

Definition alternating_sequence : PulseSequence.t (R:=Z) :=
  {| PulseSequence.samp_rate := 1;
     PulseSequence.num_points := 4;
     PulseSequence.time := [0; 0; 0; 0];
     PulseSequence.numseqs := 1;
     PulseSequence.awg_sources := [1];
     PulseSequence.pulses :=
       [[[0; 0; 0; 0]; [0; 0; 0; 0]; [1; 1; 1; 1]; [0; 0; 0; 0];
         [1; 1; 1; 1]; [0; 0; 0; 0]; [1; 1; 1; 1]]];
     PulseSequence.sequencer := None;
     PulseSequence.sequencernames := None;
     PulseSequence.flag_channels := Some [];
     PulseSequence.warning_counter := 0 |}.

Definition example_translator : PulseSequenceYaml.t (R:=Z) :=
  {| PulseSequenceYaml.awg_sources := [1];
     PulseSequenceYaml.channel_mapping :=
       {[ "mw"%string := inl 0; "laser"%string := inr "READ"%string ]};
     PulseSequenceYaml.samp_rate := 1 |}.

Definition first_compile
  : PulseSequenceYaml.files (PulseSequenceYaml.document (R:=Z))
      (PulseSequence.artifact (R:=Z)) :=
  {| PulseSequenceYaml.yaml_file := Some cache_doc;
     PulseSequenceYaml.aux_file := None;
     PulseSequenceYaml.npz_file := None |}.

(** * Facts about the Python runtime model *)

Section sorted_facts.
Context {A : Type} (lt : A -> A -> bool).

Lemma insert_sorted_Permutation x l : insert_sorted lt x l ≡ₚ x :: l.
Proof.
  induction l as [|y l IH]; simpl; [done|].
  destruct (lt y x); [|done].
  rewrite IH. apply Permutation_swap.
Qed.

Lemma sorted_Permutation l : sorted lt l ≡ₚ l.
Proof.
  induction l as [|x l IH]; simpl; [done|].
  rewrite insert_sorted_Permutation. by rewrite IH.
Qed.

Lemma length_sorted l : length (sorted lt l) = length l.
Proof. apply Permutation_length, sorted_Permutation. Qed.

(** [a] may stand before [b] when [b < a] fails. *)
Definition before (a b : A) : Prop := lt b a = false.

Hypothesis lt_asym : forall a b, lt a b = true -> lt b a = false.

Lemma insert_sorted_Sorted x l :
  Sorted before l -> Sorted before (insert_sorted lt x l).
Proof.
  induction 1 as [|y l Hl IH Hhd]; simpl.
  - repeat constructor.
  - destruct (lt y x) eqn:Hyx.
    + constructor; [done|].
      destruct Hhd as [|z l' Hyz]; simpl.
      * constructor. by apply lt_asym.
      * destruct (lt z x); constructor; [done|]. by apply lt_asym.
    + constructor; [by constructor|]. by constructor.
Qed.

Lemma sorted_Sorted l : Sorted before (sorted lt l).
Proof.
  induction l as [|x l IH]; simpl; [constructor|].
  by apply insert_sorted_Sorted.
Qed.

Lemma insert_sorted_last x l :
  Forall (fun y => lt y x = true) l -> insert_sorted lt x l = l ++ [x].
Proof.
  induction 1 as [|y l Hy _ IH]; simpl; [done|].
  by rewrite Hy, IH.
Qed.
End sorted_facts.

(** Sorting a strictly increasing list of indices with [reverse=True]
    reverses it. *)
Lemma sorted_reverse_increasing (l : list nat) :
  StronglySorted (fun a b => (a < b)%nat) l ->
  sorted (fun a b => (b <? a)%nat) l = reverse l.
Proof.
  induction 1 as [|x l Hl IH Hx]; simpl; [done|].
  rewrite IH, reverse_cons. apply insert_sorted_last.
  apply Forall_reverse. eapply Forall_impl; [exact Hx|].
  intros y Hy. by apply Nat.ltb_lt.
Qed.

Definition sum_Z (l : list Z) : Z := foldr Z.add 0 l.

Lemma sum_Z_app l k : sum_Z (l ++ k) = sum_Z l + sum_Z k.
Proof. induction l as [|x l IH]; simpl; lia. Qed.

(** On ints [sum] adds exactly, in whatever order. *)
Lemma py_sum_int (l : list Z) : py_sum l = sum_Z l.
Proof.
  unfold py_sum, sum_Z.
  change (@n_zero Z int_number) with 0. change (@n_add Z int_number) with Z.add.
  assert (forall a, foldl Z.add a l = a + foldr Z.add 0 l) as Hsum.
  { induction l as [|x l IH]; intros a; simpl; [lia|]. rewrite IH. lia. }
  apply Hsum.
Qed.

(** Consecutive differences telescope. *)
Lemma sum_Z_differences (x : Z) (l : list Z) :
  sum_Z (zip_with Z.sub (tail (x :: l)) (removelast (x :: l)))
  = default x (last (x :: l)) - x.
Proof.
  revert x. induction l as [|y l IH]; intros x; [simpl; lia|].
  specialize (IH y).
  rewrite last_cons_cons.
  change (sum_Z (zip_with Z.sub (tail (x :: y :: l)) (removelast (x :: y :: l))))
    with (y - x + sum_Z (zip_with Z.sub (tail (y :: l)) (removelast (y :: l)))).
  rewrite IH.
  destruct (last (y :: l)) eqn:E; simpl; [lia|].
  apply last_None in E. done.
Qed.

Lemma delete_out_of_range {A : Type} (i : nat) (l : list A) :
  (length l <= i)%nat -> delete i l = l.
Proof.
  revert i. induction l as [|x l IH]; intros [|i] H; simpl in *; try done; [lia|].
  f_equal. apply IH. lia.
Qed.

(** The call [m] returns. *)
Definition returns {A : Type} (m : result A) : Prop := exists a, m = Ok a.

Lemma bind_Ok {A B : Type} (m : result A) (k : A -> result B) (b : B) :
  (m ≫= k) = Ok b -> exists a, m = Ok a /\ k a = Ok b.
Proof. destruct m as [a|e]; simpl; [eauto|done]. Qed.

Ltac inv_bind H :=
  let a := fresh "a" in
  let Ha := fresh "Ha" in
  apply bind_Ok in H as (a & Ha & H).

Lemma for_each_invariant {X S : Type} (I : S -> Prop) (body : S -> X -> result S)
    (l : list X) (s s' : S) :
  (forall s x s', I s -> body s x = Ok s' -> I s') ->
  I s -> for_each body l s = Ok s' -> I s'.
Proof.
  intros Hbody. revert s. induction l as [|x l IH]; intros s Hs; simpl.
  - by intros [= <-].
  - intros H. inv_bind H. eauto.
Qed.

(** ** numpy slices and ranges of a list *)

Lemma slice_bound_le (n : nat) (i : Z) : (slice_bound n i <= n)%nat.
Proof. unfold slice_bound. destruct (i <? 0) eqn:E; lia. Qed.

Lemma slice_range_le (n : nat) (start stop : Z) :
  ((slice_range n start stop).1 + (slice_range n start stop).2 <= n)%nat.
Proof.
  unfold slice_range. simpl.
  pose proof (slice_bound_le n start). pose proof (slice_bound_le n stop). lia.
Qed.

Lemma np_index_lt (n : nat) (i : Z) (r : nat) :
  np_index n i = Ok r -> (r < n)%nat.
Proof.
  unfold np_index.
  destruct ((0 <=? i) && (i <? Z.of_nat n)) eqn:E1.
  - intros [= <-]. apply andb_prop in E1 as [?%Z.leb_le ?%Z.ltb_lt]. lia.
  - destruct ((- Z.of_nat n <=? i) && (i <? 0)) eqn:E2; [|done].
    intros [= <-]. apply andb_prop in E2 as [?%Z.leb_le ?%Z.ltb_lt]. lia.
Qed.

Lemma length_write_slice {A : Type} (lo : nat) (vals l : list A) :
  (lo + length vals <= length l)%nat ->
  length (write_slice lo vals l) = length l.
Proof.
  intros Hle. unfold write_slice.
  rewrite !length_app, length_take, length_drop. lia.
Qed.

Lemma lookup_write_slice {A : Type} (lo : nat) (vals l : list A) (j : nat) :
  (lo + length vals <= length l)%nat ->
  write_slice lo vals l !! j
  = if decide (lo <= j < lo + length vals)%nat then vals !! (j - lo)%nat
    else l !! j.
Proof.
  intros Hle. unfold write_slice.
  assert (length (take lo l) = lo) as Htake by (rewrite length_take; lia).
  destruct (decide (lo <= j < lo + length vals)%nat) as [Hin|Hout].
  - rewrite lookup_app_r by lia. rewrite Htake.
    rewrite lookup_app_l by lia. done.
  - destruct (decide (j < lo)%nat) as [Hlt|Hge].
    + rewrite lookup_app_l by lia. by apply lookup_take_lt.
    + rewrite lookup_app_r by lia. rewrite Htake.
      rewrite lookup_app_r by lia. rewrite lookup_drop. f_equal. lia.
Qed.

(** Applying [f] to the [n] entries from [v0] on. *)
Definition map_range {A : Type} (f : A -> A) (v0 n : nat) (l : list A)
  : list A :=
  take v0 l ++ (f <$> take n (drop v0 l)) ++ drop (v0 + n) l.

Lemma length_map_range {A : Type} (f : A -> A) (v0 n : nat) (l : list A) :
  length (map_range f v0 n l) = length l.
Proof.
  unfold map_range.
  rewrite !length_app, length_fmap, !length_take, !length_drop. lia.
Qed.

Lemma lookup_map_range {A : Type} (f : A -> A) (v0 n : nat) (l : list A)
    (i : nat) :
  map_range f v0 n l !! i
  = if decide (v0 <= i < v0 + n)%nat then f <$> l !! i else l !! i.
Proof.
  unfold map_range.
  destruct (decide (i < length l)%nat) as [Hi|Hi].
  - assert (length (take v0 l) = Nat.min v0 (length l)) as Htake
      by apply length_take.
    destruct (decide (v0 <= i < v0 + n)%nat) as [Hin|Hout].
    + rewrite lookup_app_r by lia. rewrite Htake.
      rewrite lookup_app_l by (rewrite length_fmap, length_take, length_drop; lia).
      rewrite list_lookup_fmap, lookup_take_lt by lia.
      rewrite lookup_drop. do 2 f_equal. lia.
    + destruct (decide (i < v0)%nat) as [Hlt|Hge].
      * rewrite lookup_app_l by lia. by apply lookup_take_lt.
      * rewrite lookup_app_r by lia. rewrite Htake.
        rewrite lookup_app_r
          by (rewrite length_fmap, length_take, length_drop; lia).
        rewrite length_fmap, length_take, length_drop, lookup_drop.
        f_equal. lia.
  - assert (l !! i = None) as Hnone by (apply lookup_ge_None; lia).
    assert (map_range f v0 n l !! i = None) as Hnone'.
    { apply lookup_ge_None. rewrite length_map_range. lia. }
    unfold map_range in Hnone'. rewrite Hnone', Hnone.
    by destruct (decide _).
Qed.

Lemma alter_map_range {A : Type} (f : A -> A) (i : nat) (l : list A) :
  alter f i l = map_range f i 1 l.
Proof.
  apply list_eq. intros j.
  rewrite lookup_map_range, list_lookup_alter.
  destruct (decide (i = j)) as [->|Hne].
  - by rewrite decide_True by lia.
  - by rewrite decide_False by lia.
Qed.

Lemma traverse_fmap {A B : Type} (f : A -> result B) (g : A -> B)
    (l : list A) :
  Forall (fun x => f x = Ok (g x)) l -> traverse f l = Ok (g <$> l).
Proof.
  induction 1 as [|x l Hx _ IH]; simpl; [done|].
  by rewrite Hx, IH.
Qed.

(** ** Equality of documents *)

(** A dict equals every rearrangement of its items. *)
Lemma dict_eqb_Permutation {V : Type} (eqb : V -> V -> bool)
    (a b : list (string * V)) :
  (forall v, eqb v v = true) -> a ≡ₚ b -> dict_eqb eqb a b = true.
Proof.
  intros Hrefl Hperm. unfold dict_eqb. apply andb_true_intro. split.
  - apply Nat.eqb_eq. by rewrite Hperm.
  - apply forallb_forall. intros [k v] Hin%list_elem_of_In.
    apply existsb_exists. exists (k, v). split.
    + apply list_elem_of_In. by rewrite <- Hperm.
    + by rewrite String.eqb_refl, Hrefl.
Qed.

Lemma document_eqb_refl {T P : Type} `{EqDecision T} `{EqDecision P}
    (d : yaml_document T P) :
  document_eqb d d = true.
Proof.
  unfold document_eqb. rewrite !bool_decide_eq_true_2, Nat.eqb_refl by done.
  cbn [andb]. apply forallb_forall. intros [name block] Hin%list_elem_of_In.
  apply elem_of_map_to_list in Hin. rewrite Hin. cbn [from_option].
  apply dict_eqb_Permutation; [|done]. intros channel_pulses.
  apply dict_eqb_Permutation; [|done]. intros p. by apply bool_decide_eq_true_2.
Qed.

(** * Facts about the digital event compiler *)

Module PulseBlasterFacts.
Import PulseBlasterSequence.

(** The facts of this part are about documents whose times are ints. *)
Implicit Types s : t Z.

(** ** Zero-duration pruning *)

Ltac int_numbers :=
  change (@n_zero Z int_number) with 0 in *;
  change (@n_add Z int_number) with Z.add in *;
  change (@n_sub Z int_number) with Z.sub in *;
  change (@n_eqb Z int_number) with Z.eqb in *;
  change (@n_ltb Z int_number) with Z.ltb in *.

Lemma indices_from (f : nat -> nat) (d : list Z) :
  (filter (fun '(idx, dur) => (dur =? 0) = true)
     (imap (fun i => pair (f i)) d)).*1
  = f <$> indices_to_pop d.
Proof.
  unfold indices_to_pop, enumerate. int_numbers. revert f.
  induction d as [|x d IH]; intros f; [done|].
  rewrite !imap_cons, !filter_cons.
  change ((fun i => pair (f i)) ∘ S) with (fun i => @pair nat Z ((f ∘ S) i)).
  change (@pair nat Z ∘ S) with (fun i => @pair nat Z (S i)).
  pose proof (IH (f ∘ S)) as H1. pose proof (IH S) as H2.
  unfold compose in H1.
  destruct (decide ((x =? 0) = true)) as [Hx|Hx]; simpl;
    fold (@fmap list _ _ _ (@fst nat Z)); rewrite H1, H2.
  - f_equal. apply (list_fmap_compose S f).
  - apply (list_fmap_compose S f).
Qed.

Lemma indices_to_pop_cons (x : Z) (d : list Z) :
  indices_to_pop (x :: d)
  = (if decide (x = 0) then [0%nat] else []) ++ (S <$> indices_to_pop d).
Proof.
  rewrite <- (indices_from S d).
  unfold indices_to_pop, enumerate. int_numbers. rewrite imap_cons, filter_cons.
  destruct (decide (x = 0)) as [->|Hx].
  - by rewrite decide_True by done.
  - by rewrite decide_False by (by intros ?%Z.eqb_eq).
Qed.

Lemma indices_to_pop_increasing (d : list Z) :
  StronglySorted (fun a b => (a < b)%nat) (indices_to_pop d).
Proof.
  induction d as [|x d IH]; [constructor|].
  rewrite indices_to_pop_cons.
  assert (StronglySorted (fun a b => (a < b)%nat) (S <$> indices_to_pop d)) as HS.
  { clear -IH. induction IH as [|i l _ IHl Hi]; simpl; constructor; [done|].
    apply Forall_fmap. eapply Forall_impl; [exact Hi|]. simpl. lia. }
  destruct (decide (x = 0)); simpl; [|done].
  constructor; [done|]. apply Forall_fmap, Forall_forall. simpl. lia.
Qed.

Lemma indices_to_pop_bound (d : list Z) :
  Forall (fun i => (i < length d)%nat) (indices_to_pop d).
Proof.
  induction d as [|x d IH]; [constructor|].
  rewrite indices_to_pop_cons. apply Forall_app. split.
  - destruct (decide (x = 0)); [|constructor].
    apply Forall_singleton. simpl. lia.
  - apply Forall_fmap. eapply Forall_impl; [exact IH|]. simpl. lia.
Qed.

(** The entries of [l] that stand where [d] has a non-zero duration. *)
Definition keep {A : Type} (d : list Z) (l : list A) : list A :=
  (filter (fun p => p.1 <> 0) (zip d l)).*2.

Lemma pops_shift {A : Type} (y : A) (l : list A) (idxs : list nat) :
  foldl (fun l i => pop i l) (y :: l) (S <$> idxs)
  = y :: foldl (fun l i => pop i l) l idxs.
Proof. revert l. induction idxs as [|i idxs IH]; intros l; simpl; [done|]. apply IH. Qed.

Lemma pops_keep {A : Type} (d : list Z) (l : list A) :
  length l = length d ->
  foldl (fun l i => pop i l) l (reverse (indices_to_pop d)) = keep d l.
Proof.
  revert l. induction d as [|x d IH]; intros [|y l] Hlen; simpl in Hlen; try done.
  rewrite indices_to_pop_cons, reverse_app, foldl_app, <- fmap_reverse, pops_shift.
  rewrite IH by lia. unfold keep. simpl zip. rewrite filter_cons. simpl.
  destruct (decide (x = 0)) as [->|Hx].
  - rewrite decide_False by (simpl; lia). done.
  - rewrite decide_True by done. done.
Qed.

Lemma keep_length {A B : Type} (d : list Z) (l : list A) (k : list B) :
  length l = length k -> length (keep d l) = length (keep d k).
Proof.
  unfold keep. revert l k.
  induction d as [|x d IH]; intros [|y l] [|z k] H; simpl in *; try done.
  rewrite !filter_cons. simpl.
  destruct (decide (x <> 0)); simpl; rewrite !length_fmap;
    specialize (IH l k); rewrite !length_fmap in IH; auto.
Qed.

Lemma keep_self_nonzero (d : list Z) : Forall (fun x => x <> 0) (keep d d).
Proof.
  unfold keep. induction d as [|x d IH]; simpl; [constructor|].
  rewrite filter_cons. simpl. destruct (decide (x <> 0)); simpl; [|done].
  by constructor.
Qed.

Lemma keep_self_sum (d : list Z) : sum_Z (keep d d) = sum_Z d.
Proof.
  unfold keep, sum_Z. induction d as [|x d IH]; simpl; [done|].
  rewrite filter_cons. simpl. destruct (decide (x <> 0)); simpl in *.
  - f_equal. exact IH.
  - assert (x = 0) as -> by lia. exact IH.
Qed.

Lemma keep_self_filter (d : list Z) : keep d d = filter (fun x => x <> 0) d.
Proof.
  unfold keep. induction d as [|x d IH]; simpl; [done|].
  rewrite !filter_cons. simpl. destruct (decide (x <> 0)); simpl; [f_equal|]; exact IH.
Qed.

(** The attributes that pruning and the bit-field loop never assign. *)
Definition timeline (s : t Z) : list Z * list string * list string :=
  (event_times s, event_channel s, events s).

Definition environment (s : t Z) :=
  (segment_durations s, channel_mapping s, ps s, yaml_sequence s,
   total_duration s).

Lemma pop_step_durations s i :
  event_durations (pop_step s i) = pop i (event_durations s).
Proof.
  unfold pop_step, pop.
  destruct (i <? length (event_durations s))%nat eqn:Hd; simpl.
  - destruct (i <? length (channel_bits s))%nat; done.
  - apply Nat.ltb_ge in Hd.
    destruct (i <? length (channel_bits s))%nat; simpl;
      by rewrite delete_out_of_range.
Qed.

Lemma pop_step_bits s i :
  channel_bits (pop_step s i) = pop i (channel_bits s).
Proof.
  unfold pop_step, pop.
  destruct (i <? length (event_durations s))%nat; simpl;
    destruct (i <? length (channel_bits s))%nat eqn:Hb; simpl; try done;
    apply Nat.ltb_ge in Hb; by rewrite delete_out_of_range.
Qed.

Lemma pop_step_frame s i :
  timeline (pop_step s i) = timeline s /\
  environment (pop_step s i) = environment s.
Proof.
  unfold pop_step.
  destruct (i <? length (event_durations s))%nat; simpl;
    destruct (i <? length (channel_bits _))%nat; done.
Qed.

Lemma pop_step_in_range s i :
  (i < length (event_durations s))%nat ->
  (i < length (channel_bits s))%nat ->
  warned (pop_step s i) = warned s.
Proof.
  intros Hd Hb. unfold pop_step.
  apply Nat.ltb_lt in Hd. rewrite Hd. simpl.
  apply Nat.ltb_lt in Hb. rewrite Hb. done.
Qed.

(** An index the bit-field list does not have: the pop is skipped and a
    warning is recorded. *)
Lemma pop_step_skips s i :
  (length (channel_bits s) <= i)%nat ->
  channel_bits (pop_step s i) = channel_bits s /\
  last (warned (pop_step s i))
  = Some (BadChannelBitsIndex i (length (channel_bits s))).
Proof.
  intros Hb. unfold pop_step. apply Nat.ltb_ge in Hb.
  destruct (i <? length (event_durations s))%nat; simpl; rewrite Hb; simpl;
    by rewrite last_snoc.
Qed.

Lemma pop_step_skips_durations s i :
  (length (event_durations s) <= i)%nat ->
  event_durations (pop_step s i) = event_durations s /\
  BadDurationsIndex i (length (event_durations s)) ∈ warned (pop_step s i).
Proof.
  intros Hd. split.
  - rewrite pop_step_durations. by apply delete_out_of_range.
  - unfold pop_step. apply Nat.ltb_ge in Hd. rewrite Hd.
    destruct (i <? length (channel_bits _))%nat; simpl;
      rewrite ?elem_of_app, !list_elem_of_singleton; auto.
Qed.

Lemma pop_loop_durations idxs s :
  event_durations (foldl pop_step s idxs)
  = foldl (fun l i => pop i l) (event_durations s) idxs.
Proof.
  revert s. induction idxs as [|i idxs IH]; intros s; simpl; [done|].
  by rewrite IH, pop_step_durations.
Qed.

Lemma pop_loop_bits idxs s :
  channel_bits (foldl pop_step s idxs)
  = foldl (fun l i => pop i l) (channel_bits s) idxs.
Proof.
  revert s. induction idxs as [|i idxs IH]; intros s; simpl; [done|].
  by rewrite IH, pop_step_bits.
Qed.

Lemma pop_loop_frame idxs s :
  timeline (foldl pop_step s idxs) = timeline s /\
  environment (foldl pop_step s idxs) = environment s.
Proof.
  revert s. induction idxs as [|i idxs IH]; intros s; simpl; [done|].
  destruct (IH (pop_step s i)) as [-> ->]. apply pop_step_frame.
Qed.

(** Indices met in strictly decreasing order, the first below [n]. *)
Fixpoint descending_below (n : nat) (idxs : list nat) : Prop :=
  match idxs with
  | [] => True
  | i :: rest => (i < n)%nat /\ descending_below i rest
  end.

Lemma descending_below_weaken n m idxs :
  (n <= m)%nat -> descending_below n idxs -> descending_below m idxs.
Proof. destruct idxs; simpl; [done|]. intros ? [? ?]. split; [lia|done]. Qed.

Lemma descending_below_snoc n idxs j :
  (j < n)%nat -> Forall (fun i => (j < i)%nat) idxs ->
  descending_below n idxs -> descending_below n (idxs ++ [j]).
Proof.
  revert n. induction idxs as [|i idxs IH]; intros n Hj Hall Hd; simpl.
  - done.
  - destruct Hd as [Hi Hd]. apply Forall_cons in Hall as [Hji Hall].
    split; [done|]. by apply IH.
Qed.

Lemma descending_below_reverse n l :
  StronglySorted (fun a b => (a < b)%nat) l ->
  Forall (fun i => (i < n)%nat) l ->
  descending_below n (reverse l).
Proof.
  induction 1 as [|x l Hl IH Hx]; intros Hn; [done|].
  apply Forall_cons in Hn as [Hxn Hn].
  rewrite reverse_cons. apply descending_below_snoc; auto.
  by apply Forall_reverse.
Qed.

Lemma pop_loop_quiet idxs s :
  descending_below (length (event_durations s)) idxs ->
  length (channel_bits s) = length (event_durations s) ->
  warned (foldl pop_step s idxs) = warned s.
Proof.
  revert s. induction idxs as [|i idxs IH]; intros s Hd Hlen; simpl; [done|].
  destruct Hd as [Hi Hd].
  assert (length (event_durations (pop_step s i)) = pred (length (event_durations s)))
    as Hd'.
  { rewrite pop_step_durations. unfold pop.
    rewrite length_delete; [lia|]. by apply lookup_lt_is_Some. }
  assert (length (channel_bits (pop_step s i)) = pred (length (event_durations s)))
    as Hb'.
  { rewrite pop_step_bits. unfold pop.
    rewrite length_delete; [lia|]. apply lookup_lt_is_Some. lia. }
  rewrite IH.
  - apply pop_step_in_range; lia.
  - rewrite Hd'. eapply descending_below_weaken; [|done]. lia.
  - lia.
Qed.

(** Pruning on lists of one length: the zero durations go, with the
    bit-fields beside them, and nothing is warned about. *)
Lemma pop_uncessary_entries_spec s :
  length (channel_bits s) = length (event_durations s) ->
  event_durations (_pop_uncessary_entries s)
    = keep (event_durations s) (event_durations s) /\
  channel_bits (_pop_uncessary_entries s)
    = keep (event_durations s) (channel_bits s) /\
  warned (_pop_uncessary_entries s) = warned s /\
  timeline (_pop_uncessary_entries s) = timeline s /\
  environment (_pop_uncessary_entries s) = environment s.
Proof.
  intros Hlen. unfold _pop_uncessary_entries.
  rewrite sorted_reverse_increasing by apply indices_to_pop_increasing.
  rewrite pop_loop_durations, pop_loop_bits, !pops_keep by done.
  repeat split; try apply pop_loop_frame.
  apply pop_loop_quiet; [|done].
  apply descending_below_reverse;
    [apply indices_to_pop_increasing | apply indices_to_pop_bound].
Qed.

(** ** The methods, one by one *)

(** What parsing and sorting never assign. *)
Definition rest (s : t Z) :=
  (event_durations s, channel_bits s, warned s, environment s).

Lemma foldl_rest {X : Type} (f : t Z -> X -> t Z) (l : list X) (s : t Z) :
  (forall s x, rest (f s x) = rest s) -> rest (foldl f s l) = rest s.
Proof.
  intros Hf. revert s. induction l as [|x l IH]; intros s; simpl; [done|].
  by rewrite IH, Hf.
Qed.

Lemma _parse_block_rest s block : rest (_parse_block s block) = rest s.
Proof.
  unfold _parse_block. apply foldl_rest. intros s' [channel pulses].
  unfold _parse_channel. apply foldl_rest. done.
Qed.

Lemma _sort_pulses_spec s s' :
  _sort_pulses s = Ok s' ->
  zip3 s' = sorted tuple_lt (zip3 s) /\
  event_times s' <> [] /\
  length (event_channel s') = length (event_times s') /\
  length (events s') = length (event_times s') /\
  rest s' = rest s.
Proof.
  unfold _sort_pulses.
  destruct (sorted tuple_lt (zip3 s)) as [|x l] eqn:E; [done|].
  intros H.
  assert (s' = set_events (x :: l).*2
                 (set_event_channel ((x :: l).*1).*2
                    (set_event_times ((x :: l).*1).*1 s))) as -> by congruence.
  clear H. unfold zip3 at 1. cbn [event_times event_channel events
    set_events set_event_channel set_event_times].
  rewrite !zip_fst_snd. repeat split; try done.
  all: by rewrite !length_fmap.
Qed.

Definition differences (times : list Z) : list Z :=
  zip_with Z.sub (tail times) (removelast times).

Definition trailing (total_duration : total Z) (times : list Z) : list Z :=
  match total_duration, last times with
  | Duration total_duration, Some t_last =>
      if t_last =? total_duration then [] else [total_duration - t_last]
  | _, _ => []
  end.

Definition leading (times : list Z) : list Z :=
  match times with
  | t0 :: _ => if t0 =? 0 then [] else [t0]
  | [] => []
  end.

Lemma _get_event_durations_spec s s' :
  _get_event_durations s = Ok s' ->
  s' = set_event_durations
         (differences (event_times s) ++ trailing (total_duration s) (event_times s))
         s.
Proof.
  unfold _get_event_durations, trailing, differences. int_numbers.
  cbn [event_times total_duration event_durations set_event_durations].
  destruct (total_duration s) as [|T].
  - intros [= <-]. by rewrite app_nil_r.
  - destruct (last (event_times s)) as [tl|]; [|done].
    destruct (tl =? T); simpl; intros [= <-]; [|done].
    by rewrite app_nil_r.
Qed.

Lemma channel_bits_step_spec s i s' :
  channel_bits_step s i = Ok s' ->
  exists b, s' = set_channel_bits (channel_bits s ++ [b]) s.
Proof.
  unfold channel_bits_step. intros H.
  inv_bind H. inv_bind H. inv_bind H. inv_bind H.
  injection H as <-. eauto.
Qed.

Lemma channel_bits_loop_spec idxs s s' :
  for_each channel_bits_step idxs s = Ok s' ->
  exists bits, length bits = length idxs /\
               s' = set_channel_bits (channel_bits s ++ bits) s.
Proof.
  revert s. induction idxs as [|i idxs IH]; intros s; simpl.
  - intros [= <-]. exists []. rewrite app_nil_r. by destruct s.
  - intros H. inv_bind H.
    apply channel_bits_step_spec in Ha as [b ->].
    apply IH in H as (bits & Hlen & ->).
    exists (b :: bits). split; [simpl; lia|].
    cbn [channel_bits set_channel_bits]. rewrite <- app_assoc. done.
Qed.

Lemma _compute_channel_bits_spec s s' :
  channel_bits s = [] ->
  _compute_channel_bits s = Ok s' ->
  exists bits,
    let lead0 := if leading (event_times s) is [] then [] else [0] in
    let raw := leading (event_times s) ++ event_durations s in
    event_times s <> [] /\
    length bits = length (event_durations s) /\
    event_durations s' = keep raw raw /\
    channel_bits s' = keep raw (lead0 ++ bits) /\
    warned s' = warned s /\
    timeline s' = timeline s /\
    environment s' = environment s.
Proof.
  intros Hnil H. unfold _compute_channel_bits in H. int_numbers.
  inv_bind H. apply channel_bits_loop_spec in Ha as (bits & Hlen & ->).
  rewrite Hnil, length_seq in *. simpl app in *.
  inv_bind H. injection H as <-.
  cbn [event_times set_channel_bits] in Ha.
  unfold list_getitem in Ha.
  destruct (event_times s) as [|t0 times] eqn:Et; [done|].
  injection Ha as <-.
  exists bits. cbn zeta. unfold leading.
  split; [done|]. split; [done|].
  destruct (t0 =? 0); simpl negb; cbv iota.
  - match goal with |- context [_pop_uncessary_entries ?x] =>
      destruct (pop_uncessary_entries_spec x) as (Hd & Hb & Hw & Ht & He) end.
    { done. }
    rewrite Hd, Hb, Hw, Ht, He. unfold timeline. simpl. by rewrite Et.
  - match goal with |- context [_pop_uncessary_entries ?x] =>
      destruct (pop_uncessary_entries_spec x) as (Hd & Hb & Hw & Ht & He) end.
    { simpl. lia. }
    rewrite Hd, Hb, Hw, Ht, He. unfold timeline. simpl. by rewrite Et.
Qed.

(** ** One block, then the whole document *)

Definition raw_durations (total_duration : total Z) (times : list Z) : list Z :=
  leading times ++ differences times ++ trailing total_duration times.

Definition leading_bits (times : list Z) : list Z :=
  if leading times is [] then [] else [0].

(** [cb] is what the run over a block with sorted event times [times] stores:
    the raw segments, pruned in lockstep. *)
Definition compiled_from (total_duration : total Z) (times bits : list Z)
    (cb : compiled_block Z) : Prop :=
  let raw := raw_durations total_duration times in
  times <> [] /\
  length (leading_bits times ++ bits) = length raw /\
  cb_channel_bits cb = keep raw (leading_bits times ++ bits) /\
  cb_durations cb = keep raw raw.

Lemma parse_one_spec s block s' :
  channel_bits s = [] ->
  parse_one s block = Ok s' ->
  exists b s1 bits cb,
    blocks (yaml_sequence s) !! block = Some b /\
    _sort_pulses (_parse_block s b) = Ok s1 /\
    compiled_from (total_duration s) (event_times s1) bits cb /\
    ps s' = <[block := cb]> (ps s) /\
    warned s' = warned s /\
    channel_bits s' = [] /\
    channel_mapping s' = channel_mapping s /\
    yaml_sequence s' = yaml_sequence s /\
    total_duration s' = total_duration s.
Proof.
  intros Hnil H. unfold parse_one in H.
  inv_bind H. rename a into b.
  unfold getitem in Ha. destruct (blocks (yaml_sequence s) !! block) as [b'|] eqn:Eb;
    [|done]. injection Ha as ->.
  inv_bind H. rename a into s1. rename Ha into Hsort.
  inv_bind H. rename a into s2. apply _get_event_durations_spec in Ha as ->.
  inv_bind H. rename a into s3. injection H as <-.
  pose proof (_sort_pulses_spec _ _ Hsort) as (_ & Hne & _ & _ & Hrest).
  rewrite _parse_block_rest in Hrest.
  injection Hrest as Hd1 Hb1 Hw1 Hs1 Hm1 Hp1 Hy1 Ht1.
  apply _compute_channel_bits_spec in Ha as (bits & Hne3 & Hlen & Hd & Hb & Hw & Ht & He);
    [|cbn; congruence].
  cbn [event_times event_durations set_event_durations total_duration] in *.
  injection He as Hs3 Hm3 Hp3 Hy3 Ht3.
  cbn [segment_durations channel_mapping ps yaml_sequence total_duration
       set_event_durations] in *.
  exists b, s1, bits,
    {| cb_channel_bits := channel_bits s3; cb_durations := event_durations s3 |}.
  split; [done|]. split; [done|]. split.
  { unfold compiled_from, raw_durations, leading_bits. cbn [cb_channel_bits cb_durations].
    rewrite <- Ht1. split; [done|]. split; [|by rewrite Hb, Hd].
    rewrite !length_app, Hlen, !length_app.
    unfold leading. destruct (event_times s1) as [|t0 ?]; [done|].
    destruct (t0 =? 0); simpl; lia. }
  unfold _reset_attributes.
  cbn [ps warned channel_bits channel_mapping yaml_sequence total_duration
       set_ps set_segment_durations set_channel_bits set_events
       set_event_channel set_event_durations set_event_times] in Hw |- *.
  rewrite Hp3, Hp1, Hw, Hw1, Hm3, Hm1, Hy3, Hy1, Ht3, Ht1. done.
Qed.

(** Every entry that parsing leaves in [ps] was compiled as [compiled_from]
    says, under the document's total duration, and nothing was warned about. *)
Lemma parse_pulse_sequence_file_spec mapping doc s' :
  parse_pulse_sequence_file (__init__ mapping doc) = Ok s' ->
  warned s' = [] /\
  yaml_sequence s' = doc /\
  forall block cb,
    ps s' !! block = Some cb ->
    exists times bits, compiled_from (yaml_total_duration doc) times bits cb.
Proof.
  unfold parse_pulse_sequence_file. cbn [yaml_sequence __init__].
  intros H.
  apply (for_each_invariant (fun s =>
    channel_bits s = [] /\ warned s = [] /\ yaml_sequence s = doc /\
    total_duration s = yaml_total_duration doc /\
    forall block cb, ps s !! block = Some cb ->
      exists times bits, compiled_from (yaml_total_duration doc) times bits cb))
    in H.
  - destruct H as (_ & Hw & Hy & _ & Hps). done.
  - clear. intros s block s' (Hnil & Hw & Hy & Ht & Hps) H.
    apply parse_one_spec in H
      as (b & s1 & bits & cb & _ & _ & Hcb & Hps' & Hw' & Hnil' & _ & Hy' & Ht');
      [|done].
    split; [done|]. split; [congruence|]. split; [congruence|].
    split; [congruence|].
    intros block' cb'. rewrite Hps'. rewrite lookup_insert.
    case_decide; [|by apply Hps].
    intros [= <-]. exists (event_times s1), bits. by rewrite <- Ht.
  - cbn. repeat split; done.
Qed.

Lemma raw_durations_sum (T : Z) (times : list Z) :
  times <> [] -> sum_Z (raw_durations (Duration T) times) = T.
Proof.
  destruct times as [|t0 times]; [done|]. intros _.
  unfold raw_durations, differences, trailing, leading.
  rewrite !sum_Z_app, sum_Z_differences.
  destruct (last (t0 :: times)) as [tl|] eqn:E; [|by apply last_None in E].
  simpl default.
  destruct (t0 =? 0) eqn:E0; destruct (tl =? T) eqn:E1; simpl; lia.
Qed.

(** ** The order that sorts the events *)

Definition string_lt : string -> string -> Prop := OrderedTypeEx.String_as_OT.lt.

Lemma ltb_string_lt (x y : string) : String.ltb x y = true <-> string_lt x y.
Proof.
  unfold String.ltb. rewrite <- OrderedTypeEx.String_as_OT.cmp_lt.
  unfold OrderedTypeEx.String_as_OT.cmp.
  destruct (String.compare x y); split; congruence.
Qed.

Lemma string_lt_trans (x y z : string) :
  string_lt x y -> string_lt y z -> string_lt x z.
Proof. apply OrderedTypeEx.String_as_OT.lt_trans. Qed.

Lemma string_lt_irrefl (x : string) : ~ string_lt x x.
Proof. intros Hx. by apply OrderedTypeEx.String_as_OT.lt_not_eq in Hx. Qed.

Lemma string_trichotomy (x y : string) :
  string_lt x y \/ x = y \/ string_lt y x.
Proof.
  destruct (String.compare x y) eqn:E.
  - right. left. by apply OrderedTypeEx.String_as_OT.cmp_eq.
  - left. by apply OrderedTypeEx.String_as_OT.cmp_lt.
  - right. right. apply OrderedTypeEx.String_as_OT.cmp_lt.
    pose proof (OrderedTypeEx.String_as_OT.cmp_antisym y x) as Hyx.
    unfold OrderedTypeEx.String_as_OT.cmp in *. by rewrite Hyx, E.
Qed.

Lemma leb_not_string_lt (x y : string) :
  String.leb x y = true <-> ~ string_lt y x.
Proof.
  rewrite <- ltb_string_lt. unfold String.leb, String.ltb.
  pose proof (OrderedTypeEx.String_as_OT.cmp_antisym y x) as Hyx.
  unfold OrderedTypeEx.String_as_OT.cmp in Hyx. rewrite Hyx.
  destruct (String.compare x y); simpl; split; congruence.
Qed.

(** [tuple_lt] spelled out: the time decides, then the channel name, then
    the event. *)
Lemma tuple_lt_spec (t1 t2 : Z) (c1 c2 e1 e2 : string) :
  tuple_lt (t1, c1, e1) (t2, c2, e2) = true <->
  t1 < t2 \/ (t1 = t2 /\ (string_lt c1 c2 \/ (c1 = c2 /\ string_lt e1 e2))).
Proof.
  unfold tuple_lt. int_numbers.
  destruct (Z.eqb_spec t1 t2) as [->|Ht]; simpl.
  - destruct (String.eqb_spec c1 c2) as [->|Hc]; simpl.
    + rewrite ltb_string_lt. split; [auto|].
      intros [?|[_ [Hlt|[_ ?]]]]; [lia| |done].
      by apply string_lt_irrefl in Hlt.
    + rewrite ltb_string_lt. split; [auto|].
      intros [?|[_ [?|[? _]]]]; [lia|done|done].
  - rewrite Z.ltb_lt. split; [auto|]. intros [?|[? _]]; [done|lia].
Qed.

Lemma tuple_lt_asym a b : tuple_lt a b = true -> tuple_lt b a = false.
Proof.
  destruct a as [[t1 c1] e1], b as [[t2 c2] e2]. intros Hab.
  apply not_true_is_false. intros Hba.
  apply tuple_lt_spec in Hab, Hba.
  destruct Hab as [?|[-> [Hc|[-> He]]]]; destruct Hba as [?|[? [Hc'|[? He']]]];
    try lia; subst.
  - eapply string_lt_irrefl, string_lt_trans; eauto.
  - by apply string_lt_irrefl in Hc.
  - by apply string_lt_irrefl in Hc'.
  - eapply string_lt_irrefl, string_lt_trans; eauto.
Qed.

(** [a] may stand before [b] in the sorted timeline. *)
Definition event_le (a b : Z * string * string) : Prop :=
  a.1.1 <= b.1.1 /\
  (a.1.1 = b.1.1 ->
   String.leb a.1.2 b.1.2 = true /\
   (a.1.2 = b.1.2 -> String.leb a.2 b.2 = true)).

Lemma before_event_le a b : before tuple_lt a b <-> event_le a b.
Proof.
  destruct a as [[t1 c1] e1], b as [[t2 c2] e2].
  unfold before, event_le. cbn [fst snd].
  rewrite <- not_true_iff_false, tuple_lt_spec, !leb_not_string_lt.
  split.
  - intros Hn. split; [lia|]. intros ->. split.
    + intros Hc. apply Hn. auto.
    + intros -> He. apply Hn. auto.
  - intros [Hle Heq] [?|[-> [Hc|[-> He]]]]; [lia| |].
    + destruct (Heq eq_refl) as [Hn _]. done.
    + destruct (Heq eq_refl) as [_ Hn]. by apply Hn.
Qed.

Lemma string_leb_trans (x y z : string) :
  String.leb x y = true -> String.leb y z = true -> String.leb x z = true.
Proof.
  rewrite !leb_not_string_lt. intros Hxy Hyz Hzx.
  destruct (string_trichotomy x y) as [Hlt|[->|Hlt]]; [|done|done].
  apply Hyz. eapply string_lt_trans; eauto.
Qed.

#[export] Instance event_le_trans : Transitive event_le.
Proof.
  intros [[t1 c1] e1] [[t2 c2] e2] [[t3 c3] e3].
  unfold event_le. simpl. intros [H12 E12] [H23 E23].
  split; [lia|]. intros ->.
  assert (t2 = t3) as -> by lia.
  destruct (E12 eq_refl) as [Hc12 He12], (E23 eq_refl) as [Hc23 He23].
  split; [by eapply string_leb_trans|].
  intros ->.
  assert (c2 = c3) as ->.
  { by apply String.leb_antisym. }
  eapply string_leb_trans; eauto.
Qed.

Lemma Sorted_weaken {A : Type} (R1 R2 : relation A) (l : list A) :
  (forall a b, R1 a b -> R2 a b) -> Sorted R1 l -> Sorted R2 l.
Proof.
  intros HR. induction 1 as [|x l Hl IH Hx]; constructor; [done|].
  destruct Hx; constructor. by apply HR.
Qed.

Lemma StronglySorted_lookup {A : Type} (R : relation A) (l : list A)
    (i j : nat) (a b : A) :
  StronglySorted R l -> (i < j)%nat ->
  l !! i = Some a -> l !! j = Some b -> R a b.
Proof.
  intros Hl. revert i j. induction Hl as [|x l Hl IH Hx]; intros i j Hij Hi Hj.
  - done.
  - destruct j as [|j]; [lia|]. destruct i as [|i]; simpl in *.
    + injection Hi as ->. rewrite Forall_forall in Hx.
      apply Hx. by eapply list_elem_of_lookup_2.
    + eapply (IH i j); [lia|done|done].
Qed.

Lemma sorted_events_StronglySorted (l : list (Z * string * string)) :
  StronglySorted event_le (sorted tuple_lt l).
Proof.
  apply Sorted_StronglySorted; [apply _|].
  eapply Sorted_weaken; [|apply sorted_Sorted, tuple_lt_asym].
  intros a b. apply before_event_le.
Qed.

End PulseBlasterFacts.

Import PulseBlasterSequence PulseBlasterFacts Examples.


(** * Facts about the waveform builder *)

Module PulseSequenceFacts.
Import PulseSequence.
Section facts.
Context {R : Type} `{Float64 R}.

(** [p[v, r, j]], when the three indices are inside the array. *)
Definition sample (p : list (list (list R))) (v r j : nat) : option R :=
  variant ← p !! v; row ← variant !! r; row !! j.

(** The nested lists have the shape [(a, b, c)]. *)
Definition shaped (a b c : nat) (p : list (list (list R))) : Prop :=
  length p = a /\
  Forall (fun variant =>
            length variant = b /\ Forall (fun row => length row = c) variant) p.

(** The invariant of the class: the arrays have the shapes that [__init__]
    gave them. *)
Definition wf (s : @t R) : Prop :=
  length (time s) = num_points s /\
  shaped (numseqs s) (7 * length (awg_sources s)) (num_points s) (pulses s).

(** The value that a pulse leaves at sample [j] of its range. *)
Definition pulse_value (s : @t R) (amplitude : R) (freq : option (R * R))
    (j : nat) : option R :=
  match freq with
  | Some (frequency, phase) =>
      (fun t => f_mul amplitude
                  (f_cos (f_add (f_mul (f_mul f_two_pi (f_mul frequency f_micro)) t)
                                phase)))
      <$> time s !! j
  | None => Some (f_mul amplitude f_one)
  end.

(** First sample and number of samples that a pulse writes: none when its
    start or its duration cannot be converted to an index. *)
Definition pulse_range (s : @t R) (start duration : R) (inputtype : string)
  : nat * nat :=
  match index_range s start duration inputtype with
  | Ok (start, stop, _) => slice_range (num_points s) start stop
  | Raise _ => (0, 0)%nat
  end.

(** First variant and number of variants that [numseq] selects. *)
Definition variant_range (s : @t R) (numseq : Z + Z * Z) : result (nat * nat) :=
  match numseq with
  | inl numseq => v ← np_index (numseqs s) numseq; Ok (v, 1%nat)
  | inr (first, last) => Ok (slice_range (numseqs s) first last)
  end.

Lemma sample_out_of_range a b c p v r j :
  shaped a b c p -> (c <= j)%nat -> sample p v r j = None.
Proof.
  intros [Ha Hp] Hj. unfold sample.
  destruct (p !! v) as [variant|] eqn:Hvar; [|done]. simpl.
  rewrite Forall_lookup in Hp. destruct (Hp _ _ Hvar) as [Hb Hrows].
  destruct (variant !! r) as [row|] eqn:Hrow; [|done]. simpl.
  rewrite Forall_lookup in Hrows. specialize (Hrows _ _ Hrow).
  apply lookup_ge_None. lia.
Qed.

Lemma shaped_map_range a b c p (f : list (list R) -> list (list R)) v0 n :
  (forall variant,
     length variant = b /\ Forall (fun row => length row = c) variant ->
     length (f variant) = b /\ Forall (fun row => length row = c) (f variant)) ->
  shaped a b c p -> shaped a b c (map_range f v0 n p).
Proof.
  intros Hf [Ha Hp]. split; [by rewrite length_map_range|].
  unfold map_range. rewrite !Forall_app, Forall_fmap.
  split; [by apply Forall_take|]. split; [|by apply Forall_drop].
  eapply Forall_impl; [apply Forall_take, Forall_drop, Hp|]. apply Hf.
Qed.

Lemma write_row_shape b c r lo (vals : list R) variant :
  (lo + length vals <= c)%nat ->
  length variant = b /\ Forall (fun row => length row = c) variant ->
  length (write_row r lo vals variant) = b /\
  Forall (fun row => length row = c) (write_row r lo vals variant).
Proof.
  intros Hle [Hb Hrows]. unfold write_row. split; [by rewrite length_alter|].
  apply Forall_alter; [done|].
  intros row _ Hrow. rewrite length_write_slice; lia.
Qed.

Lemma sample_map_range a b c p r lo (vals : list R) v0 n v' r' j :
  shaped a b c p -> (v0 + n <= a)%nat -> (r < b)%nat ->
  (lo + length vals <= c)%nat ->
  sample (map_range (write_row r lo vals) v0 n p) v' r' j
  = if decide ((v0 <= v' < v0 + n)%nat /\ r' = r /\ (lo <= j < lo + length vals)%nat)
    then vals !! (j - lo)%nat
    else sample p v' r' j.
Proof.
  intros [Ha Hp] Hv Hr Hlo. unfold sample.
  rewrite lookup_map_range.
  destruct (decide (v0 <= v' < v0 + n)%nat) as [Hin|Hout];
    [|by rewrite decide_False by tauto].
  destruct (lookup_lt_is_Some_2 p v') as [variant Hvar]; [lia|].
  rewrite Hvar. simpl.
  rewrite Forall_lookup in Hp. destruct (Hp _ _ Hvar) as [Hb Hrows].
  unfold write_row. rewrite list_lookup_alter.
  destruct (decide (r = r')) as [<-|Hne];
    [|by rewrite decide_False by (intros (_ & ? & _); congruence)].
  destruct (lookup_lt_is_Some_2 variant r) as [row Hrow]; [lia|].
  rewrite Hrow. simpl.
  rewrite Forall_lookup in Hrows. specialize (Hrows _ _ Hrow).
  rewrite lookup_write_slice by lia.
  destruct (decide (lo <= j < lo + length vals)%nat).
  - by rewrite decide_True by tauto.
  - by rewrite decide_False by tauto.
Qed.

Lemma time_to_index_frame s time index s1 :
  time_to_index s time = Ok (index, s1) ->
  exists k, s1 = set_warning_counter k s.
Proof.
  unfold time_to_index. intros Hidx. inv_bind Hidx. injection Hidx as _ <-.
  destruct (negb _); [eauto|]. exists (warning_counter s). by destruct s.
Qed.

Lemma index_range_frame s start duration inputtype a b s1 :
  index_range s start duration inputtype = Ok (a, b, s1) ->
  exists k, s1 = set_warning_counter k s.
Proof.
  unfold index_range. destruct (inputtype =? "time")%string; intros Hidx.
  - inv_bind Hidx. destruct a0 as [first s2].
    inv_bind Hidx. destruct a0 as [len s3]. injection Hidx as _ _ <-.
    apply time_to_index_frame in Ha as [k ->].
    apply time_to_index_frame in Ha0 as [k' ->]. by exists k'.
  - inv_bind Hidx. inv_bind Hidx. injection Hidx as _ _ <-.
    exists (warning_counter s). by destruct s.
Qed.

Lemma length_pulse_values s lo len amplitude freq :
  (lo + len <= length (time s))%nat ->
  length (pulse_values s lo len amplitude freq) = len.
Proof.
  intros Hle. unfold pulse_values. destruct freq as [[frequency phase]|].
  - rewrite !length_fmap, length_take, length_drop. lia.
  - apply length_replicate.
Qed.

Lemma lookup_pulse_values s lo len amplitude freq k :
  (lo + len <= length (time s))%nat -> (k < len)%nat ->
  pulse_values s lo len amplitude freq !! k
  = pulse_value s amplitude freq (lo + k).
Proof.
  intros Hle Hk. unfold pulse_values, pulse_value.
  destruct freq as [[frequency phase]|].
  - rewrite !list_lookup_fmap, lookup_take_lt, lookup_drop by done.
    by destruct (time s !! (lo + k)%nat).
  - by apply lookup_replicate_2.
Qed.
(** What [add_pulse] does to a well-shaped object, once the start and the
    duration are converted: it returns, the shapes stay, and exactly the
    addressed samples take the value of the pulse. *)
Lemma add_pulse_spec (s : @t R) numseq start duration channel inputtype
    amplitude freq v0 n r a b s1 :
  wf s ->
  variant_range s numseq = Ok (v0, n) ->
  np_index (7 * length (awg_sources s)) channel = Ok r ->
  index_range s start duration inputtype = Ok (a, b, s1) ->
  exists s',
    add_pulse s numseq start duration channel inputtype amplitude freq = Ok s' /\
    wf s' /\
    num_points s' = num_points s /\
    numseqs s' = numseqs s /\
    awg_sources s' = awg_sources s /\
    time s' = time s /\
    samp_rate s' = samp_rate s /\
    forall v' r' j,
      sample (pulses s') v' r' j
      = if decide ((v0 <= v' < v0 + n)%nat /\ r' = r /\
                   ((pulse_range s start duration inputtype).1 <= j
                    < (pulse_range s start duration inputtype).1
                      + (pulse_range s start duration inputtype).2)%nat)
        then pulse_value s amplitude freq j
        else sample (pulses s) v' r' j.
Proof.
  intros (Htime & Hshape) Hvar Hch Hidx.
  unfold add_pulse, pulse_range. rewrite Hidx. cbn [mbind result_bind].
  apply index_range_frame in Hidx as [k ->].
  cbn [num_points numseqs awg_sources pulses set_warning_counter].
  pose proof (slice_range_le (num_points s) a b) as Hslice.
  destruct (slice_range (num_points s) a b) as [lo len] eqn:Hrange.
  cbn [fst snd] in *.
  set (vals := pulse_values (set_warning_counter k s) lo len amplitude freq).
  assert (length vals = len) as Hvals.
  { apply length_pulse_values. cbn. lia. }
  assert (r < 7 * length (awg_sources s))%nat as Hr.
  { by apply np_index_lt in Hch. }
  assert (v0 + n <= numseqs s)%nat as Hv.
  { destruct numseq as [i|[first last]]; unfold variant_range in Hvar.
    - destruct (np_index (numseqs s) i) as [v|] eqn:Hi; [|done].
      injection Hvar as <- <-. apply np_index_lt in Hi. lia.
    - assert (slice_range (numseqs s) first last = (v0, n)) as Hvar'
        by congruence.
      pose proof (slice_range_le (numseqs s) first last) as Hle.
      rewrite Hvar' in Hle. simpl in Hle. lia. }
  assert (exists p',
    match numseq with
    | inr (first, last) =>
        channel ← np_index (7 * length (awg_sources s)) channel;
        let '(v0, n) := slice_range (numseqs s) first last in
        Ok (set_pulses
              (take v0 (pulses s)
               ++ (write_row channel lo vals <$> take n (drop v0 (pulses s)))
               ++ drop (v0 + n) (pulses s)) (set_warning_counter k s))
    | inl numseq =>
        numseq ← np_index (numseqs s) numseq;
        channel ← np_index (7 * length (awg_sources s)) channel;
        Ok (set_pulses (alter (write_row channel lo vals) numseq (pulses s))
              (set_warning_counter k s))
    end = Ok (set_pulses p' (set_warning_counter k s)) /\
    p' = map_range (write_row r lo vals) v0 n (pulses s)) as (p' & -> & ->).
  { destruct numseq as [i|[first last]]; unfold variant_range in Hvar.
    - destruct (np_index (numseqs s) i) as [v|] eqn:Hi; [|done].
      injection Hvar as <- <-. rewrite Hch. simpl.
      eexists. split; [reflexivity|]. apply alter_map_range.
    - assert (slice_range (numseqs s) first last = (v0, n)) as Hvar'
        by congruence.
      rewrite Hch, Hvar'. simpl.
      eexists. split; reflexivity. }
  eexists. split; [reflexivity|].
  cbn [num_points numseqs awg_sources pulses time samp_rate set_pulses
       set_warning_counter].
  split; [|repeat split; try done].
  - split; [done|]. cbn.
    apply shaped_map_range; [|done].
    intros variant. apply write_row_shape. lia.
  - intros v' r' j.
    rewrite (sample_map_range (numseqs s) (7 * length (awg_sources s))
               (num_points s)) by (done || lia).
    rewrite Hvals.
    destruct (decide _) as [(Hv' & -> & Hj)|]; [|done].
    unfold vals. rewrite lookup_pulse_values by (cbn; lia).
    replace (lo + (j - lo))%nat with j by lia. done.
Qed.

(** The bounds of the write depend on the sample rate alone. *)
Definition index_bounds (rate start duration : R) (inputtype : string)
  : result (Z * Z) :=
  if (inputtype =? "time")%string then
    first ← f_round (f_mul (f_mul rate start) f_micro);
    len ← f_round (f_mul (f_mul rate duration) f_micro);
    Ok (first, first + len)
  else
    first ← f_trunc start;
    stop ← f_trunc (f_add start duration);
    Ok (first, stop).

Lemma time_to_index_rate (s : @t R) time :
  time_to_index s time
  = index ← f_round (f_mul (f_mul (samp_rate s) time) f_micro);
    Ok (index,
        if negb (f_isclose (f_mul (f_mul (samp_rate s) time) f_micro) index)
        then set_warning_counter (warning_counter s + 1) s else s).
Proof. reflexivity. Qed.

Lemma index_range_bounds (s : @t R) start duration inputtype :
  match index_range s start duration inputtype with
  | Ok (a, b, _) => index_bounds (samp_rate s) start duration inputtype = Ok (a, b)
  | Raise e => index_bounds (samp_rate s) start duration inputtype = Raise e
  end.
Proof.
  unfold index_range, index_bounds.
  destruct (inputtype =? "time")%string.
  - rewrite time_to_index_rate.
    destruct (f_round (f_mul (f_mul (samp_rate s) start) f_micro)) as [first|e];
      cbn [mbind result_bind]; [|done].
    rewrite time_to_index_rate.
    assert (samp_rate
              (if negb (f_isclose (f_mul (f_mul (samp_rate s) start) f_micro) first)
               then set_warning_counter (warning_counter s + 1) s else s)
            = samp_rate s) as -> by (by destruct (negb _)).
    by destruct (f_round (f_mul (f_mul (samp_rate s) duration) f_micro))
      as [len|e]; cbn [mbind result_bind].
  - destruct (f_trunc start) as [first|e]; cbn [mbind result_bind]; [|done].
    by destruct (f_trunc (f_add start duration)) as [stop|e];
      cbn [mbind result_bind].
Qed.

Lemma pulse_range_bounds (s : @t R) start duration inputtype :
  pulse_range s start duration inputtype
  = match index_bounds (samp_rate s) start duration inputtype with
    | Ok (a, b) => slice_range (num_points s) a b
    | Raise _ => (0, 0)%nat
    end.
Proof.
  unfold pulse_range.
  pose proof (index_range_bounds s start duration inputtype) as Hb.
  destruct (index_range s start duration inputtype) as [[[a b] s1]|e];
    by rewrite Hb.
Qed.

Lemma pulse_range_frame (s s' : @t R) start duration inputtype :
  samp_rate s' = samp_rate s -> num_points s' = num_points s ->
  pulse_range s' start duration inputtype
  = pulse_range s start duration inputtype.
Proof. intros Hrate Hn. by rewrite !pulse_range_bounds, Hrate, Hn. Qed.

Lemma index_range_Ok_iff (s : @t R) start duration inputtype a b :
  (exists s1, index_range s start duration inputtype = Ok (a, b, s1))
  <-> index_bounds (samp_rate s) start duration inputtype = Ok (a, b).
Proof.
  pose proof (index_range_bounds s start duration inputtype) as Hb.
  destruct (index_range s start duration inputtype) as [[[a' b'] s1]|e];
    rewrite Hb; split.
  - by intros [s1' [= -> -> _]].
  - intros [= -> ->]. eauto.
  - by intros [? ?].
  - done.
Qed.

Lemma index_bounds_time rate start duration :
  returns (index_bounds rate start duration "time") <->
  returns (f_round (f_mul (f_mul rate start) f_micro)) /\
  returns (f_round (f_mul (f_mul rate duration) f_micro)).
Proof.
  unfold index_bounds, returns. rewrite String.eqb_refl.
  destruct (f_round (f_mul (f_mul rate start) f_micro)) as [first|e],
    (f_round (f_mul (f_mul rate duration) f_micro)) as [len|e'];
    cbn [mbind result_bind].
  - split; eauto.
  - split; [by intros [? ?]|]. by intros [_ [? ?]].
  - split; [by intros [? ?]|]. by intros [[? ?] _].
  - split; [by intros [? ?]|]. by intros [[? ?] _].
Qed.

(** A pulse that is converted on [s] is converted on every object with the
    sample rate of [s]. *)
Lemma index_range_rate (s s' : @t R) start duration inputtype a b s1 :
  samp_rate s' = samp_rate s ->
  index_range s start duration inputtype = Ok (a, b, s1) ->
  exists s1', index_range s' start duration inputtype = Ok (a, b, s1').
Proof.
  intros Hrate Hidx.
  pose proof (index_range_bounds s start duration inputtype) as Hb.
  pose proof (index_range_bounds s' start duration inputtype) as Hb'.
  rewrite Hidx in Hb. rewrite Hrate, Hb in Hb'.
  destruct (index_range s' start duration inputtype) as [[[a' b'] s1']|e];
    [|done].
  injection Hb' as <- <-. eauto.
Qed.

Lemma __init___spec numseqs0 duration sources samprate (s : @t R) :
  __init__ numseqs0 duration sources samprate = Ok s ->
  wf s /\ numseqs s = numseqs0 /\ awg_sources s = sources /\
  samp_rate s = samprate /\ flag_channels s = None /\
  pulses s = replicate numseqs0
               (replicate (7 * length sources) (replicate (num_points s) f_zero)).
Proof.
  unfold __init__. intros Hs. inv_bind Hs. rename a into points.
  destruct (points <? 0); [done|].
  assert (s = {| samp_rate := samprate;
                 num_points := Z.to_nat points;
                 time := f_linspace duration (Z.to_nat points)
                         <$> seq 0 (Z.to_nat points);
                 numseqs := numseqs0;
                 awg_sources := sources;
                 pulses := replicate numseqs0
                             (replicate (7 * length sources)
                                (replicate (Z.to_nat points) f_zero));
                 sequencer := None;
                 sequencernames := None;
                 flag_channels := None;
                 warning_counter := 0 |}) as -> by congruence.
  clear Hs. unfold wf, shaped.
  cbn [time num_points numseqs awg_sources pulses samp_rate flag_channels].
  repeat split; try done.
  - by rewrite length_fmap, length_seq.
  - apply length_replicate.
  - apply Forall_replicate. split; [apply length_replicate|].
    apply Forall_replicate, length_replicate.
Qed.

(** ** Marker packing *)

(** The byte of the specification: marker row [k] sets bit [7 - k] when its
    value is positive. *)
Definition marker_byte (markers : list R) : Z :=
  sum_Z (imap (fun k m => if f_pos m then 2 ^ (7 - Z.of_nat k) else 0) markers).

Lemma lookup_pack_step packed bit_offset (marker : list R) j :
  pack_step packed bit_offset marker !! j
  = p ← packed !! j; m ← marker !! j;
    Some (Z.lor p (Z.shiftl (Z.b2z (f_pos m)) (7 - Z.of_nat bit_offset) mod 256)).
Proof. unfold pack_step. apply lookup_zip_with. Qed.

Lemma lookup_pack_markers n (r0 r1 r2 r3 r4 r5 : list R) j m0 m1 m2 m3 m4 m5 :
  (j < n)%nat ->
  r0 !! j = Some m0 -> r1 !! j = Some m1 -> r2 !! j = Some m2 ->
  r3 !! j = Some m3 -> r4 !! j = Some m4 -> r5 !! j = Some m5 ->
  pack_markers n [r0; r1; r2; r3; r4; r5] !! j
  = Some (marker_byte [m0; m1; m2; m3; m4; m5]).
Proof.
  intros Hj H0 H1 H2 H3 H4 H5. unfold pack_markers, enumerate.
  cbn [imap foldl compose].
  rewrite !lookup_pack_step, lookup_replicate_2 by done.
  rewrite H0, H1, H2, H3, H4, H5. cbn [mbind option_bind].
  f_equal. unfold marker_byte. cbn [imap compose].
  destruct (f_pos m0), (f_pos m1), (f_pos m2), (f_pos m3), (f_pos m4),
    (f_pos m5); reflexivity.
Qed.

Lemma marker_byte_testbit (markers : list R) (k : nat) (m : R) :
  length markers = 6%nat -> markers !! k = Some m ->
  Z.testbit (marker_byte markers) (7 - Z.of_nat k) = f_pos m.
Proof.
  intros Hlen Hk.
  destruct markers as [|m0 [|m1 [|m2 [|m3 [|m4 [|m5 [|]]]]]]]; try done.
  unfold marker_byte. cbn [imap compose].
  destruct k as [|[|[|[|[|[|k]]]]]]; simpl in Hk; [..|done].
  all: injection Hk as <-.
  all: destruct (f_pos m0), (f_pos m1), (f_pos m2), (f_pos m3), (f_pos m4),
         (f_pos m5); reflexivity.
Qed.

Lemma marker_byte_bound (markers : list R) :
  length markers = 6%nat -> 0 <= marker_byte markers < 256.
Proof.
  intros Hlen.
  destruct markers as [|m0 [|m1 [|m2 [|m3 [|m4 [|m5 [|]]]]]]]; try done.
  unfold marker_byte. cbn [imap compose].
  destruct (f_pos m0), (f_pos m1), (f_pos m2), (f_pos m3), (f_pos m4),
    (f_pos m5); vm_compute; split; congruence.
Qed.

Lemma marker_byte_alternating (markers : list R) :
  f_pos <$> markers = [false; true; false; true; false; true] ->
  marker_byte markers = 84.
Proof.
  intros Hpos.
  destruct markers as [|m0 [|m1 [|m2 [|m3 [|m4 [|m5 [|]]]]]]]; try done.
  injection Hpos as H0 H1 H2 H3 H4 H5.
  unfold marker_byte. cbn [imap compose].
  by rewrite H0, H1, H2, H3, H4, H5.
Qed.

(** ** [make] on a well-shaped object *)

Definition collapsed (n : nat) (variant : list (list R)) (si : nat)
  : list (list R) :=
  [default [] (variant !! (7 * si)%nat);
   f_of_uint8
   <$> pack_markers n
         ((fun k => default [] (variant !! (7 * si + 1 + k)%nat)) <$> seq 0 6)].

Lemma collapse_source_Ok n (variant : list (list R)) si :
  (7 * si + 7 <= length variant)%nat ->
  collapse_source n variant si = Ok (collapsed n variant si).
Proof.
  intros Hlen. unfold collapse_source, collapsed, list_getitem.
  destruct (lookup_lt_is_Some_2 variant (7 * si)%nat) as [row Hrow]; [lia|].
  rewrite Hrow. cbn [mbind result_bind default].
  rewrite (traverse_fmap _
             (fun k => default [] (variant !! (7 * si + 1 + k)%nat))); [done|].
  apply Forall_forall. intros k Hk%elem_of_seq.
  destruct (lookup_lt_is_Some_2 variant (7 * si + 1 + k)%nat) as [m Hm]; [lia|].
  by rewrite Hm.
Qed.

Lemma length_concat_pairs {A : Type} (f h : nat -> A) (m : nat) :
  length (concat ((fun i => [f i; h i]) <$> seq 0 m)) = (2 * m)%nat.
Proof.
  induction m as [|m IH]; [done|].
  rewrite seq_S, fmap_app, concat_app, length_app, IH. simpl. lia.
Qed.

Lemma lookup_concat_pairs {A : Type} (f h : nat -> A) (m i : nat) :
  (i < m)%nat ->
  concat ((fun i => [f i; h i]) <$> seq 0 m) !! (2 * i)%nat = Some (f i) /\
  concat ((fun i => [f i; h i]) <$> seq 0 m) !! (2 * i + 1)%nat = Some (h i).
Proof.
  induction m as [|m IH]; [lia|]. intros Hi.
  rewrite seq_S, fmap_app, concat_app.
  destruct (decide (i < m)%nat) as [Hlt|Hge].
  - rewrite !lookup_app_l by (rewrite length_concat_pairs; lia). by apply IH.
  - assert (i = m) as -> by lia.
    rewrite !lookup_app_r by (rewrite length_concat_pairs; lia).
    rewrite length_concat_pairs.
    replace (2 * m - 2 * m)%nat with 0%nat by lia.
    replace (2 * m + 1 - 2 * m)%nat with 1%nat by lia. done.
Qed.

Lemma make_spec (s : @t R) flags :
  wf s -> flag_channels s = Some flags ->
  make s
  = Ok {| final := (fun variant =>
                      concat (collapsed (num_points s) variant
                              <$> seq 0 (length (awg_sources s))))
                   <$> pulses s;
          saved_sequencer := sequencer s;
          saved_sequencernames := sequencernames s;
          saved_flag_channels := flags |}.
Proof.
  intros (_ & _ & Hshape) Hflags. unfold make.
  rewrite (traverse_fmap _
             (fun variant =>
                concat (collapsed (num_points s) variant
                        <$> seq 0 (length (awg_sources s))))).
  - cbn [mbind result_bind]. by rewrite Hflags.
  - eapply Forall_impl; [exact Hshape|]. intros variant [Hlen _]. cbn beta.
    rewrite (traverse_fmap _ (collapsed (num_points s) variant)); [done|].
    apply Forall_forall. intros si Hsi%elem_of_seq.
    apply collapse_source_Ok. lia.
Qed.

(** Row [2 * si] of the archive is analog row [7 * si]; row [2 * si + 1]
    holds the bytes of the six marker rows that follow it. *)
Lemma sample_final (s : @t R) v si j :
  wf s -> (v < numseqs s)%nat -> (si < length (awg_sources s))%nat ->
  (j < num_points s)%nat ->
  let final := (fun variant =>
                  concat (collapsed (num_points s) variant
                          <$> seq 0 (length (awg_sources s))))
               <$> pulses s in
  sample final v (2 * si) j = sample (pulses s) v (7 * si) j /\
  exists markers : list R,
    length markers = 6%nat /\
    (forall k, (k < 6)%nat ->
               sample (pulses s) v (7 * si + 1 + k) j = markers !! k) /\
    sample final v (2 * si + 1) j = Some (f_of_uint8 (marker_byte markers)).
Proof.
  intros (_ & Hnum & Hshape) Hv Hsi Hj final. unfold sample, final.
  destruct (lookup_lt_is_Some_2 (pulses s) v) as [variant Hvar]; [lia|].
  rewrite list_lookup_fmap, Hvar. cbn [fmap option_fmap option_map mbind option_bind].
  rewrite Forall_lookup in Hshape. destruct (Hshape _ _ Hvar) as [Hlen Hrows].
  rewrite Forall_lookup in Hrows.
  destruct (lookup_concat_pairs
              (fun si => default [] (variant !! (7 * si)%nat))
              (fun si => f_of_uint8
                         <$> pack_markers (num_points s)
                               ((fun k => default [] (variant !! (7 * si + 1 + k)%nat))
                                <$> seq 0 6))
              (length (awg_sources s)) si Hsi) as [Heven Hodd].
  unfold collapsed. rewrite Heven, Hodd. cbn [mbind option_bind].
  assert (forall r, (r < 7 * length (awg_sources s))%nat ->
            exists row m, variant !! r = Some row /\ row !! j = Some m) as Hrow.
  { intros r Hr.
    destruct (lookup_lt_is_Some_2 variant r) as [row Hrow]; [lia|].
    destruct (lookup_lt_is_Some_2 row j) as [m Hm].
    { rewrite (Hrows _ _ Hrow). lia. }
    eauto. }
  split.
  - destruct (Hrow (7 * si)%nat) as (row & m & -> & _); [lia|]. done.
  - destruct (Hrow (7 * si + 1 + 0)%nat) as (r0 & m0 & Hr0 & Hm0); [lia|].
    destruct (Hrow (7 * si + 1 + 1)%nat) as (r1 & m1 & Hr1 & Hm1); [lia|].
    destruct (Hrow (7 * si + 1 + 2)%nat) as (r2 & m2 & Hr2 & Hm2); [lia|].
    destruct (Hrow (7 * si + 1 + 3)%nat) as (r3 & m3 & Hr3 & Hm3); [lia|].
    destruct (Hrow (7 * si + 1 + 4)%nat) as (r4 & m4 & Hr4 & Hm4); [lia|].
    destruct (Hrow (7 * si + 1 + 5)%nat) as (r5 & m5 & Hr5 & Hm5); [lia|].
    exists [m0; m1; m2; m3; m4; m5]. split; [done|]. split.
    + intros k Hk.
      destruct k as [|[|[|[|[|[|k]]]]]]; [..|lia]; cbn [lookup list_lookup].
      * by rewrite Hr0.
      * by rewrite Hr1.
      * by rewrite Hr2.
      * by rewrite Hr3.
      * by rewrite Hr4.
      * by rewrite Hr5.
    + cbn [seq fmap list_fmap]. rewrite Hr0, Hr1, Hr2, Hr3, Hr4, Hr5.
      cbn [default]. rewrite list_lookup_fmap.
      by rewrite (lookup_pack_markers _ _ _ _ _ _ _ _ m0 m1 m2 m3 m4 m5).
Qed.

End facts.
End PulseSequenceFacts.

(** * Repeat expansion *)

(** The words of the specification: each native sequence repeated its repeat
    count times, one after the other in program order. *)
Definition repeat_expansion {A : Type} (natives : list (list A * Z)) : list A :=
  concat ((fun '(native, repeats) => list_mul native repeats) <$> natives).

(** What [ps] holds for a block. *)
Definition native (ps : gmap string (compiled_block Z)) (block : string)
  : compiled_block Z :=
  default {| cb_channel_bits := []; cb_durations := [] |} (ps !! block).

Lemma length_list_mul {A : Type} (l : list A) (n : Z) :
  length (list_mul l n) = (Z.to_nat n * length l)%nat.
Proof.
  unfold list_mul. induction (Z.to_nat n) as [|k IH]; [done|].
  cbn [replicate concat]. rewrite length_app, IH. lia.
Qed.

Lemma length_repeat_expansion {A : Type} (natives : list (list A * Z)) :
  length (repeat_expansion natives)
  = sum_list ((fun '(native, repeats) => (Z.to_nat repeats * length native)%nat)
              <$> natives).
Proof.
  unfold repeat_expansion.
  induction natives as [|[l r] natives IH]; [done|].
  cbn [fmap list_fmap concat sum_list sum_list_with].
  rewrite length_app, length_list_mul. simpl in IH. by rewrite IH.
Qed.

Lemma parse_loop_entries (l : list string) (s s' : t Z) :
  channel_bits s = [] ->
  for_each parse_one l s = Ok s' ->
  (forall block, is_Some (ps s !! block) -> is_Some (ps s' !! block)) /\
  (forall block, block ∈ l -> is_Some (ps s' !! block)) /\
  yaml_sequence s' = yaml_sequence s.
Proof.
  revert s. induction l as [|x l IH]; intros s Hnil; simpl.
  - intros [= <-]. split; [done|]. split; [|done]. by intros block ?%elem_of_nil.
  - intros Hloop. inv_bind Hloop. rename a into s1.
    apply parse_one_spec in Ha
      as (b & s0 & bits & cb & _ & _ & _ & Hps & _ & Hnil1 & _ & Hy & _); [|done].
    destruct (IH s1 Hnil1 Hloop) as (Hkeep & Hnew & Hy').
    assert (forall block, is_Some (ps s !! block) -> is_Some (ps s1 !! block))
      as Hstep.
    { intros block Hb. rewrite Hps, lookup_insert. by case_decide. }
    split; [auto|]. split; [|congruence].
    intros block [->|Hin]%elem_of_cons; [|by apply Hnew].
    apply Hkeep. rewrite Hps, lookup_insert_eq. done.
Qed.

Lemma compile_loop (psm : gmap string (compiled_block Z))
    (program : list (string * Z)) (bits durations : list Z) :
  (forall block repeats, (block, repeats) ∈ program -> is_Some (psm !! block)) ->
  for_each
    (fun '(channel_bits, bits_duration) '(sequence_block, block_repeats) =>
       b ← getitem psm sequence_block;
       Ok (channel_bits ++ list_mul (cb_channel_bits b) block_repeats,
           bits_duration ++ list_mul (cb_durations b) block_repeats))
    program (bits, durations)
  = Ok (bits ++ repeat_expansion
                  ((fun '(block, repeats) =>
                      (cb_channel_bits (native psm block), repeats)) <$> program),
        durations ++ repeat_expansion
                       ((fun '(block, repeats) =>
                           (cb_durations (native psm block), repeats)) <$> program)).
Proof.
  revert bits durations.
  induction program as [|[block repeats] program IH]; intros bits durations Hin.
  - simpl. unfold repeat_expansion. simpl. by rewrite !app_nil_r.
  - cbn [for_each].
    destruct (Hin block repeats) as [cb Hcb]; [apply elem_of_cons; by left|].
    assert (getitem psm block = Ok cb) as Hget
      by (unfold getitem; by rewrite Hcb).
    rewrite Hget. cbn [mbind result_bind].
    rewrite IH.
    + unfold repeat_expansion, native. cbn [fmap list_fmap concat].
      rewrite Hcb. cbn [default]. by rewrite <- !app_assoc.
    + intros b r Hbr. apply (Hin b r). apply elem_of_cons. by right.
Qed.

(** * Facts about the translation to an archive *)

(** Whatever the check answers, it leaves the document in the sidecar. *)
Lemma sequence_checked {D A : Type} `{PyEq D}
    (fs fs1 : PulseSequenceYaml.files D A) (doc : D) (unchanged : bool) :
  PulseSequenceYaml.yaml_file fs = Some doc ->
  PulseSequenceYaml._sequence_didnt_change fs = Ok (unchanged, fs1) ->
  fs1 = PulseSequenceYaml.write_aux doc fs.
Proof.
  unfold PulseSequenceYaml._sequence_didnt_change. intros ->.
  destruct (PulseSequenceYaml.aux_file fs); congruence.
Qed.

Section translate_facts.
Context {R : Type} `{Float64 R} `{EqDecision R}.

Lemma add_pulse_Ok_inv (s s' : PulseSequence.t (R:=R)) numseq start duration
    channel inputtype amplitude freq :
  PulseSequence.add_pulse s numseq start duration channel inputtype amplitude
    freq = Ok s' ->
  exists v0 n r a b s1,
    PulseSequenceFacts.variant_range s numseq = Ok (v0, n) /\
    np_index (7 * length (PulseSequence.awg_sources s)) channel = Ok r /\
    PulseSequence.index_range s start duration inputtype = Ok (a, b, s1).
Proof.
  unfold PulseSequence.add_pulse, PulseSequenceFacts.variant_range.
  destruct (PulseSequence.index_range s start duration inputtype)
    as [[[a b] s1]|e] eqn:Hidx; cbn [mbind result_bind]; [|done].
  apply PulseSequenceFacts.index_range_frame in Hidx as [k ->].
  cbn [PulseSequence.numseqs PulseSequence.awg_sources PulseSequence.num_points
       PulseSequence.set_warning_counter].
  destruct (slice_range (PulseSequence.num_points s) a b) as [lo len].
  destruct numseq as [i|[first last]].
  - destruct (np_index (PulseSequence.numseqs s) i) as [v|]; [|done].
    cbn [mbind result_bind].
    destruct (np_index (7 * length (PulseSequence.awg_sources s)) channel)
      as [r|]; [|done].
    intros _. by eexists _, _, _, _, _, _.
  - destruct (np_index (7 * length (PulseSequence.awg_sources s)) channel)
      as [r|]; [|done].
    intros _.
    destruct (slice_range (PulseSequence.numseqs s) first last) as [v0 n].
    by eexists _, _, _, _, _, _.
Qed.

(** The shape invariant, with the number of variants. *)
Definition built (N : nat) (s : PulseSequence.t (R:=R)) : Prop :=
  PulseSequenceFacts.wf s /\ PulseSequence.numseqs s = N.

Lemma add_pulse_built N (s s' : PulseSequence.t (R:=R)) numseq start duration
    channel inputtype amplitude freq :
  built N s ->
  PulseSequence.add_pulse s numseq start duration channel inputtype amplitude
    freq = Ok s' ->
  built N s'.
Proof.
  intros [Hwf HN] Hadd.
  destruct (add_pulse_Ok_inv _ _ _ _ _ _ _ _ _ Hadd)
    as (v0 & n & r & a & b & s1 & Hvar & Hch & Hidx).
  destruct (PulseSequenceFacts.add_pulse_spec s numseq start duration channel
              inputtype amplitude freq v0 n r a b s1 Hwf Hvar Hch Hidx)
    as (s'' & Hs'' & Hwf' & _ & Hq & _).
  assert (s'' = s') as -> by congruence.
  split; [done|congruence].
Qed.

Lemma add_channel_built N i (acc acc' : PulseSequence.t * list string)
    mapped_channel pulses :
  built N acc.1 ->
  PulseSequenceYaml.add_channel i acc mapped_channel pulses = Ok acc' ->
  built N acc'.1.
Proof.
  destruct acc as [seq flags]. unfold PulseSequenceYaml.add_channel.
  intros Hb. destruct mapped_channel as [ch|flag].
  - intros Hloop. inv_bind Hloop. injection Hloop as <-. cbn [fst] in *.
    eapply (for_each_invariant (built N)); [|exact Hb|exact Ha].
    intros s p s' Hs Hadd. cbn beta in Hadd.
    eapply add_pulse_built; [exact Hs|exact Hadd].
  - by intros [= <-].
Qed.

Lemma add_block_built N self doc
    (acc acc' : PulseSequence.t * list (string * list string)) entry :
  built N acc.1 ->
  PulseSequenceYaml.add_block self doc acc entry = Ok acc' ->
  built N acc'.1.
Proof.
  destruct acc as [seq flag_channels], entry as [i block].
  unfold PulseSequenceYaml.add_block. intros Hb Hblock.
  inv_bind Hblock. inv_bind Hblock. destruct a0 as [seq' flags].
  injection Hblock as <-. cbn [fst] in *.
  change seq' with (seq', flags).1.
  eapply (for_each_invariant (fun acc => built N acc.1) _ _ (seq, []));
    [|exact Hb|exact Ha0].
  intros acc [channel pulses] acc' Hacc Hstep. cbn beta iota in Hstep.
  inv_bind Hstep. eapply add_channel_built; [exact Hacc|exact Hstep].
Qed.

(** An archive is written when the document differs from the sidecar; it
    holds one variant per distinct block name, and the program is stored
    beside it, not expanded. *)
Lemma translate_spec (self : PulseSequenceYaml.t (R:=R))
    (fs fs1 fs' : PulseSequenceYaml.files PulseSequenceYaml.document
                    PulseSequence.artifact)
    (doc : PulseSequenceYaml.document) :
  PulseSequenceYaml.yaml_file fs = Some doc ->
  PulseSequenceYaml._sequence_didnt_change fs = Ok (false, fs1) ->
  PulseSequenceYaml.translate_yaml_to_numeric_instructions self fs = Ok fs' ->
  exists archive,
    PulseSequenceYaml.npz_file fs' = Some archive /\
    length (PulseSequence.final archive)
    = length (remove_dups (sequencing_order doc)) /\
    PulseSequence.saved_sequencer archive = Some (sequencing_repeats doc) /\
    PulseSequence.saved_sequencernames archive = Some (sequencing_order doc).
Proof.
  intros Hyaml Haux. unfold PulseSequenceYaml.translate_yaml_to_numeric_instructions.
  rewrite Haux, (sequence_checked fs fs1 doc false Hyaml Haux).
  cbn [mbind result_bind PulseSequenceYaml.yaml_file PulseSequenceYaml.write_aux].
  rewrite Hyaml. cbn [mbind result_bind].
  intros Hrun. inv_bind Hrun. rename a into duration.
  inv_bind Hrun. rename a into seq0.
  inv_bind Hrun. destruct a as [seq flag_channels].
  inv_bind Hrun. rename a into archive. injection Hrun as <-.
  apply PulseSequenceFacts.__init___spec in Ha0 as (Hwf0 & HN0 & _).
  assert (built (length (sorted String.ltb (remove_dups (sequencing_order doc))))
            seq) as [Hwf HN].
  { change seq with (seq, flag_channels).1.
    eapply (for_each_invariant (fun acc => built _ acc.1)); [| |exact Ha1].
    - intros acc entry acc' Hacc Hstep.
      eapply add_block_built; [exact Hacc|exact Hstep].
    - by split. }
  rewrite (PulseSequenceFacts.make_spec _ flag_channels) in Ha2; [|done|done].
  injection Ha2 as <-. eexists. split; [reflexivity|].
  cbn [PulseSequence.final PulseSequence.saved_sequencer
       PulseSequence.saved_sequencernames PulseSequence.sequencer
       PulseSequence.sequencernames PulseSequence.pulses
       PulseSequence.set_sequencernames PulseSequence.set_sequencer
       PulseSequence.set_flag_channels].
  split; [|done].
  rewrite length_fmap. destruct Hwf as (_ & Hlen & _).
  rewrite Hlen, HN. apply length_sorted.
Qed.
End translate_facts.

(** ** A block with one pulse, run by hand *)

Section single_pulse.
Context (mapping : gmap string N) (doc : yaml_document Z (pulse Z))
        (block channel name : string) (k : N).
Hypothesis Hblock :
  blocks doc !! block
  = Some [(channel, [(name, {| start := 2; duration := 3 |})])].
Hypothesis Htotal : yaml_total_duration doc = Duration 10.
Hypothesis Hmap : mapping !! channel = Some k.

Let s0 : t Z := __init__ mapping doc.
Let s1 : t Z :=
  set_events ["up"; "down"]%string
    (set_event_channel [channel; channel] (set_event_times [2; 5] s0)).
Let s2 : t Z := set_event_durations [3; 5] s1.
Let s3 : t Z := set_channel_bits [2 ^ Z.of_N k; 0] s2.
Let s4 : t Z :=
  set_event_durations [2; 3; 5] (set_channel_bits [0; 2 ^ Z.of_N k; 0] s3).

Lemma single_pulse_parsed :
  _parse_block s0 [(channel, [(name, {| start := 2; duration := 3 |})])] = s1.
Proof. reflexivity. Qed.

Lemma single_pulse_sorted : _sort_pulses s1 = Ok s1.
Proof. reflexivity. Qed.

Lemma single_pulse_durations : _get_event_durations s1 = Ok s2.
Proof.
  unfold _get_event_durations. int_numbers.
  change (total_duration (set_event_durations _ s1)) with (yaml_total_duration doc).
  rewrite Htotal. reflexivity.
Qed.

Lemma single_pulse_bits : for_each channel_bits_step [0; 1]%nat s2 = Ok s3.
Proof.
  unfold s3, s2, s1, s0. cbn [for_each].
  unfold channel_bits_step, getitem. simpl.
  rewrite Hmap. simpl. rewrite Hmap. simpl.
  unfold set_channel_bits. simpl.
  replace (0 + 2 ^ Z.of_N k * 1) with (2 ^ Z.of_N k) by lia.
  replace (2 ^ Z.of_N k + 2 ^ Z.of_N k * -1) with 0 by lia.
  reflexivity.
Qed.

Lemma single_pulse_channel_bits : _compute_channel_bits s2 = Ok s4.
Proof.
  unfold _compute_channel_bits. int_numbers.
  change (length (event_durations s2)) with 2%nat. cbn [seq].
  rewrite single_pulse_bits. reflexivity.
Qed.

Lemma single_pulse_block :
  parse_one s0 block
  = Ok (_reset_attributes
          (set_ps (<[block := {| cb_channel_bits := [0; 2 ^ Z.of_N k; 0];
                                 cb_durations := [2; 3; 5] |}]> ∅) s4)).
Proof.
  unfold parse_one, getitem.
  change (blocks (yaml_sequence s0)) with (blocks doc).
  rewrite Hblock. cbn [mbind result_bind].
  rewrite single_pulse_parsed, single_pulse_sorted. cbn [mbind result_bind].
  rewrite single_pulse_durations. cbn [mbind result_bind].
  rewrite single_pulse_channel_bits. reflexivity.
Qed.
End single_pulse.

(** ** The objects of the examples *)

Lemma example_sequence_built :
  PulseSequence.__init__ 1 4 [1] 1 = Ok example_sequence.
Proof. reflexivity. Qed.

Lemma example_sequence_wf : PulseSequenceFacts.wf example_sequence.
Proof. apply (PulseSequenceFacts.__init___spec 1 4 [1] 1). reflexivity. Qed.

Lemma alternating_markers_built : alternating_markers = Ok alternating_sequence.
Proof. vm_compute. reflexivity. Qed.

Lemma alternating_sequence_wf : PulseSequenceFacts.wf alternating_sequence.
Proof.
  split; [reflexivity|]. split; [reflexivity|].
  repeat constructor.
Qed.

(** * The digital compiler as a function of the block

    The methods of [PulseBlasterSequence] mutate six lists; run on a freshly
    reset object they compute a function of the block alone, which is worked
    out here, with the inputs on which a run raises. *)

(** ** The events that parsing appends *)

Definition pulse_events (channel : string) (p : pulse Z)
  : list (Z * string * string) :=
  [(start p, channel, "up"%string); (start p + duration p, channel, "down"%string)].

Definition channel_events (channel : string) (channel_pulses : list (string * pulse Z))
  : list (Z * string * string) :=
  values channel_pulses ≫= pulse_events channel.

Definition block_events (block : ps_block Z) : list (Z * string * string) :=
  block ≫= (fun '(channel, channel_pulses) => channel_events channel channel_pulses).

(** The three timeline lists have one length. *)
Definition aligned (s : t Z) : Prop :=
  length (event_channel s) = length (event_times s) /\
  length (events s) = length (event_times s).

(** The state between two blocks: [_reset_attributes] has emptied the lists. *)
Definition clean (s : t Z) : Prop :=
  event_times s = [] /\ event_channel s = [] /\ events s = [] /\
  event_durations s = [] /\ channel_bits s = [].

Lemma _append_event_zip3 s channel p :
  aligned s ->
  aligned (_append_event s channel p) /\
  zip3 (_append_event s channel p) = zip3 s ++ pulse_events channel p.
Proof.
  intros [Hc He]. unfold _append_event, aligned, zip3, pulse_events. int_numbers.
  cbn [event_times event_channel events set_event_times set_event_channel
       set_events].
  split; [rewrite !length_app; simpl; lia|].
  rewrite <- !app_assoc. cbn [app].
  rewrite (zip_with_app pair (event_times s)) by done.
  rewrite zip_with_app; [done|].
  rewrite length_zip_with. lia.
Qed.

Lemma _parse_channel_zip3 s channel channel_pulses :
  aligned s ->
  aligned (_parse_channel s channel channel_pulses) /\
  zip3 (_parse_channel s channel channel_pulses)
  = zip3 s ++ channel_events channel channel_pulses.
Proof.
  unfold _parse_channel, channel_events.
  generalize (values channel_pulses) as l. intros l. revert s.
  induction l as [|p l IH]; intros s Hs; cbn [foldl].
  - split; [done|]. by rewrite app_nil_r.
  - destruct (_append_event_zip3 s channel p Hs) as [Ha Hz].
    destruct (IH _ Ha) as [Ha' Hz']. split; [done|].
    rewrite Hz', Hz, bind_cons. by rewrite <- app_assoc.
Qed.

Lemma _parse_block_zip3 s block :
  aligned s ->
  aligned (_parse_block s block) /\
  zip3 (_parse_block s block) = zip3 s ++ block_events block.
Proof.
  unfold _parse_block, block_events. revert s.
  induction block as [|[channel channel_pulses] block IH]; intros s Hs;
    cbn [foldl].
  - split; [done|]. by rewrite app_nil_r.
  - destruct (_parse_channel_zip3 s channel channel_pulses Hs) as [Ha Hz].
    destruct (IH _ Ha) as [Ha' Hz']. split; [done|].
    rewrite Hz', Hz, bind_cons. by rewrite <- app_assoc.
Qed.

Lemma clean_zip3 s block :
  clean s -> zip3 (_parse_block s block) = block_events block.
Proof.
  intros (Ht & Hc & He & _).
  destruct (_parse_block_zip3 s block) as [_ ->].
  - unfold aligned. by rewrite Ht, Hc, He.
  - unfold zip3. by rewrite Ht.
Qed.

(** An event is tagged "up" or "down", and a channel that has one event has
    an even number of them. *)
Definition well_tagged (x : Z * string * string) : Prop :=
  x.2 = "up"%string \/ x.2 = "down"%string.

Lemma block_events_tagged block : Forall well_tagged (block_events block).
Proof.
  apply Forall_forall. intros x Hx. unfold block_events in Hx.
  apply list_elem_of_bind in Hx as ([channel channel_pulses] & Hx & _).
  unfold channel_events in Hx.
  apply list_elem_of_bind in Hx as (p & Hx & _).
  unfold pulse_events in Hx.
  apply elem_of_cons in Hx as [->|Hx]; [by left|].
  apply list_elem_of_singleton in Hx as ->. by right.
Qed.

Definition on_channel (channel : string) (x : Z * string * string) : Prop :=
  x.1.2 = channel.

#[export] Instance on_channel_dec channel x : Decision (on_channel channel x).
Proof. unfold on_channel. apply _. Defined.

Lemma block_events_even channel block :
  exists k, length (filter (on_channel channel) (block_events block)) = (2 * k)%nat.
Proof.
  unfold block_events.
  induction block as [|[c channel_pulses] block [k IH]]; [by exists 0%nat|].
  rewrite bind_cons, filter_app, length_app, IH.
  assert (exists k', length (filter (on_channel channel)
                               (channel_events c channel_pulses)) = (2 * k')%nat)
    as [k' ->].
  { unfold channel_events. generalize (values channel_pulses) as l.
    induction l as [|p l [k' IHl]]; [by exists 0%nat|].
    rewrite bind_cons, filter_app, length_app, IHl.
    unfold pulse_events. rewrite !filter_cons, filter_nil.
    destruct (decide (c = channel)) as [->|Hne].
    - rewrite !decide_True by done. exists (S k'). simpl. lia.
    - rewrite !decide_False by (unfold on_channel; simpl; congruence).
      exists k'. simpl. lia. }
  exists (k' + k)%nat. lia.
Qed.

Lemma block_events_twice x block :
  x ∈ block_events block ->
  (2 <= length (filter (on_channel x.1.2) (block_events block)))%nat.
Proof.
  intros Hx.
  destruct (block_events_even x.1.2 block) as [k Hk].
  assert (x ∈ filter (on_channel x.1.2) (block_events block)) as Hin.
  { apply list_elem_of_filter. split; [done|done]. }
  destruct (filter (on_channel x.1.2) (block_events block)) as [|y l];
    [by apply elem_of_nil in Hin|].
  simpl in *. lia.
Qed.

(** A block holds a pulse when one of its channels does. *)
Lemma block_events_nil block :
  block_events block = [] <->
  forall channel channel_pulses,
    (channel, channel_pulses) ∈ block -> channel_pulses = [].
Proof.
  unfold block_events. induction block as [|[c l] block IH].
  - split; [|done]. by intros _ channel channel_pulses ?%elem_of_nil.
  - rewrite bind_cons. split.
    + intros [Hc Hrest]%app_eq_nil channel channel_pulses
        [[= -> ->]|Hin]%elem_of_cons.
      * destruct l as [|[name p] l]; [done|]. done.
      * eapply IH; eauto.
    + intros Hall. rewrite (Hall c l) by (apply elem_of_cons; by left).
      cbn [channel_events values fmap list_fmap mbind list_bind app].
      apply IH. intros channel channel_pulses Hin.
      apply (Hall channel channel_pulses). apply elem_of_cons. by right.
Qed.

Lemma elem_of_block_events x block :
  x ∈ block_events block <->
  exists channel_pulses p,
    (x.1.2, channel_pulses) ∈ block /\ p ∈ values channel_pulses /\
    x ∈ pulse_events x.1.2 p.
Proof.
  unfold block_events. rewrite list_elem_of_bind. split.
  - intros ([channel channel_pulses] & Hx & Hin). unfold channel_events in Hx.
    apply list_elem_of_bind in Hx as (p & Hx & Hp).
    assert (x.1.2 = channel) as ->.
    { unfold pulse_events in Hx.
      apply elem_of_cons in Hx as [->|Hx]; [done|].
      by apply list_elem_of_singleton in Hx as ->. }
    eauto.
  - intros (channel_pulses & p & Hin & Hp & Hx).
    exists (x.1.2, channel_pulses). split; [|done].
    unfold channel_events. apply list_elem_of_bind. eauto.
Qed.

(** ** The bit-field loop *)

(** What an event adds to the running bit-field. *)
Definition event_weight (mapping : gmap string N) (x : Z * string * string) : Z :=
  2 ^ Z.of_N (default 0%N (mapping !! x.1.2))
  * (if (x.2 =? "up")%string then 1 else -1).

Fixpoint running (acc : Z) (ws : list Z) : list Z :=
  match ws with
  | [] => []
  | w :: ws => (acc + w) :: running (acc + w) ws
  end.

Definition mapped (mapping : gmap string N) (x : Z * string * string) : Prop :=
  is_Some (mapping !! x.1.2).

#[export] Instance mapped_dec mapping x : Decision (mapped mapping x).
Proof. unfold mapped. apply _. Defined.

(** The timeline lists hold the tuples [l], unzipped. *)
Definition holds (l : list (Z * string * string)) (s : t Z) : Prop :=
  event_times s = l.*1.*1 /\ event_channel s = l.*1.*2 /\ events s = l.*2.

Lemma length_running acc ws : length (running acc ws) = length ws.
Proof. revert acc. induction ws as [|w ws IH]; intros acc; simpl; [done|]. by rewrite IH. Qed.

Lemma running_snoc acc ws w :
  running acc (ws ++ [w]) = running acc ws ++ [acc + sum_Z ws + w].
Proof.
  revert acc. induction ws as [|v ws IH]; intros acc; simpl.
  - f_equal. lia.
  - rewrite IH. do 3 f_equal. unfold sum_Z. lia.
Qed.

Lemma last_running acc ws :
  ws <> [] -> last (running acc ws) = Some (acc + sum_Z ws).
Proof.
  destruct ws as [|w ws _] using rev_ind; [done|]. intros _.
  rewrite running_snoc, last_snoc, sum_Z_app. simpl. f_equal. lia.
Qed.

Lemma channel_bits_step_holds l s i x :
  holds l s -> l !! i = Some x -> well_tagged x ->
  channel_bits_step s i
  = if decide (mapped (channel_mapping s) x)
    then Ok (set_channel_bits
               (channel_bits s
                ++ [default 0 (last (channel_bits s))
                    + event_weight (channel_mapping s) x]) s)
    else Raise KeyError.
Proof.
  intros (_ & Hc & He) Hx Htag. unfold channel_bits_step, list_getitem.
  rewrite Hc, He, !list_lookup_fmap, Hx.
  cbn [fmap option_fmap option_map mbind result_bind].
  unfold getitem, event_weight.
  destruct (decide (mapped (channel_mapping s) x)) as [[k Hk]|Hno].
  - rewrite Hk. cbn [mbind result_bind default].
    destruct Htag as [-> | ->]; reflexivity.
  - assert (channel_mapping s !! x.1.2 = None) as ->; [|done].
    unfold mapped in Hno.
    destruct (channel_mapping s !! x.1.2); [exfalso; eauto|done].
Qed.

Lemma channel_bits_loop_holds l n a s :
  holds l s -> Forall well_tagged l -> (a + n <= length l)%nat ->
  for_each channel_bits_step (seq a n) s
  = if decide (Forall (mapped (channel_mapping s)) (take n (drop a l)))
    then Ok (set_channel_bits
               (channel_bits s
                ++ running (default 0 (last (channel_bits s)))
                     (event_weight (channel_mapping s) <$> take n (drop a l))) s)
    else Raise KeyError.
Proof.
  intros Hh Htag. revert a s Hh. induction n as [|n IH]; intros a s Hh Hlen.
  - cbn [seq for_each take fmap list_fmap running].
    rewrite decide_True by constructor. rewrite app_nil_r. by destruct s.
  - destruct (lookup_lt_is_Some_2 l a) as [x Hx]; [lia|].
    rewrite (drop_S _ _ _ Hx). cbn [seq take for_each fmap list_fmap running].
    rewrite (channel_bits_step_holds l s a x Hh Hx)
      by (rewrite Forall_lookup in Htag; by eapply Htag).
    destruct (decide (mapped (channel_mapping s) x)) as [Hm|Hm].
    + cbn [mbind result_bind]. rewrite IH; [|done|lia].
      cbn [channel_mapping channel_bits set_channel_bits].
      rewrite last_snoc. cbn [default].
      destruct (decide (Forall (mapped (channel_mapping s))
                          (take n (drop (S a) l)))) as [Hall|Hall].
      * rewrite decide_True by (by constructor).
        rewrite <- app_assoc. reflexivity.
      * rewrite decide_False; [done|]. by intros [_ ?]%Forall_cons.
    + rewrite decide_False; [done|]. by intros [? _]%Forall_cons.
Qed.

(** ** The durations *)

Lemma differences_cons x y times :
  differences (x :: y :: times) = (y - x) :: differences (y :: times).
Proof. reflexivity. Qed.

Lemma length_differences times : length (differences times) = pred (length times).
Proof.
  destruct times as [|x times]; [done|]. revert x.
  induction times as [|y times IH]; intros x; [done|].
  rewrite differences_cons. cbn [length]. by rewrite IH.
Qed.

Lemma length_trailing total_duration times :
  (length (trailing total_duration times) <= 1)%nat.
Proof.
  unfold trailing. destruct total_duration as [|T]; [simpl; lia|].
  destruct (last times) as [tl|]; [|simpl; lia].
  destruct (tl =? T); simpl; lia.
Qed.

Lemma _get_event_durations_Ok s :
  event_times s <> [] ->
  _get_event_durations s
  = Ok (set_event_durations
          (differences (event_times s)
           ++ trailing (total_duration s) (event_times s)) s).
Proof.
  intros Hne. unfold _get_event_durations, trailing, differences. int_numbers.
  cbn [event_times total_duration event_durations set_event_durations].
  destruct (total_duration s) as [|T]; [by rewrite app_nil_r|].
  destruct (last (event_times s)) as [tl|] eqn:El; [|by apply last_None in El].
  destruct (tl =? T); cbn [negb]; [|done]. by rewrite app_nil_r.
Qed.

(** ** One block on a reset object *)

(** The entry that a run over [block] stores: the events are sorted, the
    durations are the differences of their times and the trailing segment,
    the bit-fields the running sums of the weights of the events that have a
    duration, a leading segment goes before both, and the segments of
    duration 0 are dropped. *)
Definition compile_block (mapping : gmap string N) (total_duration : total Z)
    (block : ps_block Z) : compiled_block Z :=
  let l := sorted tuple_lt (block_events block) in
  let times := l.*1.*1 in
  let durations := differences times ++ trailing total_duration times in
  let bits := running 0 (event_weight mapping <$> take (length durations) l) in
  let raw := leading times ++ durations in
  {| cb_channel_bits := keep raw (leading_bits times ++ bits);
     cb_durations := keep raw raw |}.

(** The loop reads the channel of every event but, with no trailing segment,
    the last one; a channel has two events at least, so that it reads every
    channel. *)
Lemma mapped_all_but_last mapping block n :
  let l := sorted tuple_lt (block_events block) in
  (pred (length l) <= n)%nat ->
  Forall (mapped mapping) (take n l) <-> Forall (mapped mapping) (block_events block).
Proof.
  intros l Hn.
  assert (l ≡ₚ block_events block) as Hperm by apply sorted_Permutation.
  split; [|intros Hall; apply Forall_take; by rewrite Hperm].
  intros Hall. rewrite <- Hperm. apply Forall_forall. intros x Hx.
  destruct (decide (mapped mapping x)) as [|Hno]; [done|]. exfalso.
  assert (2 <= length (filter (on_channel x.1.2) l))%nat as Htwice.
  { rewrite Hperm. apply block_events_twice. by rewrite <- Hperm. }
  rewrite <- (take_drop n l), filter_app, length_app in Htwice.
  assert (length (filter (on_channel x.1.2) (take n l)) = 0%nat) as Hnone.
  { destruct (filter (on_channel x.1.2) (take n l)) as [|y k] eqn:Ef; [done|].
    exfalso.
    assert (y ∈ filter (on_channel x.1.2) (take n l)) as Hy by (rewrite Ef; left).
    apply list_elem_of_filter in Hy as [Hc Hy].
    rewrite Forall_forall in Hall. apply Hno. unfold mapped. rewrite <- Hc.
    by apply Hall. }
  pose proof (length_filter (on_channel x.1.2) (drop n l)) as Hd.
  rewrite length_drop in Hd. lia.
Qed.

Lemma _sort_pulses_Ok s :
  zip3 s <> [] ->
  _sort_pulses s
  = Ok (set_events (sorted tuple_lt (zip3 s)).*2
          (set_event_channel ((sorted tuple_lt (zip3 s)).*1).*2
             (set_event_times ((sorted tuple_lt (zip3 s)).*1).*1 s))).
Proof.
  intros Hne. unfold _sort_pulses.
  destruct (sorted tuple_lt (zip3 s)) as [|x l] eqn:E; [|done].
  exfalso. apply Hne. apply nil_length_inv.
  by rewrite <- (length_sorted tuple_lt), E.
Qed.

Lemma _sort_pulses_empty s : zip3 s = [] -> _sort_pulses s = Raise ValueError.
Proof. intros Hnil. unfold _sort_pulses. by rewrite Hnil. Qed.

Lemma parse_one_clean s block b :
  clean s -> blocks (yaml_sequence s) !! block = Some b ->
  block_events b <> [] ->
  (Forall (mapped (channel_mapping s)) (block_events b) ->
   exists s',
     parse_one s block = Ok s' /\ clean s' /\
     ps s' = <[block := compile_block (channel_mapping s) (total_duration s) b]>
               (ps s) /\
     channel_mapping s' = channel_mapping s /\
     yaml_sequence s' = yaml_sequence s /\
     total_duration s' = total_duration s /\
     warned s' = warned s) /\
  (~ Forall (mapped (channel_mapping s)) (block_events b) ->
   parse_one s block = Raise KeyError).
Proof.
  intros Hclean Hb Hne.
  pose proof Hclean as (_ & _ & _ & _ & Hbits0).
  unfold parse_one, getitem. unfold ps_block in Hb. rewrite Hb.
  cbn [mbind result_bind].
  pose proof (clean_zip3 s b Hclean) as Hzip.
  pose proof (_parse_block_rest s b) as Hrest.
  revert Hzip Hrest. generalize (_parse_block s b) as sp. intros sp Hzip Hrest.
  injection Hrest as Hd1 Hb1 Hw1 Hs1 Hm1 Hp1 Hy1 Ht1.
  rewrite _sort_pulses_Ok by (by rewrite Hzip). rewrite Hzip.
  cbn [mbind result_bind].
  set (l := sorted tuple_lt (block_events b)).
  assert (l ≡ₚ block_events b) as Hperm by apply sorted_Permutation.
  assert (l <> []) as Hl.
  { intros Hnil. apply Hne. apply Permutation_nil_r. by rewrite <- Hperm, Hnil. }
  assert (Forall well_tagged l) as Htag.
  { rewrite Hperm. apply block_events_tagged. }
  rewrite _get_event_durations_Ok
    by (cbn [event_times set_events set_event_channel set_event_times];
        by destruct l).
  cbn [event_times total_duration set_events set_event_channel set_event_times
       mbind result_bind].
  rewrite Ht1.
  set (times := (l.*1).*1).
  set (d := differences times ++ trailing (total_duration s) times).
  assert (length times = length l) as Hlt by (unfold times; by rewrite !length_fmap).
  assert (pred (length l) <= length d /\ length d <= length l)%nat as [Hd_lo Hd_hi].
  { unfold d. rewrite length_app, length_differences, Hlt.
    pose proof (length_trailing (total_duration s) times).
    destruct l; [done|]. simpl. lia. }
  unfold _compute_channel_bits. int_numbers.
  cbn [event_durations set_event_durations].
  rewrite (channel_bits_loop_holds l (length d) 0); [|done|done|lia].
  change (drop 0 l) with l.
  cbn [channel_mapping channel_bits set_event_durations set_events
       set_event_channel set_event_times].
  rewrite Hm1, Hb1, Hbits0. cbn [last default app].
  split.
  - intros Hall.
    rewrite decide_True by (by apply mapped_all_but_last).
    cbn [mbind result_bind event_times set_channel_bits set_event_durations
         set_events set_event_channel set_event_times].
    set (bits := running 0 (event_weight (channel_mapping s) <$> take (length d) l)).
    assert (length bits = length d) as Hlb.
    { unfold bits. rewrite length_running, length_fmap, length_take. lia. }
    destruct times as [|t0 times'] eqn:Etimes; [by destruct l|].
    unfold list_getitem. cbn [lookup list_lookup mbind result_bind].
    match goal with |- context [_pop_uncessary_entries ?x] => set (xs := x) end.
    destruct (pop_uncessary_entries_spec xs) as (Hpd & Hpb & Hpw & _ & Hpe).
    { unfold xs. destruct (t0 =? 0);
        cbn [negb channel_bits event_durations set_channel_bits
             set_event_durations set_events set_event_channel set_event_times
             length]; lia. }
    injection Hpe as _ Hpm Hpp Hpy Hptot.
    eexists. split; [reflexivity|].
    unfold _reset_attributes, clean.
    cbn [event_times event_channel events event_durations channel_bits ps
         channel_mapping yaml_sequence total_duration warned
         set_ps set_segment_durations set_channel_bits set_events
         set_event_channel set_event_durations set_event_times].
    split; [done|].
    rewrite Hpp, Hpm, Hpy, Hptot, Hpw, Hpd, Hpb.
    unfold compile_block. fold l. fold times. rewrite Etimes. fold d. fold bits.
    unfold leading_bits, leading, xs.
    destruct (t0 =? 0);
      cbn [negb event_durations channel_bits ps channel_mapping yaml_sequence
           total_duration warned set_channel_bits set_event_durations
           set_events set_event_channel set_event_times app];
      rewrite ?Hp1, ?Hm1, ?Hy1, ?Ht1, ?Hw1; done.
  - intros Hall.
    rewrite decide_False; [done|].
    intros Hall'. apply Hall. by apply mapped_all_but_last in Hall'.
Qed.

Lemma parse_one_missing s block :
  blocks (yaml_sequence s) !! block = None -> parse_one s block = Raise KeyError.
Proof. intros Hb. unfold parse_one, getitem. by rewrite Hb. Qed.

Lemma parse_one_empty s block b :
  clean s -> blocks (yaml_sequence s) !! block = Some b ->
  block_events b = [] -> parse_one s block = Raise ValueError.
Proof.
  intros Hclean Hb Hnil. unfold parse_one, getitem.
  unfold ps_block in Hb. rewrite Hb. cbn [mbind result_bind].
  rewrite _sort_pulses_empty; [done|]. by rewrite clean_zip3.
Qed.

(** The blocks on which a run returns. *)
Definition compilable (mapping : gmap string N) (doc : yaml_document Z (pulse Z))
    (block : string) : Prop :=
  exists b, blocks doc !! block = Some b /\ block_events b <> [] /\
            Forall (mapped mapping) (block_events b).

Lemma parse_one_Ok_inv s block s' :
  clean s -> parse_one s block = Ok s' ->
  exists b,
    blocks (yaml_sequence s) !! block = Some b /\
    block_events b <> [] /\
    Forall (mapped (channel_mapping s)) (block_events b) /\
    clean s' /\
    ps s' = <[block := compile_block (channel_mapping s) (total_duration s) b]>
              (ps s) /\
    channel_mapping s' = channel_mapping s /\
    yaml_sequence s' = yaml_sequence s /\
    total_duration s' = total_duration s /\
    warned s' = warned s.
Proof.
  intros Hclean Hrun.
  destruct (blocks (yaml_sequence s) !! block) as [b|] eqn:Hb;
    [|by rewrite parse_one_missing in Hrun].
  destruct (decide (block_events b = [])) as [Hnil|Hne];
    [by rewrite (parse_one_empty s block b) in Hrun|].
  destruct (parse_one_clean s block b Hclean Hb Hne) as [Hyes Hno].
  destruct (decide (Forall (mapped (channel_mapping s)) (block_events b)))
    as [Hall|Hall]; [|by rewrite Hno in Hrun].
  destruct (Hyes Hall) as (s'' & Hrun' & Hrest).
  assert (s'' = s') as -> by congruence.
  exists b. tauto.
Qed.


Lemma parse_loop_clean order s s' :
  clean s -> for_each parse_one order s = Ok s' ->
  clean s' /\
  Forall (compilable (channel_mapping s) (yaml_sequence s)) order /\
  channel_mapping s' = channel_mapping s /\
  yaml_sequence s' = yaml_sequence s /\
  total_duration s' = total_duration s /\
  warned s' = warned s /\
  forall block,
    ps s' !! block
    = if decide (block ∈ order)
      then compile_block (channel_mapping s) (total_duration s)
           <$> blocks (yaml_sequence s) !! block
      else ps s !! block.
Proof.
  revert s. induction order as [|x order IH]; intros s Hclean; cbn [for_each].
  - intros [= <-]. repeat split; try done; apply Hclean.
  - intros Hrun. inv_bind Hrun. rename a into s1.
    apply parse_one_Ok_inv in Ha
      as (b & Hb & Hne & Hall & Hclean1 & Hps & Hm & Hy & Ht & Hw); [|done].
    destruct (IH s1 Hclean1 Hrun) as (Hclean' & Hrest & Hm' & Hy' & Ht' & Hw' & Hps').
    rewrite Hm, Hy, Ht in *.
    split; [done|]. split.
    { constructor; [|done]. exists b. done. }
    split; [congruence|]. split; [congruence|]. split; [congruence|].
    split; [congruence|].
    intros block. rewrite Hps'.
    destruct (decide (block ∈ order)) as [Hin|Hout].
    + rewrite decide_True; [done|]. apply elem_of_cons. by right.
    + rewrite Hps, lookup_insert.
      destruct (decide (x = block)) as [->|Hx].
      * rewrite decide_True by (apply elem_of_cons; by left).
        unfold ps_block in *. by rewrite Hb.
      * rewrite decide_False; [done|].
        intros [->|?]%elem_of_cons; done.
Qed.

Lemma parse_loop_Ok order s :
  clean s ->
  Forall (compilable (channel_mapping s) (yaml_sequence s)) order ->
  exists s', for_each parse_one order s = Ok s'.
Proof.
  revert s. induction order as [|x order IH]; intros s Hclean Hall;
    cbn [for_each]; [eauto|].
  apply Forall_cons in Hall as [(b & Hb & Hne & Hmapped) Hall].
  destruct (parse_one_clean s x b Hclean Hb Hne) as [Hyes _].
  destruct (Hyes Hmapped) as (s1 & -> & Hclean1 & _ & Hm & Hy & _).
  cbn [mbind result_bind]. apply IH; [done|]. by rewrite Hm, Hy.
Qed.

Lemma init_clean mapping doc : clean (__init__ mapping doc).
Proof. by repeat split. Qed.

(** The blocks and channels of a document, in the words of the YAML file. *)
Lemma block_events_not_nil b :
  block_events b <> [] <->
  exists channel channel_pulses,
    (channel, channel_pulses) ∈ b /\ channel_pulses <> [].
Proof.
  split.
  - intros Hne. destruct (block_events b) as [|x l] eqn:E; [done|].
    assert (x ∈ block_events b) as Hx by (rewrite E; left).
    apply elem_of_block_events in Hx as (channel_pulses & p & Hin & Hp & _).
    exists x.1.2, channel_pulses. split; [done|].
    intros ->. by apply elem_of_nil in Hp.
  - intros (channel & channel_pulses & Hin & Hne) Hnil.
    apply Hne. by eapply block_events_nil.
Qed.

Lemma block_events_mapped mapping b :
  Forall (mapped mapping) (block_events b) <->
  forall channel channel_pulses,
    (channel, channel_pulses) ∈ b -> channel_pulses <> [] ->
    is_Some (mapping !! channel).
Proof.
  rewrite Forall_forall. split.
  - intros Hall channel channel_pulses Hin Hne.
    destruct channel_pulses as [|[name p] channel_pulses]; [done|].
    apply (Hall (start p, channel, "up"%string)).
    apply elem_of_block_events. cbn [fst snd].
    exists ((name, p) :: channel_pulses), p. split; [done|].
    split; [by left|]. by left.
  - intros Hall x Hx.
    apply elem_of_block_events in Hx as (channel_pulses & p & Hin & Hp & _).
    apply (Hall _ channel_pulses Hin). intros ->. by apply elem_of_nil in Hp.
Qed.

(** ** The compiled entry of a block *)

(** The start and the end of every pulse of a block. *)
Definition pulse_times (b : ps_block Z) : list Z := ((block_events b).*1).*1.

Lemma sum_Z_Permutation (l k : list Z) : l ≡ₚ k -> sum_Z l = sum_Z k.
Proof. unfold sum_Z. induction 1; simpl; lia. Qed.

(** Every pulse rises and falls on one channel: the weights cancel. *)
Lemma block_events_weight mapping b :
  sum_Z (event_weight mapping <$> block_events b) = 0.
Proof.
  unfold block_events. induction b as [|[channel channel_pulses] b IH]; [done|].
  rewrite bind_cons, fmap_app, sum_Z_app, IH.
  unfold channel_events. generalize (values channel_pulses) as l.
  induction l as [|p l IHl]; [done|].
  rewrite bind_cons, fmap_app, sum_Z_app.
  unfold pulse_events at 1, event_weight at 1.
  cbn [fmap list_fmap fst snd sum_Z foldr String.eqb Ascii.eqb Bool.eqb].
  lia.
Qed.

Lemma sorted_events_weight mapping b :
  sum_Z (event_weight mapping <$> sorted tuple_lt (block_events b)) = 0.
Proof.
  rewrite <- (block_events_weight mapping b).
  apply sum_Z_Permutation, fmap_Permutation, sorted_Permutation.
Qed.

Lemma sorted_times_Permutation b :
  ((sorted tuple_lt (block_events b)).*1).*1 ≡ₚ pulse_times b.
Proof. unfold pulse_times. by rewrite sorted_Permutation. Qed.

Lemma sorted_times_increasing b i j ti tj :
  (i <= j)%nat ->
  ((sorted tuple_lt (block_events b)).*1).*1 !! i = Some ti ->
  ((sorted tuple_lt (block_events b)).*1).*1 !! j = Some tj ->
  ti <= tj.
Proof.
  intros Hij Hi Hj. rewrite !list_lookup_fmap in Hi, Hj.
  destruct (sorted tuple_lt (block_events b) !! i) as [xi|] eqn:Exi; [|done].
  destruct (sorted tuple_lt (block_events b) !! j) as [xj|] eqn:Exj; [|done].
  injection Hi as <-. injection Hj as <-.
  destruct (decide (i = j)) as [->|Hne]; [by simplify_eq|].
  destruct (StronglySorted_lookup event_le (sorted tuple_lt (block_events b))
              i j xi xj (sorted_events_StronglySorted _)) as [Hle _];
    [lia|done|done|done].
Qed.

(** The first sorted time is the earliest time of the block, the last one
    the latest. *)
Lemma sorted_times_head b t0 :
  t0 ∈ pulse_times b -> (forall t, t ∈ pulse_times b -> t0 <= t) ->
  head ((sorted tuple_lt (block_events b)).*1).*1 = Some t0.
Proof.
  intros Hin Hmin. rewrite <- sorted_times_Permutation in Hin.
  apply list_elem_of_lookup in Hin as [i Hi].
  rewrite head_lookup.
  destruct (lookup_lt_is_Some_2 ((sorted tuple_lt (block_events b)).*1).*1 0)
    as [t Ht]; [apply lookup_lt_Some in Hi; lia|].
  rewrite Ht. f_equal.
  pose proof (sorted_times_increasing b 0 i t t0 ltac:(lia) Ht Hi).
  assert (t0 <= t); [|lia].
  apply Hmin. rewrite <- sorted_times_Permutation.
  by eapply list_elem_of_lookup_2.
Qed.

Lemma sorted_times_last b t_last :
  t_last ∈ pulse_times b -> (forall t, t ∈ pulse_times b -> t <= t_last) ->
  last ((sorted tuple_lt (block_events b)).*1).*1 = Some t_last.
Proof.
  intros Hin Hmax. rewrite <- sorted_times_Permutation in Hin.
  apply list_elem_of_lookup in Hin as [i Hi].
  rewrite last_lookup.
  pose proof (lookup_lt_Some _ _ _ Hi) as Hlt.
  destruct (lookup_lt_is_Some_2 ((sorted tuple_lt (block_events b)).*1).*1
              (pred (length ((sorted tuple_lt (block_events b)).*1).*1)))
    as [t Ht]; [lia|].
  rewrite Ht. f_equal.
  assert (i <= Init.Nat.pred (length ((sorted tuple_lt (block_events b)).*1).*1))%nat
    as Hle by lia.
  pose proof (sorted_times_increasing b i _ t_last t Hle Hi Ht).
  assert (t <= t_last); [|lia].
  apply Hmax. rewrite <- sorted_times_Permutation.
  by eapply list_elem_of_lookup_2.
Qed.

Lemma keep_cons_nonzero {A : Type} (x : Z) (d : list Z) (y : A) (l : list A) :
  x <> 0 -> keep (x :: d) (y :: l) = y :: keep d l.
Proof. intros Hx. unfold keep. cbn [zip zip_with]. by rewrite filter_cons_True. Qed.

Lemma keep_snoc_nonzero {A : Type} (d : list Z) (x : Z) (l : list A) (y : A) :
  length l = length d -> x <> 0 -> keep (d ++ [x]) (l ++ [y]) = keep d l ++ [y].
Proof.
  intros Hlen Hx. unfold keep.
  rewrite zip_with_app by done. rewrite filter_app, fmap_app.
  cbn [zip zip_with]. by rewrite filter_cons_True.
Qed.

Lemma compile_block_head mapping total_duration b t0 :
  head ((sorted tuple_lt (block_events b)).*1).*1 = Some t0 -> t0 <> 0 ->
  head (cb_channel_bits (compile_block mapping total_duration b)) = Some 0 /\
  head (cb_durations (compile_block mapping total_duration b)) = Some t0.
Proof.
  intros Hhead Ht0. unfold compile_block. cbn [cb_channel_bits cb_durations].
  destruct ((sorted tuple_lt (block_events b)).*1).*1 as [|t times] eqn:E; [done|].
  injection Hhead as ->. unfold leading_bits, leading.
  destruct (Z.eqb_spec t0 0) as [|_]; [done|].
  cbn [app]. by rewrite !keep_cons_nonzero.
Qed.

Lemma compile_block_last mapping T b t_last :
  last ((sorted tuple_lt (block_events b)).*1).*1 = Some t_last -> t_last <> T ->
  last (cb_channel_bits (compile_block mapping (Duration T) b)) = Some 0 /\
  last (cb_durations (compile_block mapping (Duration T) b)) = Some (T - t_last).
Proof.
  intros Hlast HT. unfold compile_block. cbn [cb_channel_bits cb_durations].
  set (l := sorted tuple_lt (block_events b)) in *.
  set (times := (l.*1).*1) in *.
  assert (length times = length l) as Hlt by (unfold times; by rewrite !length_fmap).
  assert (l <> []) as Hl.
  { intros Hnil. unfold times in Hlast. by rewrite Hnil in Hlast. }
  assert (trailing (Duration T) times = [T - t_last]) as ->.
  { unfold trailing. rewrite Hlast. by destruct (Z.eqb_spec t_last T). }
  rewrite length_app, length_differences, Hlt. cbn [length].
  replace (Init.Nat.pred (length l) + 1)%nat with (length l)
    by (destruct l; [done|simpl; lia]).
  rewrite firstn_all.
  assert (exists bits, running 0 (event_weight mapping <$> l) = bits ++ [0])
    as [bits Hbits].
  { apply last_Some. rewrite last_running by (by destruct l).
    unfold l. by rewrite sorted_events_weight. }
  rewrite Hbits.
  assert (length bits = Init.Nat.pred (length l)) as Hlb.
  { apply (f_equal length) in Hbits.
    rewrite length_running, length_fmap, length_app in Hbits. simpl in Hbits. lia. }
  assert (length (leading_bits times) = length (leading times)) as Hlead.
  { unfold leading_bits, leading. destruct times as [|t ?]; [done|].
    by destruct (t =? 0). }
  rewrite !app_assoc.
  rewrite !keep_snoc_nonzero
    by (rewrite ?length_app, ?length_differences, ?Hlt; lia).
  by rewrite !last_snoc.
Qed.

Lemma raw_durations_sum_ignore (times : list Z) (t_last : Z) :
  last times = Some t_last -> sum_Z (raw_durations Ignore times) = t_last.
Proof.
  destruct times as [|t0 times]; [done|]. intros Hlast.
  unfold raw_durations, differences, trailing, leading.
  rewrite !sum_Z_app, sum_Z_differences, Hlast.
  destruct (Z.eqb_spec t0 0); simpl; lia.
Qed.

(** What parsing leaves: reset lists and, for the blocks of the program and
    no other, the entry of the block. *)
Lemma parse_file_table mapping doc s' :
  parse_pulse_sequence_file (__init__ mapping doc) = Ok s' ->
  clean s' /\
  Forall (compilable mapping doc) (sequencing_order doc) /\
  forall block,
    ps s' !! block
    = if decide (block ∈ sequencing_order doc)
      then compile_block mapping (yaml_total_duration doc) <$> blocks doc !! block
      else None.
Proof.
  unfold parse_pulse_sequence_file. intros Hrun.
  apply parse_loop_clean in Hrun as (Hclean & Hall & _ & _ & _ & _ & Hps);
    [|apply init_clean].
  done.
Qed.

Lemma parse_file_entry mapping doc s' block cb :
  parse_pulse_sequence_file (__init__ mapping doc) = Ok s' ->
  ps s' !! block = Some cb ->
  exists b, blocks doc !! block = Some b /\
            cb = compile_block mapping (yaml_total_duration doc) b.
Proof.
  intros Hrun Hcb. apply parse_file_table in Hrun as (_ & _ & Hps).
  rewrite Hps in Hcb. case_decide; [|done].
  destruct (blocks doc !! block) as [b|]; [|done].
  injection Hcb as <-. eauto.
Qed.

(** ** The exceptions of a run *)



(** ** Durations of a block whose times lie between 0 and the total *)

Lemma differences_nonnegative (times : list Z) :
  (forall i j ti tj, (i <= j)%nat ->
     times !! i = Some ti -> times !! j = Some tj -> ti <= tj) ->
  Forall (fun d => 0 <= d) (differences times).
Proof.
  destruct times as [|x times]; [constructor|]. revert x.
  induction times as [|y times IH]; intros x Hmono; [constructor|].
  rewrite differences_cons. constructor.
  - pose proof (Hmono 0%nat 1%nat x y). cbn in *.
    assert (x <= y) by auto with lia. lia.
  - apply IH. intros i j ti tj Hij Hi Hj.
    apply (Hmono (S i) (S j)); [lia|done|done].
Qed.

Lemma compile_block_positive mapping total_duration b :
  Forall (fun t => 0 <= t) (pulse_times b) ->
  (forall T, total_duration = Duration T ->
             Forall (fun t => t <= T) (pulse_times b)) ->
  Forall (fun d => 0 < d) (cb_durations (compile_block mapping total_duration b)).
Proof.
  intros Hlo Hhi. unfold compile_block. cbn [cb_durations].
  set (times := ((sorted tuple_lt (block_events b)).*1).*1).
  assert (times ≡ₚ pulse_times b) as Hperm by apply sorted_times_Permutation.
  rewrite <- Hperm in Hlo.
  assert (Forall (fun d => 0 <= d)
            (leading times
             ++ differences times ++ trailing total_duration times)) as Hraw.
  { rewrite !Forall_app. split; [|split].
    - unfold leading. destruct times as [|t0 ?]; [constructor|].
      destruct (t0 =? 0); [constructor|].
      apply Forall_cons in Hlo as [? _]. by repeat constructor.
    - apply differences_nonnegative. apply sorted_times_increasing.
    - unfold trailing. destruct total_duration as [|T]; [constructor|].
      destruct (last times) as [t_last|] eqn:Hlast; [|constructor].
      destruct (t_last =? T); [constructor|].
      specialize (Hhi T eq_refl). rewrite <- Hperm in Hhi.
      rewrite Forall_forall in Hhi.
      pose proof (Hhi t_last (last_Some_elem_of _ _ Hlast)).
      repeat constructor. lia. }
  rewrite keep_self_filter. apply Forall_forall.
  intros d [Hd Hin]%list_elem_of_filter.
  rewrite Forall_forall in Hraw. specialize (Hraw d Hin). lia.
Qed.

(** ** The bit-field of a segment *)

(** What the pulses that are high at time [τ] add up to. *)
Definition active_weight (mapping : gmap string N) (block : ps_block Z) (τ : Z)
  : Z :=
  sum_Z (block ≫= fun '(channel, channel_pulses) =>
           (fun p => if decide (start p <= τ < start p + duration p)
                     then 2 ^ Z.of_N (default 0%N (mapping !! channel))
                     else 0)
           <$> values channel_pulses).

(** No pulse starts before 0 or has a negative duration. *)
Definition forward (block : ps_block Z) : Prop :=
  forall channel channel_pulses p,
    (channel, channel_pulses) ∈ block -> p ∈ values channel_pulses ->
    0 <= start p /\ 0 <= duration p.

Lemma filter_all {A : Type} (P : A -> Prop) `{forall x, Decision (P x)}
    (l : list A) :
  Forall P l -> filter P l = l.
Proof.
  induction 1 as [|x l Hx _ IH]; [done|].
  by rewrite filter_cons_True, IH.
Qed.

Lemma filter_none {A : Type} (P : A -> Prop) `{forall x, Decision (P x)}
    (l : list A) :
  Forall (fun x => ~ P x) l -> filter P l = [].
Proof.
  induction 1 as [|x l Hx _ IH]; [done|].
  by rewrite filter_cons_False.
Qed.

Lemma lookup_running (acc : Z) (ws : list Z) (i : nat) :
  (i < length ws)%nat ->
  running acc ws !! i = Some (acc + sum_Z (take (S i) ws)).
Proof.
  revert acc i. induction ws as [|w ws IH]; intros acc i Hi; [simpl in Hi; lia|].
  destruct i as [|i].
  - cbn. rewrite take_0. cbn. f_equal. lia.
  - cbn [running lookup list_lookup]. rewrite IH by (simpl in Hi; lia).
    f_equal. change (take (S (S i)) (w :: ws)) with (w :: take (S i) ws).
    unfold sum_Z. cbn [foldr]. lia.
Qed.

(** The events up to a time add up to the pulses that are high then. *)
Lemma events_until_weight mapping block τ :
  forward block ->
  sum_Z (event_weight mapping
         <$> filter (fun x => x.1.1 <= τ) (block_events block))
  = active_weight mapping block τ.
Proof.
  unfold block_events, active_weight.
  induction block as [|[channel channel_pulses] block IH]; intros Hfw; [done|].
  rewrite !bind_cons, filter_app, fmap_app, !sum_Z_app, IH.
  2:{ intros c l p Hin Hp. apply (Hfw c l p); [by right|done]. }
  f_equal.
  assert (forall p, p ∈ values channel_pulses -> 0 <= duration p) as Hd.
  { intros p Hp. apply (Hfw channel channel_pulses p); [by left|done]. }
  clear Hfw IH. unfold channel_events.
  induction (values channel_pulses) as [|p l IHl]; [done|].
  rewrite bind_cons, filter_app, !fmap_app, sum_Z_app, IHl.
  2:{ intros q Hq. apply Hd. by right. }
  cbn [fmap list_fmap sum_Z foldr]. f_equal.
  pose proof (Hd p ltac:(by left)) as Hp.
  unfold pulse_events. rewrite !filter_cons, filter_nil. cbn [fst snd].
  unfold event_weight.
  destruct (decide (start p <= τ)), (decide (start p + duration p <= τ)),
    (decide (start p <= τ < start p + duration p));
    cbn [fmap list_fmap sum_Z foldr fst snd String.eqb Ascii.eqb Bool.eqb];
    lia.
Qed.

Lemma active_weight_before mapping block τ :
  (forall channel channel_pulses p,
     (channel, channel_pulses) ∈ block -> p ∈ values channel_pulses ->
     τ < start p) ->
  active_weight mapping block τ = 0.
Proof.
  unfold active_weight.
  induction block as [|[channel channel_pulses] block IH]; intros Hlate; [done|].
  rewrite bind_cons, sum_Z_app, IH.
  2:{ intros c l p Hin Hp. apply (Hlate c l p); [by right|done]. }
  assert (forall p, p ∈ values channel_pulses -> τ < start p) as Hs.
  { intros p Hp. apply (Hlate channel channel_pulses p); [by left|done]. }
  clear Hlate IH.
  induction (values channel_pulses) as [|p l IHl]; [done|].
  cbn [fmap list_fmap sum_Z foldr].
  pose proof (Hs p ltac:(by left)).
  rewrite decide_False by lia.
  unfold sum_Z in IHl. rewrite Z.add_0_r in IHl. rewrite Z.add_0_r.
  rewrite Z.add_0_l. apply IHl. intros q Hq. apply Hs. by right.
Qed.

(** In a list sorted by time, the events up to position [i] are those up to
    the time of event [i], when the next event is later. *)
Lemma sorted_prefix_until b (i : nat) (x : Z * string * string) :
  let l := sorted tuple_lt (block_events b) in
  l !! i = Some x ->
  (forall y, l !! S i = Some y -> x.1.1 < y.1.1) ->
  take (S i) l = filter (fun y => y.1.1 <= x.1.1) l.
Proof.
  intros l Hi Hnext.
  assert (forall j k (y z : Z * string * string),
            (j <= k)%nat -> l !! j = Some y -> l !! k = Some z ->
            y.1.1 <= z.1.1) as Hmono.
  { intros j k y z Hjk Hj Hk.
    apply (sorted_times_increasing b j k); [done| |];
      rewrite !list_lookup_fmap; fold l; by (rewrite Hj || rewrite Hk). }
  rewrite <- (take_drop (S i) l) at 2. rewrite filter_app.
  rewrite filter_all, filter_none; [by rewrite app_nil_r| |].
  - apply Forall_lookup. intros k z Hk. rewrite lookup_drop in Hk.
    destruct (l !! S i) as [y|] eqn:Hy.
    + pose proof (Hnext y eq_refl).
      pose proof (Hmono (S i) (S i + k)%nat y z ltac:(lia) Hy Hk). lia.
    + apply lookup_ge_None in Hy. apply lookup_lt_Some in Hk. lia.
  - apply Forall_lookup. intros k z Hk.
    destruct (decide (k < S i)%nat) as [Hlt|Hge].
    + rewrite lookup_take_lt in Hk by done.
      apply (Hmono k i z x); [lia|done|done].
    + apply lookup_lt_Some in Hk. rewrite length_take in Hk. lia.
Qed.

Lemma keep_cons {A : Type} (x : Z) (raw : list Z) (y : A) (l : list A) :
  keep (x :: raw) (y :: l) = if decide (x <> 0) then y :: keep raw l else keep raw l.
Proof.
  unfold keep. cbn [zip zip_with]. rewrite filter_cons. cbn [fst].
  by destruct (decide (x <> 0)).
Qed.

(** The entries that pruning keeps, found in the lists before pruning. *)
Lemma keep_lookup {A : Type} (raw : list Z) (l : list A) (i : nat) (d : Z) :
  length l = length raw ->
  keep raw raw !! i = Some d ->
  exists k,
    raw !! k = Some d /\ d <> 0 /\
    keep raw l !! i = l !! k /\
    sum_Z (take i (keep raw raw)) = sum_Z (take k raw).
Proof.
  revert l i. induction raw as [|x raw IH]; intros [|y l] i Hlen Hi;
    simpl in Hlen; try done.
  rewrite !keep_cons in *.
  destruct (decide (x <> 0)) as [Hx|Hx].
  - destruct i as [|i].
    + injection Hi as <-. exists 0%nat. done.
    + cbn [lookup list_lookup] in Hi.
      destruct (IH l i ltac:(lia) Hi) as (k & Hk & Hd & Hl & Hsum).
      exists (S k). split; [done|]. split; [done|]. split; [done|].
      change (take (S i) (x :: keep raw raw)) with (x :: take i (keep raw raw)).
      change (take (S k) (x :: raw)) with (x :: take k raw).
      unfold sum_Z in *. cbn [foldr]. by rewrite Hsum.
  - destruct (IH l i ltac:(lia) Hi) as (k & Hk & Hd & Hl & Hsum).
    exists (S k). split; [done|]. split; [done|]. split; [done|].
    change (take (S k) (x :: raw)) with (x :: take k raw).
    unfold sum_Z in *. cbn [foldr]. rewrite Hsum. lia.
Qed.

Lemma sum_Z_differences_prefix (times : list Z) (k : nat) (tk : Z) :
  times !! k = Some tk ->
  sum_Z (take k (differences times)) = tk - default 0 (head times).
Proof.
  destruct times as [|x times]; [done|]. revert x k.
  induction times as [|y times IH]; intros x k Hk.
  - destruct k as [|k]; [|done]. injection Hk as <-.
    rewrite take_0. cbn. lia.
  - destruct k as [|k].
    + injection Hk as <-. rewrite take_0. cbn. lia.
    + rewrite differences_cons.
      change (take (S k) ((y - x) :: differences (y :: times)))
        with ((y - x) :: take k (differences (y :: times))).
      pose proof (IH y k Hk) as IHk.
      change (default 0 (head (y :: times))) with y in IHk.
      change (default 0 (head (x :: y :: times))) with x.
      unfold sum_Z in *. cbn [foldr]. rewrite IHk. lia.
Qed.

Lemma differences_lookup (times : list Z) (k : nat) (d : Z) :
  differences times !! k = Some d ->
  exists a b, times !! k = Some a /\ times !! S k = Some b /\ d = b - a.
Proof.
  destruct times as [|x times]; [done|]. revert x k.
  induction times as [|y times IH]; intros x k Hk; [done|].
  rewrite differences_cons in Hk. destruct k as [|k].
  - injection Hk as <-. by exists x, y.
  - apply (IH y k) in Hk as (a & b & Ha & Hb & ->). by exists a, b.
Qed.

Lemma forward_times b :
  forward b -> Forall (fun t => 0 <= t) (pulse_times b).
Proof.
  intros Hfw. unfold pulse_times. rewrite !Forall_fmap. apply Forall_forall.
  intros x Hx. cbn [compose].
  apply elem_of_block_events in Hx as (channel_pulses & p & Hin & Hp & Hx).
  destruct (Hfw _ _ _ Hin Hp) as [Hs Hd]. unfold pulse_events in Hx.
  apply elem_of_cons in Hx as [->|Hx]; [done|].
  apply list_elem_of_singleton in Hx as ->. cbn [fst]. lia.
Qed.

Lemma start_in_pulse_times b channel channel_pulses p :
  (channel, channel_pulses) ∈ b -> p ∈ values channel_pulses ->
  start p ∈ pulse_times b.
Proof.
  intros Hin Hp. unfold pulse_times.
  apply (list_elem_of_fmap_2' _ _ (start p, channel)); [|done].
  apply (list_elem_of_fmap_2' _ _ (start p, channel, "up"%string)); [|done].
  apply elem_of_block_events. cbn [fst snd].
  exists channel_pulses, p. split; [done|]. split; [done|]. by left.
Qed.

(** The bit-field of every segment of a compiled block, in terms of the
    pulses: the segment starts when the durations before it have passed,
    and its bit-field adds [2 ** k] for every pulse that is high then. *)
Lemma compile_block_segment mapping total_duration b (i : nat) (d : Z) :
  forward b ->
  cb_durations (compile_block mapping total_duration b) !! i = Some d ->
  cb_channel_bits (compile_block mapping total_duration b) !! i
  = Some (active_weight mapping b
            (sum_Z (take i (cb_durations (compile_block mapping total_duration b))))).
Proof.
  intros Hfw. unfold compile_block. cbn [cb_durations cb_channel_bits].
  set (l := sorted tuple_lt (block_events b)).
  set (times := (l.*1).*1).
  set (D := differences times ++ trailing total_duration times).
  set (bits := running 0 (event_weight mapping <$> take (length D) l)).
  intros Hi.
  assert (length times = length l) as Hlt by (unfold times; by rewrite !length_fmap).
  assert (length (differences times) = Init.Nat.pred (length l)) as Hdiff
    by (by rewrite length_differences, Hlt).
  assert (length D <= length l)%nat as HD.
  { unfold D. rewrite length_app, Hdiff.
    pose proof (length_trailing total_duration times) as Htr.
    destruct (decide (length l = 0)%nat) as [Hnil|Hne]; [|lia].
    rewrite <- Hlt in Hnil. apply nil_length_inv in Hnil. rewrite Hnil.
    destruct total_duration; simpl; lia. }
  assert (length bits = length D) as Hbits.
  { unfold bits. rewrite length_running, length_fmap, length_take. lia. }
  assert (length (leading_bits times) = length (leading times)) as Hlead.
  { unfold leading_bits, leading. destruct times as [|t ?]; [done|].
    by destruct (t =? 0). }
  destruct (keep_lookup (leading times ++ D) (leading_bits times ++ bits) i d)
    as (k & Hk & Hd & -> & ->); [by rewrite !length_app, Hlead, Hbits|done|].
  assert (forall j k' tj tk, (j <= k')%nat ->
            times !! j = Some tj -> times !! k' = Some tk -> tj <= tk) as Hmono.
  { intros j k' tj tk. apply sorted_times_increasing. }
  assert (forall k' d' tk,
            D !! k' = Some d' -> d' <> 0 -> times !! k' = Some tk ->
            bits !! k' = Some (active_weight mapping b tk)) as Hseg.
  { intros k' d' tk Hd' Hnz Htk.
    pose proof (lookup_lt_Some _ _ _ Hd') as Hk'.
    unfold bits. rewrite lookup_running
      by (rewrite length_fmap, length_take; lia).
    rewrite <- fmap_take, take_take, Nat.min_l by lia.
    unfold times in Htk. rewrite !list_lookup_fmap in Htk.
    destruct (l !! k') as [x|] eqn:Hx; [|done]. injection Htk as <-.
    unfold l in Hx |- *.
    rewrite (sorted_prefix_until b k' x Hx).
    - rewrite Z.add_0_l. f_equal.
      rewrite <- (events_until_weight mapping b x.1.1 Hfw).
      apply sum_Z_Permutation, fmap_Permutation.
      by rewrite sorted_Permutation.
    - fold l. intros y Hy.
      assert (times !! k' = Some x.1.1) as Htk
        by (unfold times, l; by rewrite !list_lookup_fmap, Hx).
      assert (times !! S k' = Some y.1.1) as Hty
        by (unfold times; by rewrite !list_lookup_fmap, Hy).
      pose proof (Hmono k' (S k') _ _ ltac:(lia) Htk Hty).
      assert (d' = y.1.1 - x.1.1); [|lia].
      apply lookup_lt_Some in Hy.
      unfold D in Hd'. rewrite lookup_app_l in Hd' by lia.
      apply differences_lookup in Hd' as (a & c & Ha & Hc & ->). congruence. }
  assert (forall k' d' , D !! k' = Some d' ->
            exists tk, times !! k' = Some tk /\
                       sum_Z (take k' D) = tk - default 0 (head times)) as Hstart.
  { intros k' d' Hd'. apply lookup_lt_Some in Hd'.
    destruct (lookup_lt_is_Some_2 times k') as [tk Htk]; [lia|].
    exists tk. split; [done|].
    unfold D. rewrite take_app_le.
    - by apply sum_Z_differences_prefix.
    - rewrite Hdiff. unfold D in Hd'. rewrite length_app, Hdiff in Hd'.
      pose proof (length_trailing total_duration times). lia. }
  destruct times as [|t0 times'] eqn:Etimes.
  { change (leading [] ++ D) with D in Hk.
    by destruct (Hstart k d Hk) as (tk & Htk & _). }
  unfold leading_bits, leading in *.
  change (default 0 (head (t0 :: times'))) with t0 in Hstart.
  destruct (Z.eqb_spec t0 0) as [->|Ht0]; cbn [app] in *.
  - destruct (Hstart k d Hk) as (tk & Htk & ->).
    rewrite Z.sub_0_r. by apply (Hseg k d).
  - destruct k as [|k].
    + cbn [lookup list_lookup take]. f_equal. symmetry.
      change (sum_Z []) with 0.
      assert (Forall (fun t => 0 <= t) (t0 :: times')) as Hnonneg.
      { rewrite <- Etimes. unfold times, l.
        rewrite sorted_times_Permutation. by apply forward_times. }
      apply Forall_cons in Hnonneg as [Hpos _].
      apply active_weight_before. intros channel channel_pulses p Hin Hp.
      pose proof (start_in_pulse_times b channel channel_pulses p Hin Hp) as Hs.
      rewrite <- sorted_times_Permutation in Hs. fold l in Hs. fold times in Hs.
      rewrite Etimes in Hs.
      apply list_elem_of_lookup in Hs as [j Hj].
      pose proof (Hmono 0%nat j t0 (start p) ltac:(lia) eq_refl Hj). lia.
    + change ((t0 :: D) !! S k) with (D !! k) in Hk.
      change ((0 :: bits) !! S k) with (bits !! k).
      change (take (S k) (t0 :: D)) with (t0 :: take k D).
      destruct (Hstart k d Hk) as (tk & Htk & Hsum).
      rewrite (Hseg k d tk Hk Hd Htk). do 2 f_equal.
      unfold sum_Z in *. cbn [foldr]. rewrite Hsum. lia.
Qed.

(** The indices of the bits that the pulses high at time [τ] drive. *)
Definition active_indices (mapping : gmap string N) (block : ps_block Z) (τ : Z)
  : list N :=
  block ≫= fun '(channel, channel_pulses) =>
    values channel_pulses ≫= fun p =>
      if decide (start p <= τ < start p + duration p)
      then [default 0%N (mapping !! channel)] else [].

Lemma active_weight_indices mapping block τ :
  active_weight mapping block τ
  = sum_Z ((fun k => 2 ^ Z.of_N k) <$> active_indices mapping block τ).
Proof.
  unfold active_weight, active_indices.
  induction block as [|[channel channel_pulses] block IH]; [done|].
  rewrite !bind_cons, fmap_app, !sum_Z_app, IH. f_equal.
  induction (values channel_pulses) as [|p l IHl]; [done|].
  rewrite bind_cons, fmap_app, sum_Z_app, <- IHl. unfold sum_Z.
  cbn [fmap list_fmap foldr].
  destruct (decide (start p <= τ < start p + duration p));
    cbn [fmap list_fmap foldr]; lia.
Qed.

Lemma elem_of_active_indices mapping block τ (k : N) :
  k ∈ active_indices mapping block τ <->
  exists channel channel_pulses p,
    (channel, channel_pulses) ∈ block /\ p ∈ values channel_pulses /\
    default 0%N (mapping !! channel) = k /\
    start p <= τ < start p + duration p.
Proof.
  unfold active_indices. rewrite list_elem_of_bind. split.
  - intros ([channel channel_pulses] & Hk & Hin).
    apply list_elem_of_bind in Hk as (p & Hk & Hp).
    destruct (decide (start p <= τ < start p + duration p)) as [Hact|];
      [|by apply elem_of_nil in Hk].
    apply list_elem_of_singleton in Hk as ->.
    exists channel, channel_pulses, p. done.
  - intros (channel & channel_pulses & p & Hin & Hp & <- & Hact).
    exists (channel, channel_pulses). split; [|done].
    apply list_elem_of_bind. exists p. split; [|done].
    rewrite decide_True by done. by left.
Qed.

(** A sum of distinct powers of two has exactly their bits set. *)
Lemma testbit_sum_pow2 (ks : list N) (j : N) :
  NoDup ks ->
  Z.testbit (sum_Z ((fun k => 2 ^ Z.of_N k) <$> ks)) (Z.of_N j)
  = bool_decide (j ∈ ks).
Proof.
  intros Hnd. revert j. induction Hnd as [|k ks Hk Hnd IH]; intros j.
  - cbn. by rewrite Z.testbit_0_l.
  - cbn [fmap list_fmap sum_Z foldr].
    fold (sum_Z ((fun k => 2 ^ Z.of_N k) <$> ks)).
    set (S := sum_Z ((fun k => 2 ^ Z.of_N k) <$> ks)) in *.
    assert (Z.land (2 ^ Z.of_N k) S = 0) as Hland.
    { apply Z.bits_inj'. intros n Hn.
      rewrite Z.land_spec, Z.bits_0, Z.pow2_bits_eqb by lia.
      destruct (Z.eqb_spec (Z.of_N k) n) as [<-|_]; [|done].
      rewrite IH, bool_decide_eq_false_2 by done. done. }
    rewrite (Z.add_nocarry_lxor _ _ Hland), Z.lxor_spec, IH,
      Z.pow2_bits_eqb by lia.
    destruct (Z.eqb_spec (Z.of_N k) (Z.of_N j)) as [Heq|Hne].
    + apply N2Z.inj in Heq as ->.
      rewrite bool_decide_eq_false_2 by done.
      rewrite bool_decide_eq_true_2 by (by left). done.
    + destruct (decide (j ∈ ks)) as [Hin|Hout].
      * rewrite !bool_decide_eq_true_2; [done|by right|done].
      * rewrite !bool_decide_eq_false_2; [done| |done].
        intros [->|?]%elem_of_cons; done.
Qed.

(** ** [compile] *)

Lemma compile_loop_raises (psm : gmap string (compiled_block Z))
    (program : list (string * Z)) (acc : list Z * list Z) :
  (exists block repeats, (block, repeats) ∈ program /\ psm !! block = None) ->
  for_each
    (fun '(channel_bits, bits_duration) '(sequence_block, block_repeats) =>
       b ← getitem psm sequence_block;
       Ok (channel_bits ++ list_mul (cb_channel_bits b) block_repeats,
           bits_duration ++ list_mul (cb_durations b) block_repeats))
    program acc
  = Raise KeyError.
Proof.
  revert acc. induction program as [|[block repeats] program IH];
    intros [bits durations] (block' & repeats' & Hin & Hnone).
  - by apply elem_of_nil in Hin.
  - cbn [for_each].
    destruct (psm !! block) as [cb|] eqn:Hcb.
    + assert (getitem psm block = Ok cb) as ->
        by (unfold getitem; by rewrite Hcb).
      cbn [mbind result_bind]. apply IH.
      apply elem_of_cons in Hin as [[= -> ->]|Hin]; [congruence|eauto].
    + assert (getitem psm block = Raise KeyError) as ->
        by (unfold getitem; by rewrite Hcb).
      done.
Qed.

Lemma sum_Z_list_mul (l : list Z) (n : Z) :
  sum_Z (list_mul l n) = Z.max n 0 * sum_Z l.
Proof.
  unfold list_mul. replace (Z.max n 0) with (Z.of_nat (Z.to_nat n)) by lia.
  induction (Z.to_nat n) as [|k IH]; [simpl; lia|].
  cbn [replicate concat]. rewrite sum_Z_app, IH. lia.
Qed.

Lemma Forall_list_mul {A : Type} (P : A -> Prop) (l : list A) (n : Z) :
  Forall P l -> Forall P (list_mul l n).
Proof.
  intros Hl. unfold list_mul.
  induction (Z.to_nat n) as [|k IH]; [constructor|].
  cbn [replicate concat]. by apply Forall_app.
Qed.

(** * Further facts about the waveform builder *)

Lemma np_index_Ok (n : nat) (i : Z) :
  (exists r, np_index n i = Ok r) <-> - Z.of_nat n <= i < Z.of_nat n.
Proof.
  unfold np_index.
  destruct (Z.leb_spec 0 i), (Z.ltb_spec i (Z.of_nat n)),
    (Z.leb_spec (- Z.of_nat n) i), (Z.ltb_spec i 0); cbn [andb];
    split; try lia; try (intros [r [=]]); eauto.
Qed.

Lemma np_index_Raise (n : nat) (i : Z) (e : exn) :
  np_index n i = Raise e -> e = IndexError.
Proof.
  unfold np_index.
  destruct ((0 <=? i) && (i <? Z.of_nat n)); [done|].
  destruct ((- Z.of_nat n <=? i) && (i <? 0)); [done|]. congruence.
Qed.

Lemma write_slice_nil {A : Type} (lo : nat) (l : list A) :
  write_slice lo [] l = l.
Proof. unfold write_slice. cbn [length app]. by rewrite Nat.add_0_r, take_drop. Qed.

Lemma map_range_id {A : Type} (f : A -> A) (v0 n : nat) (l : list A) :
  (forall x, f x = x) -> map_range f v0 n l = l.
Proof.
  intros Hf. unfold map_range.
  rewrite (list_fmap_ext f id) by (intros; apply Hf).
  rewrite list_fmap_id, <- drop_drop, take_drop, take_drop. done.
Qed.

Section waveform_more.
Context {R : Type} `{Float64 R}.

Lemma sample_replicate (a b c : nat) (x : R) (v r j : nat) :
  (v < a)%nat -> (r < b)%nat -> (j < c)%nat ->
  PulseSequenceFacts.sample (replicate a (replicate b (replicate c x))) v r j
  = Some x.
Proof.
  intros Hv Hr Hj. unfold PulseSequenceFacts.sample.
  rewrite lookup_replicate_2 by done. cbn [mbind option_bind].
  rewrite lookup_replicate_2 by done. cbn [mbind option_bind].
  by apply lookup_replicate_2.
Qed.

Lemma pulse_values_nil (s : PulseSequence.t (R:=R)) lo amplitude freq :
  PulseSequence.pulse_values s lo 0 amplitude freq = [].
Proof. by destruct freq as [[frequency phase]|]. Qed.

Lemma write_row_nil (channel lo : nat) (variant : list (list R)) :
  PulseSequence.write_row channel lo [] variant = variant.
Proof.
  unfold PulseSequence.write_row. apply list_alter_id. apply write_slice_nil.
Qed.

(** [add_pulse] with the bounds of the write and the warning count spelled
    out: the pulses are written into the addressed variants, or an index is
    out of range. *)
Lemma add_pulse_unfold (s : PulseSequence.t (R:=R)) numseq start duration
    channel inputtype amplitude freq first stop s1 :
  PulseSequence.index_range s start duration inputtype = Ok (first, stop, s1) ->
  PulseSequence.add_pulse s numseq start duration channel inputtype amplitude
    freq
  = '(v0, n) ← PulseSequenceFacts.variant_range s numseq;
    r ← np_index (7 * length (PulseSequence.awg_sources s)) channel;
    Ok (PulseSequence.set_pulses
          (map_range
             (PulseSequence.write_row r
                (slice_range (PulseSequence.num_points s) first stop).1
                (PulseSequence.pulse_values s
                   (slice_range (PulseSequence.num_points s) first stop).1
                   (slice_range (PulseSequence.num_points s) first stop).2
                   amplitude freq))
             v0 n (PulseSequence.pulses s))
          s1).
Proof.
  intros Hidx. unfold PulseSequence.add_pulse. rewrite Hidx.
  cbn [mbind result_bind].
  apply PulseSequenceFacts.index_range_frame in Hidx as [k ->].
  cbn [PulseSequence.num_points PulseSequence.numseqs
       PulseSequence.awg_sources PulseSequence.pulses
       PulseSequence.set_warning_counter].
  destruct (slice_range (PulseSequence.num_points s) first stop) as [lo len].
  cbn [fst snd].
  assert (PulseSequence.pulse_values
            (PulseSequence.set_warning_counter k s) lo len amplitude freq
          = PulseSequence.pulse_values s lo len amplitude freq) as ->
    by reflexivity.
  unfold PulseSequenceFacts.variant_range.
  destruct numseq as [i|[first' last']].
  - destruct (np_index (PulseSequence.numseqs s) i) as [v|e];
      cbn [mbind result_bind]; [|done].
    destruct (np_index (7 * length (PulseSequence.awg_sources s)) channel)
      as [r|e]; cbn [mbind result_bind]; [|done].
    by rewrite alter_map_range.
  - cbn [mbind result_bind].
    destruct (np_index (7 * length (PulseSequence.awg_sources s)) channel)
      as [r|e]; cbn [mbind result_bind]; [|done].
    by destruct (slice_range (PulseSequence.numseqs s) first' last').
Qed.

(** A start or a duration that cannot be converted ends [add_pulse], before
    an index is looked at. *)
Lemma add_pulse_not_converted (s : PulseSequence.t (R:=R)) numseq start
    duration channel inputtype amplitude freq e :
  PulseSequence.index_range s start duration inputtype = Raise e ->
  PulseSequence.add_pulse s numseq start duration channel inputtype amplitude
    freq = Raise e.
Proof. intros Hidx. unfold PulseSequence.add_pulse. by rewrite Hidx. Qed.

(** The number of warnings that quantizing [time] adds. *)
Definition off_grid (s : PulseSequence.t (R:=R)) (time : R) : nat :=
  let points := f_mul (f_mul (PulseSequence.samp_rate s) time) f_micro in
  match f_round points with
  | Ok index => if f_isclose points index then 0%nat else 1%nat
  | Raise _ => 0%nat
  end.

Lemma index_range_counter (s : PulseSequence.t (R:=R)) start duration inputtype
    first stop s1 :
  PulseSequence.index_range s start duration inputtype = Ok (first, stop, s1) ->
  PulseSequence.warning_counter s1
  = (PulseSequence.warning_counter s
     + if (inputtype =? "time")%string
       then off_grid s start + off_grid s duration else 0)%nat.
Proof.
  unfold PulseSequence.index_range, off_grid.
  destruct (inputtype =? "time")%string.
  - rewrite PulseSequenceFacts.time_to_index_rate.
    destruct (f_round (f_mul (f_mul (PulseSequence.samp_rate s) start) f_micro))
      as [i1|e]; cbn [mbind result_bind]; [|done].
    rewrite PulseSequenceFacts.time_to_index_rate.
    assert (PulseSequence.samp_rate
              (if negb (f_isclose
                          (f_mul (f_mul (PulseSequence.samp_rate s) start) f_micro)
                          i1)
               then PulseSequence.set_warning_counter
                      (PulseSequence.warning_counter s + 1) s
               else s)
            = PulseSequence.samp_rate s) as -> by (by destruct (negb _)).
    destruct (f_round (f_mul (f_mul (PulseSequence.samp_rate s) duration) f_micro))
      as [i2|e]; cbn [mbind result_bind]; [|done].
    intros [= _ _ <-].
    destruct (f_isclose (f_mul (f_mul (PulseSequence.samp_rate s) start) f_micro) i1),
      (f_isclose (f_mul (f_mul (PulseSequence.samp_rate s) duration) f_micro) i2);
      cbn [negb PulseSequence.warning_counter PulseSequence.set_warning_counter];
      lia.
  - intros Hidx. inv_bind Hidx. inv_bind Hidx. injection Hidx as _ _ <-. lia.
Qed.

Lemma length_pack_step packed bit_offset (marker : list R) :
  length (PulseSequence.pack_step packed bit_offset marker)
  = Nat.min (length packed) (length marker).
Proof. unfold PulseSequence.pack_step. apply length_zip_with. Qed.

Lemma length_pack_markers (n : nat) (markers : list (list R)) :
  Forall (fun row => length row = n) markers ->
  length (PulseSequence.pack_markers n markers) = n.
Proof.
  unfold PulseSequence.pack_markers, enumerate.
  assert (length (replicate n 0) = n) as Hinit by apply length_replicate.
  revert Hinit. generalize (replicate n 0) as packed.
  change (@pair nat (list R)) with (fun i => @pair nat (list R) (id i)).
  generalize (@id nat) as g.
  induction markers as [|row markers IH]; intros g packed Hinit Hall;
    cbn [imap foldl]; [done|].
  apply Forall_cons in Hall as [Hrow Hall].
  apply (IH (g ∘ S)); [|done]. rewrite length_pack_step. lia.
Qed.

End waveform_more.

(** ** [make] *)

Section make_more.
Context {R : Type} `{Float64 R}.

Lemma make_without_flags (s : PulseSequence.t (R:=R)) :
  PulseSequenceFacts.wf s -> PulseSequence.flag_channels s = None ->
  PulseSequence.make s = Raise AttributeError.
Proof.
  intros (_ & _ & Hshape) Hflags. unfold PulseSequence.make.
  rewrite (traverse_fmap _
             (fun variant =>
                concat (PulseSequenceFacts.collapsed (PulseSequence.num_points s)
                          variant
                        <$> seq 0 (length (PulseSequence.awg_sources s))))).
  - cbn [mbind result_bind]. by rewrite Hflags.
  - eapply Forall_impl; [exact Hshape|]. intros variant [Hlen _]. cbn beta.
    rewrite (traverse_fmap _
               (PulseSequenceFacts.collapsed (PulseSequence.num_points s) variant));
      [done|].
    apply Forall_forall. intros si Hsi%elem_of_seq.
    apply PulseSequenceFacts.collapse_source_Ok. lia.
Qed.

Lemma add_pulse_flag_channels (s s' : PulseSequence.t (R:=R)) numseq start
    duration channel inputtype amplitude freq :
  PulseSequence.add_pulse s numseq start duration channel inputtype amplitude
    freq = Ok s' ->
  PulseSequence.flag_channels s' = PulseSequence.flag_channels s.
Proof.
  intros Hadd.
  destruct (PulseSequence.index_range s start duration inputtype)
    as [[[first stop] s1]|e] eqn:Hidx.
  2:{ by rewrite (add_pulse_not_converted _ _ _ _ _ _ _ _ _ Hidx) in Hadd. }
  rewrite (add_pulse_unfold s numseq start duration channel inputtype
             amplitude freq first stop s1 Hidx) in Hadd.
  apply PulseSequenceFacts.index_range_frame in Hidx as [k ->].
  inv_bind Hadd. destruct a as [v0 n]. inv_bind Hadd.
  by injection Hadd as <-.
Qed.

Lemma marker_byte_mod4 (markers : list R) :
  length markers = 6%nat -> PulseSequenceFacts.marker_byte markers mod 4 = 0.
Proof.
  intros Hlen.
  destruct markers as [|m0 [|m1 [|m2 [|m3 [|m4 [|m5 [|]]]]]]]; try done.
  unfold PulseSequenceFacts.marker_byte. cbn [imap compose].
  destruct (f_pos m0), (f_pos m1), (f_pos m2), (f_pos m3), (f_pos m4),
    (f_pos m5); reflexivity.
Qed.

Lemma marker_byte_zero (markers : list R) :
  length markers = 6%nat ->
  PulseSequenceFacts.marker_byte markers = 0
  <-> Forall (fun m => f_pos m = false) markers.
Proof.
  intros Hlen.
  destruct markers as [|m0 [|m1 [|m2 [|m3 [|m4 [|m5 [|]]]]]]]; try done.
  unfold PulseSequenceFacts.marker_byte. cbn [imap compose].
  rewrite !Forall_cons.
  destruct (f_pos m0), (f_pos m1), (f_pos m2), (f_pos m3), (f_pos m4),
    (f_pos m5);
    (split; [intros Hz; try (by vm_compute in Hz); by repeat split
            |intros (? & ? & ? & ? & ? & ? & _); done]).
Qed.

End make_more.

(** * Further facts about the translation to an archive *)

(** A loop that keeps an invariant returns exactly when every pass does. *)
Lemma for_each_Ok_iff {X S : Type} (I : S -> Prop) (P : X -> Prop)
    (body : S -> X -> result S) (l : list X) (s : S) :
  (forall s x, I s -> x ∈ l ->
     (P x -> exists s', body s x = Ok s' /\ I s') /\
     (forall s', body s x = Ok s' -> P x /\ I s')) ->
  I s ->
  (Forall P l -> exists s', for_each body l s = Ok s' /\ I s') /\
  (forall s', for_each body l s = Ok s' -> Forall P l /\ I s').
Proof.
  revert s. induction l as [|x l IH]; intros s Hbody Hs; cbn [for_each].
  - split; [eauto|]. intros s' [= <-]. by split.
  - destruct (Hbody s x Hs) as [Hyes Hno]; [by left|].
    assert (forall s1, I s1 ->
              (Forall P l -> exists s', for_each body l s1 = Ok s' /\ I s') /\
              (forall s', for_each body l s1 = Ok s' -> Forall P l /\ I s'))
      as IH'.
    { intros s1 Hs1. apply IH; [|done].
      intros s2 y Hs2 Hy. apply Hbody; [done|by right]. }
    split.
    + intros [Hx Hl]%Forall_cons. destruct (Hyes Hx) as (s1 & -> & Hs1).
      cbn [mbind result_bind]. by apply IH'.
    + intros s' Hrun. inv_bind Hrun. rename a into s1.
      destruct (Hno s1 Ha) as [Hx Hs1].
      destruct (IH' s1 Hs1) as [_ Hrest].
      destruct (Hrest s' Hrun) as [Hl Hs']. split; [by constructor|done].
Qed.

(** A loop whose passes append to a list. *)
Lemma for_each_appends {X S B : Type} (out : S -> list B) (g : X -> list B)
    (body : S -> X -> result S) (l : list X) (s s' : S) :
  (forall s x s', x ∈ l -> body s x = Ok s' -> out s' = out s ++ g x) ->
  for_each body l s = Ok s' -> out s' = out s ++ (l ≫= g).
Proof.
  revert s. induction l as [|x l IH]; intros s Hbody; cbn [for_each].
  - intros [= <-]. by rewrite app_nil_r.
  - intros Hrun. inv_bind Hrun. rename a into s1.
    rewrite (IH s1); [|intros; eapply Hbody; [by right|done]|done].
    rewrite (Hbody s x s1); [|by left|done].
    by rewrite bind_cons, app_assoc.
Qed.

Lemma enumerate_lookup {A : Type} (l : list A) (i : nat) (x : A) :
  (i, x) ∈ enumerate l <-> l !! i = Some x.
Proof.
  unfold enumerate. rewrite list_elem_of_lookup. split.
  - intros [j Hj]. rewrite list_lookup_imap in Hj.
    destruct (l !! j) as [y|] eqn:Hy; [|done]. by injection Hj as -> ->.
  - intros Hi. exists i. by rewrite list_lookup_imap, Hi.
Qed.

Lemma enumerate_bind {A B : Type} (h : A -> B) (l : list A) :
  enumerate l ≫= (fun '(_, x) => [h x]) = h <$> l.
Proof.
  unfold enumerate.
  change (@pair nat A) with (fun i => @pair nat A (id i)).
  generalize (@id nat) as g.
  induction l as [|x l IH]; intros g; [done|].
  cbn [imap]. rewrite bind_cons. cbn [app fmap list_fmap]. f_equal.
  apply (IH (g ∘ S)).
Qed.

Lemma np_index_nat (n i : nat) : (i < n)%nat -> np_index n (Z.of_nat i) = Ok i.
Proof.
  intros Hi. unfold np_index.
  destruct (Z.leb_spec 0 (Z.of_nat i)); [|lia].
  destruct (Z.ltb_spec (Z.of_nat i) (Z.of_nat n)); [|lia].
  cbn [andb]. by rewrite Nat2Z.id.
Qed.

Lemma write_aux_same {D A : Type} (doc : D) (fs : PulseSequenceYaml.files D A) :
  PulseSequenceYaml.aux_file fs = Some doc ->
  PulseSequenceYaml.write_aux doc fs = fs.
Proof. destruct fs. cbn. by intros ->. Qed.

Section translate_more.
Context {R : Type} `{Float64 R} `{EqDecision R}.

(** The object under construction: well shaped, with the variants and the
    sources it was allocated for. *)
Definition ready (N : nat) (sources : list Z) (rate : R)
    (s : PulseSequence.t (R:=R)) : Prop :=
  PulseSequenceFacts.wf s /\ PulseSequence.numseqs s = N /\
  PulseSequence.awg_sources s = sources /\ PulseSequence.samp_rate s = rate.

Definition row_in_range (sources : list Z) (row : Z) : Prop :=
  - Z.of_nat (7 * length sources) <= row < Z.of_nat (7 * length sources).

(** The start and the duration of a pulse can be converted to a number of
    samples: neither [rate * time * 1e-6] is an infinity or a NaN. *)
Definition converted (rate : R) (p : PulseSequenceYaml.pulse R) : Prop :=
  returns (f_round (f_mul (f_mul rate (PulseSequenceYaml.start p)) f_micro)) /\
  returns (f_round (f_mul (f_mul rate (PulseSequenceYaml.duration p)) f_micro)).

(** What the translation asks of a channel of a block: a key of the mapping,
    mapped to a flag, or to a row of the array when it holds a pulse, and
    then with pulses that can be converted. *)
Definition channel_ok (self : PulseSequenceYaml.t (R:=R))
    (entry : string * list (string * PulseSequenceYaml.pulse R)) : Prop :=
  match PulseSequenceYaml.channel_mapping self !! entry.1 with
  | None => False
  | Some (inr _) => True
  | Some (inl row) =>
      Forall (fun p => converted (PulseSequenceYaml.samp_rate self) p /\
                       row_in_range (PulseSequenceYaml.awg_sources self) row)
             (values entry.2)
  end.

Definition block_ok (self : PulseSequenceYaml.t (R:=R))
    (doc : PulseSequenceYaml.document) (block : string) : Prop :=
  exists b, blocks doc !! block = Some b /\ Forall (channel_ok self) b.

(** The flags of a block, in the order of its channels. *)
Definition block_flags (self : PulseSequenceYaml.t (R:=R))
    (b : list (string * list (string * PulseSequenceYaml.pulse R)))
  : list string :=
  b ≫= (fun entry =>
          match PulseSequenceYaml.channel_mapping self !! entry.1 with
          | Some (inr flag) => [flag]
          | _ => []
          end).

Lemma add_pulse_ready N sources rate (s : PulseSequence.t (R:=R)) (i : nat)
    start duration row inputtype amplitude freq :
  ready N sources rate s -> (i < N)%nat ->
  (returns (PulseSequenceFacts.index_bounds rate start duration inputtype) /\
   row_in_range sources row ->
   exists s',
     PulseSequence.add_pulse s (inl (Z.of_nat i)) start duration row inputtype
       amplitude freq = Ok s' /\ ready N sources rate s') /\
  (forall s',
     PulseSequence.add_pulse s (inl (Z.of_nat i)) start duration row inputtype
       amplitude freq = Ok s' ->
     (returns (PulseSequenceFacts.index_bounds rate start duration inputtype) /\
      row_in_range sources row) /\
     ready N sources rate s').
Proof.
  intros (Hwf & HN & Hsrc & Hrate) Hi.
  assert (PulseSequenceFacts.variant_range s (inl (Z.of_nat i)) = Ok (i, 1%nat))
    as Hvar.
  { unfold PulseSequenceFacts.variant_range. by rewrite HN, np_index_nat. }
  assert (forall r a b s1,
            np_index (7 * length (PulseSequence.awg_sources s)) row = Ok r ->
            PulseSequence.index_range s start duration inputtype
            = Ok (a, b, s1) ->
            exists s',
              PulseSequence.add_pulse s (inl (Z.of_nat i)) start duration row
                inputtype amplitude freq = Ok s' /\ ready N sources rate s')
    as Hok.
  { intros r a b s1 Hr Hidx.
    destruct (PulseSequenceFacts.add_pulse_spec s (inl (Z.of_nat i)) start
                duration row inputtype amplitude freq i 1 r a b s1
                Hwf Hvar Hr Hidx)
      as (s' & Hs' & Hwf' & _ & Hq & Ha & _ & Hrate' & _).
    exists s'. split; [done|]. split; [done|]. repeat split; congruence. }
  split.
  - intros [[[a b] Hb] Hrow]. unfold row_in_range in Hrow.
    rewrite <- Hsrc in Hrow. apply np_index_Ok in Hrow as [r Hr].
    rewrite <- Hrate in Hb.
    apply PulseSequenceFacts.index_range_Ok_iff in Hb as [s1 Hidx].
    by eapply Hok.
  - intros s' Hadd.
    destruct (add_pulse_Ok_inv _ _ _ _ _ _ _ _ _ Hadd)
      as (_ & _ & r & a & b & s1 & _ & Hr & Hidx).
    split.
    + split.
      * exists (a, b). rewrite <- Hrate.
        apply PulseSequenceFacts.index_range_Ok_iff. eauto.
      * unfold row_in_range. rewrite <- Hsrc. apply np_index_Ok. eauto.
    + destruct (Hok r a b s1 Hr Hidx) as (s'' & Hs'' & Hready). congruence.
Qed.

Lemma add_channel_ready N (self : PulseSequenceYaml.t (R:=R)) (i : nat)
    (acc : PulseSequence.t (R:=R) * list string)
    (entry : string * list (string * PulseSequenceYaml.pulse R)) :
  ready N (PulseSequenceYaml.awg_sources self)
    (PulseSequenceYaml.samp_rate self) acc.1 ->
  (i < N)%nat ->
  let body :=
    fun acc '(channel, pulses) =>
      mapped_channel ← getitem (PulseSequenceYaml.channel_mapping self) channel;
      PulseSequenceYaml.add_channel i acc mapped_channel pulses in
  (channel_ok self entry ->
   exists acc', body acc entry = Ok acc' /\
                ready N (PulseSequenceYaml.awg_sources self)
                  (PulseSequenceYaml.samp_rate self) acc'.1) /\
  (forall acc', body acc entry = Ok acc' ->
                channel_ok self entry /\
                ready N (PulseSequenceYaml.awg_sources self)
                  (PulseSequenceYaml.samp_rate self) acc'.1).
Proof.
  destruct acc as [seq flags], entry as [channel pulses].
  intros Hready Hi body. unfold body, channel_ok, getitem. cbn [fst snd] in *.
  destruct (PulseSequenceYaml.channel_mapping self !! channel)
    as [[row|flag]|] eqn:Hmap; cbn [mbind result_bind].
  - unfold PulseSequenceYaml.add_channel.
    destruct (for_each_Ok_iff
                (ready N (PulseSequenceYaml.awg_sources self)
                   (PulseSequenceYaml.samp_rate self))
                (fun p => converted (PulseSequenceYaml.samp_rate self) p /\
                          row_in_range (PulseSequenceYaml.awg_sources self) row)
                (fun seq p =>
                   PulseSequence.add_pulse seq (inl (Z.of_nat i))
                     (PulseSequenceYaml.start p) (PulseSequenceYaml.duration p)
                     row "time" (PulseSequenceYaml.amplitude p)
                     (Some (PulseSequenceYaml.frequency p,
                            PulseSequenceYaml.phase p)))
                (values pulses) seq) as [Hyes Hno]; [|done|].
    { intros s p Hs _.
      destruct (add_pulse_ready N _ _ s i (PulseSequenceYaml.start p)
                  (PulseSequenceYaml.duration p) row "time"
                  (PulseSequenceYaml.amplitude p)
                  (Some (PulseSequenceYaml.frequency p,
                         PulseSequenceYaml.phase p)) Hs Hi) as [Hy Hn].
      split.
      - intros [Hc Hrow]. apply Hy. split; [|done].
        by apply PulseSequenceFacts.index_bounds_time.
      - intros s' Hadd. destruct (Hn s' Hadd) as [[Hc Hrow] Hr].
        split; [|done]. split; [|done].
        by apply PulseSequenceFacts.index_bounds_time. }
    split.
    + intros Hall. destruct (Hyes Hall) as (seq' & -> & Hseq').
      cbn [mbind result_bind]. eauto.
    + intros acc' Hrun. inv_bind Hrun. injection Hrun as <-.
      destruct (Hno a Ha) as [Hall Hready']. by split.
  - unfold PulseSequenceYaml.add_channel. split; [eauto|].
    by intros acc' [= <-].
  - split; [done|]. by intros acc'.
Qed.

Lemma add_channel_flags (self : PulseSequenceYaml.t (R:=R)) (i : nat)
    (acc acc' : PulseSequence.t (R:=R) * list string)
    (entry : string * list (string * PulseSequenceYaml.pulse R)) :
  (let '(channel, pulses) := entry in
   mapped_channel ← getitem (PulseSequenceYaml.channel_mapping self) channel;
   PulseSequenceYaml.add_channel i acc mapped_channel pulses) = Ok acc' ->
  acc'.2 = acc.2 ++ match PulseSequenceYaml.channel_mapping self !! entry.1 with
                    | Some (inr flag) => [flag]
                    | _ => []
                    end.
Proof.
  destruct acc as [seq flags], entry as [channel pulses].
  unfold getitem. cbn [fst snd].
  destruct (PulseSequenceYaml.channel_mapping self !! channel)
    as [[row|flag]|]; cbn [mbind result_bind]; [| |done].
  - unfold PulseSequenceYaml.add_channel. intros Hrun. inv_bind Hrun.
    injection Hrun as <-. cbn [snd]. by rewrite app_nil_r.
  - unfold PulseSequenceYaml.add_channel. by intros [= <-].
Qed.

Lemma add_block_ready N (self : PulseSequenceYaml.t (R:=R))
    (doc : PulseSequenceYaml.document)
    (acc : PulseSequence.t (R:=R) * list (string * list string))
    (i : nat) (block : string) :
  ready N (PulseSequenceYaml.awg_sources self)
    (PulseSequenceYaml.samp_rate self) acc.1 ->
  (i < N)%nat ->
  (block_ok self doc block ->
   exists acc', PulseSequenceYaml.add_block self doc acc (i, block) = Ok acc' /\
                ready N (PulseSequenceYaml.awg_sources self)
                  (PulseSequenceYaml.samp_rate self) acc'.1) /\
  (forall acc', PulseSequenceYaml.add_block self doc acc (i, block) = Ok acc' ->
                block_ok self doc block /\
                ready N (PulseSequenceYaml.awg_sources self)
                  (PulseSequenceYaml.samp_rate self) acc'.1).
Proof.
  destruct acc as [seq flag_channels]. cbn [fst]. intros Hready Hi.
  unfold PulseSequenceYaml.add_block, block_ok, getitem.
  destruct (blocks doc !! block) as [b|] eqn:Hb; cbn [mbind result_bind].
  2:{ split; [by intros (b & ? & _)|]. by intros acc'. }
  destruct (for_each_Ok_iff
              (fun acc : PulseSequence.t (R:=R) * list string =>
                 ready N (PulseSequenceYaml.awg_sources self)
                   (PulseSequenceYaml.samp_rate self) acc.1)
              (channel_ok self)
              (fun acc '(channel, pulses) =>
                 mapped_channel ← getitem (PulseSequenceYaml.channel_mapping self)
                                    channel;
                 PulseSequenceYaml.add_channel i acc mapped_channel pulses)
              b (seq, [])) as [Hyes Hno]; [|done|].
  { intros acc entry Hacc _. by apply add_channel_ready. }
  split.
  - intros (b' & [= <-] & Hall).
    destruct (Hyes Hall) as ([seq' flags] & Hrun & Hready').
    unfold getitem in Hrun. rewrite Hrun. cbn [mbind result_bind]. eauto.
  - intros acc' Hrun. inv_bind Hrun. destruct a as [seq' flags].
    injection Hrun as <-. destruct (Hno _ Ha) as [Hall Hready'].
    split; [eauto|done].
Qed.

Lemma add_block_flags (self : PulseSequenceYaml.t (R:=R))
    (doc : PulseSequenceYaml.document)
    (acc acc' : PulseSequence.t (R:=R) * list (string * list string))
    (entry : nat * string) :
  PulseSequenceYaml.add_block self doc acc entry = Ok acc' ->
  acc'.2 = acc.2 ++ (let '(_, block) := entry in
                     [(block, block_flags self (default [] (blocks doc !! block)))]).
Proof.
  destruct acc as [seq flag_channels], entry as [i block].
  unfold PulseSequenceYaml.add_block, getitem.
  destruct (blocks doc !! block) as [b|]; cbn [mbind result_bind]; [|done].
  intros Hrun. inv_bind Hrun. destruct a as [seq' flags].
  injection Hrun as <-. cbn [snd default]. do 3 f_equal.
  apply (for_each_appends snd
           (fun entry : string * list (string * PulseSequenceYaml.pulse R) =>
              match PulseSequenceYaml.channel_mapping self !! entry.1 with
              | Some (inr flag) => [flag]
              | _ => []
              end)) in Ha; [done|].
  intros acc entry acc' _ Hstep. by apply (add_channel_flags self i).
Qed.

(** The run of [translate_yaml_to_numeric_instructions] on a document that
    the sidecar does not hold. *)
Lemma translate_changed (self : PulseSequenceYaml.t (R:=R))
    (fs fs1 : PulseSequenceYaml.files PulseSequenceYaml.document
                PulseSequence.artifact)
    (doc : PulseSequenceYaml.document) :
  PulseSequenceYaml.yaml_file fs = Some doc ->
  PulseSequenceYaml._sequence_didnt_change fs = Ok (false, fs1) ->
  PulseSequenceYaml.translate_yaml_to_numeric_instructions self fs
  = duration ← (if yaml_total_duration doc is Duration d
                then Ok d else Raise ValueError);
    let sorted_pulse_blocks :=
      sorted String.ltb (remove_dups (sequencing_order doc)) in
    seq ← PulseSequence.__init__ (length sorted_pulse_blocks) duration
            (PulseSequenceYaml.awg_sources self)
            (PulseSequenceYaml.samp_rate self);
    '(seq, flag_channels) ←
      for_each (PulseSequenceYaml.add_block self doc)
               (enumerate sorted_pulse_blocks) (seq, []);
    archive ← PulseSequence.make
                (PulseSequence.set_sequencernames (Some (sequencing_order doc))
                   (PulseSequence.set_sequencer (Some (sequencing_repeats doc))
                      (PulseSequence.set_flag_channels (Some flag_channels) seq)));
    Ok (PulseSequenceYaml.write_npz archive (PulseSequenceYaml.write_aux doc fs)).
Proof.
  intros Hyaml Haux.
  unfold PulseSequenceYaml.translate_yaml_to_numeric_instructions.
  rewrite Haux, (sequence_checked fs fs1 doc false Hyaml Haux).
  cbn [mbind result_bind PulseSequenceYaml.yaml_file PulseSequenceYaml.write_aux].
  rewrite Hyaml. reflexivity.
Qed.

(** A translation that finds the document unchanged returns at once. *)
Lemma translate_unchanged (self : PulseSequenceYaml.t (R:=R))
    (fs fs1 : PulseSequenceYaml.files PulseSequenceYaml.document
                PulseSequence.artifact) :
  PulseSequenceYaml._sequence_didnt_change fs = Ok (true, fs1) ->
  PulseSequenceYaml.translate_yaml_to_numeric_instructions self fs = Ok fs1.
Proof.
  intros Hcheck.
  unfold PulseSequenceYaml.translate_yaml_to_numeric_instructions.
  by rewrite Hcheck.
Qed.

Lemma sequence_unchanged
    (fs : PulseSequenceYaml.files (PulseSequenceYaml.document (R:=R))
            (PulseSequence.artifact (R:=R)))
    (doc : PulseSequenceYaml.document) :
  PulseSequenceYaml.yaml_file fs = Some doc ->
  PulseSequenceYaml.aux_file fs = Some doc ->
  PulseSequenceYaml._sequence_didnt_change fs = Ok (true, fs).
Proof.
  intros Hyaml Haux. unfold PulseSequenceYaml._sequence_didnt_change.
  rewrite Hyaml, Haux. unfold py_eqb, PulseSequenceYaml.document_py_eq.
  by rewrite document_eqb_refl, write_aux_same.
Qed.

Lemma translate_cache_hit (self : PulseSequenceYaml.t (R:=R))
    (fs : PulseSequenceYaml.files PulseSequenceYaml.document
            PulseSequence.artifact)
    (doc : PulseSequenceYaml.document) :
  PulseSequenceYaml.yaml_file fs = Some doc ->
  PulseSequenceYaml.aux_file fs = Some doc ->
  PulseSequenceYaml.translate_yaml_to_numeric_instructions self fs = Ok fs.
Proof.
  intros Hyaml Haux. apply translate_unchanged.
  by apply (sequence_unchanged fs doc).
Qed.

End translate_more.

(** ** A whole translation *)

Section translate_run.
Context {R : Type} `{Float64 R} `{EqDecision R}.


Lemma __init___ready (numseqs : nat) (duration : R) (sources : list Z)
    (samprate : R) (s : PulseSequence.t (R:=R)) :
  PulseSequence.__init__ numseqs duration sources samprate = Ok s ->
  ready numseqs sources samprate s.
Proof.
  intros Hinit.
  apply PulseSequenceFacts.__init___spec in Hinit
    as (Hwf & HN & Hsrc & Hrate & _).
  by split.
Qed.


(** The loop over the blocks, from the fresh object on. *)
Lemma add_blocks_ready (self : PulseSequenceYaml.t (R:=R))
    (doc : PulseSequenceYaml.document) (l : list string)
    (seq : PulseSequence.t (R:=R)) :
  ready (length l) (PulseSequenceYaml.awg_sources self)
    (PulseSequenceYaml.samp_rate self) seq ->
  (Forall (block_ok self doc) l ->
   exists acc',
     for_each (PulseSequenceYaml.add_block self doc) (enumerate l) (seq, [])
     = Ok acc' /\
     ready (length l) (PulseSequenceYaml.awg_sources self)
       (PulseSequenceYaml.samp_rate self) acc'.1) /\
  (forall acc',
     for_each (PulseSequenceYaml.add_block self doc) (enumerate l) (seq, [])
     = Ok acc' ->
     Forall (block_ok self doc) l /\
     ready (length l) (PulseSequenceYaml.awg_sources self)
       (PulseSequenceYaml.samp_rate self) acc'.1 /\
     acc'.2 = (fun block =>
                 (block, block_flags self (default [] (blocks doc !! block))))
              <$> l).
Proof.
  intros Hready.
  destruct (for_each_Ok_iff
              (fun acc : PulseSequence.t (R:=R) * list (string * list string) =>
                 ready (length l) (PulseSequenceYaml.awg_sources self)
                   (PulseSequenceYaml.samp_rate self) acc.1)
              (fun entry : nat * string => block_ok self doc entry.2)
              (PulseSequenceYaml.add_block self doc)
              (enumerate l) (seq, [])) as [Hyes Hno]; [|done|].
  { intros acc [i block] Hacc Hin.
    apply enumerate_lookup, lookup_lt_Some in Hin.
    by apply add_block_ready. }
  assert (Forall (fun entry : nat * string => block_ok self doc entry.2)
            (enumerate l)
          <-> Forall (block_ok self doc) l) as Hall.
  { rewrite !Forall_forall. split.
    - intros Hl block [i Hi]%list_elem_of_lookup.
      apply (Hl (i, block)). by apply enumerate_lookup.
    - intros Hl [i block] Hin%enumerate_lookup. apply Hl.
      by eapply list_elem_of_lookup_2. }
  split.
  - intros Hl. apply Hyes. by apply Hall.
  - intros acc' Hrun. destruct (Hno acc' Hrun) as [Hl Hready'].
    split; [by apply Hall|]. split; [done|].
    apply (for_each_appends snd
             (fun '(_, block) =>
                [(block, block_flags self (default [] (blocks doc !! block)))]))
      in Hrun.
    + rewrite Hrun. cbn [snd app]. apply enumerate_bind.
    + intros acc entry acc'' _ Hstep.
      rewrite (add_block_flags self doc acc acc'' entry Hstep).
      by destruct entry.
Qed.

Lemma make_ready N sources rate (seq : PulseSequence.t (R:=R)) flag_channels
    sequencer sequencernames :
  ready N sources rate seq ->
  exists archive,
    PulseSequence.make
      (PulseSequence.set_sequencernames sequencernames
         (PulseSequence.set_sequencer sequencer
            (PulseSequence.set_flag_channels (Some flag_channels) seq)))
    = Ok archive /\
    PulseSequence.saved_flag_channels archive = flag_channels /\
    PulseSequence.saved_sequencer archive = sequencer /\
    PulseSequence.saved_sequencernames archive = sequencernames.
Proof.
  intros (Hwf & _). eexists. split.
  - by apply (PulseSequenceFacts.make_spec _ flag_channels).
  - done.
Qed.

End translate_run.

(** ** The array of a translation *)

Section translate_array.
Context {R : Type} `{Float64 R} `{EqDecision R}.

(** The row and the pulse of every [add_pulse] that the translation of a
    block calls, in the order of the calls. *)
Definition block_writes (self : PulseSequenceYaml.t (R:=R))
    (b : list (string * list (string * PulseSequenceYaml.pulse R)))
  : list (Z * PulseSequenceYaml.pulse R) :=
  b ≫= (fun entry =>
          match PulseSequenceYaml.channel_mapping self !! entry.1 with
          | Some (inl row) => (fun p => (row, p)) <$> values entry.2
          | _ => []
          end).

(** The write [w] reaches sample [j] of row [r]. *)
Definition lands (s : PulseSequence.t (R:=R)) (r j : nat)
    (w : Z * PulseSequenceYaml.pulse R) : bool :=
  match np_index (7 * length (PulseSequence.awg_sources s)) w.1 with
  | Ok r' =>
      bool_decide
        (r' = r /\
         ((PulseSequenceFacts.pulse_range s (PulseSequenceYaml.start w.2)
             (PulseSequenceYaml.duration w.2) "time").1 <= j
          < (PulseSequenceFacts.pulse_range s (PulseSequenceYaml.start w.2)
               (PulseSequenceYaml.duration w.2) "time").1
            + (PulseSequenceFacts.pulse_range s (PulseSequenceYaml.start w.2)
                 (PulseSequenceYaml.duration w.2) "time").2)%nat)
  | Raise _ => false
  end.

Definition overwrite (s : PulseSequence.t (R:=R)) (r j : nat)
    (old : option R) (w : Z * PulseSequenceYaml.pulse R) : option R :=
  if lands s r j w
  then PulseSequenceFacts.pulse_value s (PulseSequenceYaml.amplitude w.2)
         (Some (PulseSequenceYaml.frequency w.2, PulseSequenceYaml.phase w.2)) j
  else old.

(** Sample [j] of row [r] after the writes [ws] on zeros: the value of the
    last write that reaches it. *)
Definition written (s : PulseSequence.t (R:=R))
    (ws : list (Z * PulseSequenceYaml.pulse R)) (r j : nat) : option R :=
  foldl (overwrite s r j) (Some f_zero) ws.

(** The object under construction has the sizes and the time axis of the
    fresh object [s0]. *)
Definition like (s0 : PulseSequence.t (R:=R)) (s : PulseSequence.t (R:=R))
  : Prop :=
  PulseSequenceFacts.wf s /\
  PulseSequence.numseqs s = PulseSequence.numseqs s0 /\
  PulseSequence.awg_sources s = PulseSequence.awg_sources s0 /\
  PulseSequence.samp_rate s = PulseSequence.samp_rate s0 /\
  PulseSequence.num_points s = PulseSequence.num_points s0 /\
  PulseSequence.time s = PulseSequence.time s0.

Lemma add_pulse_like (s0 s s' : PulseSequence.t (R:=R)) (i : nat)
    (row : Z) (p : PulseSequenceYaml.pulse R) :
  like s0 s -> (i < PulseSequence.numseqs s0)%nat ->
  PulseSequence.add_pulse s (inl (Z.of_nat i)) (PulseSequenceYaml.start p)
    (PulseSequenceYaml.duration p) row "time" (PulseSequenceYaml.amplitude p)
    (Some (PulseSequenceYaml.frequency p, PulseSequenceYaml.phase p)) = Ok s' ->
  like s0 s' /\
  forall v r j,
    PulseSequenceFacts.sample (PulseSequence.pulses s') v r j
    = if decide (v = i)
      then overwrite s0 r j
             (PulseSequenceFacts.sample (PulseSequence.pulses s) v r j) (row, p)
      else PulseSequenceFacts.sample (PulseSequence.pulses s) v r j.
Proof.
  intros (Hwf & HN & Hsrc & Hrate & Hn & Htime) Hi Hadd.
  destruct (add_pulse_Ok_inv _ _ _ _ _ _ _ _ _ Hadd)
    as (_ & _ & r0 & a & b & s1 & _ & Hr0 & Hidx).
  assert (PulseSequenceFacts.variant_range s (inl (Z.of_nat i)) = Ok (i, 1%nat))
    as Hvar.
  { unfold PulseSequenceFacts.variant_range. by rewrite HN, np_index_nat. }
  destruct (PulseSequenceFacts.add_pulse_spec s (inl (Z.of_nat i))
              (PulseSequenceYaml.start p) (PulseSequenceYaml.duration p) row
              "time" (PulseSequenceYaml.amplitude p)
              (Some (PulseSequenceYaml.frequency p, PulseSequenceYaml.phase p))
              i 1 r0 a b s1 Hwf Hvar Hr0 Hidx)
    as (s'' & Hs'' & Hwf' & Hn' & HN' & Hsrc' & Htime' & Hrate' & Hsample).
  assert (s'' = s') as -> by congruence.
  split.
  { split; [exact Hwf'|]. repeat split; congruence. }
  intros v r j. rewrite Hsample. unfold overwrite, lands. cbn [fst snd].
  rewrite <- Hsrc, Hr0.
  rewrite (PulseSequenceFacts.pulse_range_frame s0 s) by done.
  assert (PulseSequenceFacts.pulse_value s0 (PulseSequenceYaml.amplitude p)
            (Some (PulseSequenceYaml.frequency p, PulseSequenceYaml.phase p)) j
          = PulseSequenceFacts.pulse_value s (PulseSequenceYaml.amplitude p)
              (Some (PulseSequenceYaml.frequency p, PulseSequenceYaml.phase p)) j)
    as -> by (unfold PulseSequenceFacts.pulse_value; by rewrite Htime).
  destruct (decide (v = i)) as [->|Hv].
  - destruct (decide ((i <= i < i + 1)%nat /\ r = r0 /\ _)) as [(_ & -> & Hj)|Hno].
    + by rewrite bool_decide_eq_true_2.
    + rewrite bool_decide_eq_false_2; [done|].
      intros [-> Hj]. apply Hno. split; [lia|done].
  - rewrite decide_False; [done|]. intros (? & _). lia.
Qed.

Lemma add_pulses_like (s0 : PulseSequence.t (R:=R)) (i : nat) (row : Z)
    (l : list (PulseSequenceYaml.pulse R)) (s s' : PulseSequence.t (R:=R)) :
  like s0 s -> (i < PulseSequence.numseqs s0)%nat ->
  for_each
    (fun seq p =>
       PulseSequence.add_pulse seq (inl (Z.of_nat i))
         (PulseSequenceYaml.start p) (PulseSequenceYaml.duration p) row "time"
         (PulseSequenceYaml.amplitude p)
         (Some (PulseSequenceYaml.frequency p, PulseSequenceYaml.phase p)))
    l s = Ok s' ->
  like s0 s' /\
  forall v r j,
    PulseSequenceFacts.sample (PulseSequence.pulses s') v r j
    = if decide (v = i)
      then foldl (overwrite s0 r j)
             (PulseSequenceFacts.sample (PulseSequence.pulses s) v r j)
             ((fun p => (row, p)) <$> l)
      else PulseSequenceFacts.sample (PulseSequence.pulses s) v r j.
Proof.
  intros Hlike Hi. revert s Hlike.
  induction l as [|p l IH]; intros s Hlike; cbn [for_each].
  - intros [= <-]. split; [done|]. intros v r j. by destruct (decide (v = i)).
  - intros Hrun. inv_bind Hrun. rename a into s1.
    destruct (add_pulse_like s0 s s1 i row p Hlike Hi Ha) as [Hlike1 Hs1].
    destruct (IH s1 Hlike1 Hrun) as [Hlike' Hs']. split; [done|].
    intros v r j. rewrite Hs', Hs1. cbn [fmap list_fmap foldl].
    by destruct (decide (v = i)).
Qed.

Lemma block_writes_cons (self : PulseSequenceYaml.t (R:=R))
    (entry : string * list (string * PulseSequenceYaml.pulse R))
    (b : list (string * list (string * PulseSequenceYaml.pulse R))) :
  block_writes self (entry :: b)
  = block_writes self [entry] ++ block_writes self b.
Proof.
  unfold block_writes. rewrite !bind_cons. cbn [mbind list_bind].
  by rewrite app_nil_r.
Qed.

Lemma add_channels_like (self : PulseSequenceYaml.t (R:=R))
    (s0 : PulseSequence.t (R:=R)) (i : nat)
    (b : list (string * list (string * PulseSequenceYaml.pulse R)))
    (acc acc' : PulseSequence.t (R:=R) * list string) :
  like s0 acc.1 -> (i < PulseSequence.numseqs s0)%nat ->
  for_each
    (fun acc '(channel, pulses) =>
       mapped_channel ← getitem (PulseSequenceYaml.channel_mapping self) channel;
       PulseSequenceYaml.add_channel i acc mapped_channel pulses)
    b acc = Ok acc' ->
  like s0 acc'.1 /\
  forall v r j,
    PulseSequenceFacts.sample (PulseSequence.pulses acc'.1) v r j
    = if decide (v = i)
      then foldl (overwrite s0 r j)
             (PulseSequenceFacts.sample (PulseSequence.pulses acc.1) v r j)
             (block_writes self b)
      else PulseSequenceFacts.sample (PulseSequence.pulses acc.1) v r j.
Proof.
  intros Hlike Hi. revert acc Hlike.
  induction b as [|[channel pulses] b IH]; intros [seq flags] Hlike;
    cbn [for_each].
  - intros [= <-]. split; [done|]. intros v r j. by destruct (decide (v = i)).
  - intros Hrun. inv_bind Hrun. destruct a as [seq1 flags1].
    cbn [fst] in *.
    assert (like s0 seq1 /\
            forall v r j,
              PulseSequenceFacts.sample (PulseSequence.pulses seq1) v r j
              = if decide (v = i)
                then foldl (overwrite s0 r j)
                       (PulseSequenceFacts.sample (PulseSequence.pulses seq) v r j)
                       (block_writes self [(channel, pulses)])
                else PulseSequenceFacts.sample (PulseSequence.pulses seq) v r j)
      as [Hlike1 Hs1].
    { unfold block_writes. rewrite bind_cons. cbn [fst snd mbind list_bind].
      rewrite app_nil_r.
      unfold getitem in Ha.
      destruct (PulseSequenceYaml.channel_mapping self !! channel)
        as [[row|flag]|]; cbn [mbind result_bind] in Ha; [| |done].
      - unfold PulseSequenceYaml.add_channel in Ha. inv_bind Ha.
        injection Ha as <- _. by apply add_pulses_like.
      - unfold PulseSequenceYaml.add_channel in Ha. injection Ha as <- _.
        split; [done|]. intros v r j. by destruct (decide (v = i)). }
    destruct (IH (seq1, flags1) Hlike1 Hrun) as [Hlike' Hs']. split; [done|].
    intros v r j. rewrite Hs'. cbn [fst]. rewrite Hs1.
    rewrite (block_writes_cons self (channel, pulses) b), foldl_app.
    by destruct (decide (v = i)).
Qed.

Lemma add_blocks_like (self : PulseSequenceYaml.t (R:=R))
    (doc : PulseSequenceYaml.document) (s0 : PulseSequence.t (R:=R))
    (entries : list (nat * string))
    (acc acc' : PulseSequence.t (R:=R) * list (string * list string)) :
  like s0 acc.1 -> NoDup entries.*1 ->
  Forall (fun entry => (entry.1 < PulseSequence.numseqs s0)%nat) entries ->
  for_each (PulseSequenceYaml.add_block self doc) entries acc = Ok acc' ->
  like s0 acc'.1 /\
  (forall i block r j,
     (i, block) ∈ entries ->
     PulseSequenceFacts.sample (PulseSequence.pulses acc'.1) i r j
     = foldl (overwrite s0 r j)
         (PulseSequenceFacts.sample (PulseSequence.pulses acc.1) i r j)
         (block_writes self (default [] (blocks doc !! block)))) /\
  (forall v r j,
     v ∉ entries.*1 ->
     PulseSequenceFacts.sample (PulseSequence.pulses acc'.1) v r j
     = PulseSequenceFacts.sample (PulseSequence.pulses acc.1) v r j).
Proof.
  revert acc. induction entries as [|[i block] entries IH];
    intros [seq flag_channels] Hlike Hnd Hlt; cbn [for_each].
  - intros [= <-]. split; [done|]. split; [|done].
    by intros i block r j ?%elem_of_nil.
  - cbn [fmap list_fmap fst] in Hnd. apply NoDup_cons in Hnd as [Hi Hnd].
    apply Forall_cons in Hlt as [Hilt Hlt]. cbn [fst] in *.
    intros Hrun. inv_bind Hrun. destruct a as [seq1 flag_channels1].
    unfold PulseSequenceYaml.add_block, getitem in Ha.
    destruct (blocks doc !! block) as [b|] eqn:Hb; cbn [mbind result_bind] in Ha;
      [|done].
    inv_bind Ha. destruct a as [seq1' flags]. injection Ha as -> _.
    destruct (add_channels_like self s0 i b (seq, []) (seq1, flags) Hlike Hilt Ha0)
      as [Hlike1 Hs1]. cbn [fst] in *.
    destruct (IH (seq1, flag_channels1) Hlike1 Hnd Hlt Hrun)
      as (Hlike' & Hin' & Hout').
    split; [done|]. cbn [fst] in *. split.
    + intros i' block' r j [[= -> ->]|Hin]%elem_of_cons.
      * rewrite Hout' by done. rewrite Hs1, decide_True by done.
        by rewrite Hb.
      * rewrite (Hin' i' block' r j Hin), Hs1.
        rewrite decide_False; [done|]. intros ->. apply Hi.
        by apply (list_elem_of_fmap_2' _ _ (i, block')).
    + intros v r j Hv. cbn [fmap list_fmap fst] in Hv.
      apply not_elem_of_cons in Hv as [Hvi Hv].
      rewrite Hout' by done. rewrite Hs1. by rewrite decide_False.
Qed.

Lemma enumerate_fst {A : Type} (l : list A) :
  (enumerate l).*1 = seq 0 (length l).
Proof.
  unfold enumerate.
  change (@pair nat A) with (fun i => @pair nat A (0 + i)%nat).
  generalize 0%nat as a.
  induction l as [|x l IH]; intros a; [done|].
  cbn [imap fmap list_fmap length seq fst]. f_equal; [lia|].
  rewrite <- (IH (S a)). f_equal. apply imap_ext. intros i y _. cbn. f_equal. lia.
Qed.

Lemma written_zeros (s : PulseSequence.t (R:=R)) r j :
  written s [] r j = Some f_zero.
Proof. reflexivity. Qed.

End translate_array.

(** ** Inputs of the further examples *)


(** The sidecar holds the document, which has no numeric total duration, and
    there is no archive. *)
Definition stale_files
  : PulseSequenceYaml.files (PulseSequenceYaml.document (R:=Z))
      (PulseSequence.artifact (R:=Z)) :=
  {| PulseSequenceYaml.yaml_file :=
       Some {| sequencing_order := ["A"%string]; sequencing_repeats := [1];
               yaml_total_duration := Ignore; blocks := ∅ |};
     PulseSequenceYaml.aux_file :=
       Some {| sequencing_order := ["A"%string]; sequencing_repeats := [1];
               yaml_total_duration := Ignore; blocks := ∅ |};
     PulseSequenceYaml.npz_file := None |}.

(** * The properties of the specification *)

(** C1: a block with a single channel holding one pulse (start 2, duration 3),
    compiled under total_duration 10, yields the bit-field/duration pairs
    [(0,2); (2^k,3); (0,5)], with [k] the index the channel is mapped to. *)
Theorem C1_single_pulse_events
    (mapping : gmap string N) (doc : yaml_document Z (pulse Z))
    (block channel name : string) (k : N) :
  sequencing_order doc = [block] ->
  blocks doc !! block
    = Some [(channel, [(name, {| start := 2; duration := 3 |})])] ->
  yaml_total_duration doc = Duration 10 ->
  mapping !! channel = Some k ->
  exists s' cb,
    parse_pulse_sequence_file (__init__ mapping doc) = Ok s' /\
    ps s' !! block = Some cb /\
    zip (cb_channel_bits cb) (cb_durations cb)
      = [(0, 2); (2 ^ Z.of_N k, 3); (0, 5)].
Proof.
  intros Horder Hblock Htotal Hmap.
  eexists _, {| cb_channel_bits := [0; 2 ^ Z.of_N k; 0]; cb_durations := [2; 3; 5] |}.
  split; [|split].
  - unfold parse_pulse_sequence_file.
    change (yaml_sequence (__init__ mapping doc)) with doc.
    rewrite Horder. cbn [for_each].
    rewrite (single_pulse_block mapping doc block channel name k Hblock Htotal Hmap).
    reflexivity.
  - unfold _reset_attributes. cbn [ps set_ps set_segment_durations
      set_channel_bits set_events set_event_channel set_event_durations
      set_event_times].
    apply lookup_insert_eq.
  - reflexivity.
Qed.

Lemma C1_single_pulse_events_witness :
  exists s' cb,
    parse_pulse_sequence_file
      (__init__ example_mapping (example_doc 10 {| start := 2; duration := 3 |}))
    = Ok s' /\
    ps s' !! "A"%string = Some cb /\
    zip (cb_channel_bits cb) (cb_durations cb) = [(0, 2); (2 ^ Z.of_N 3, 3); (0, 5)].
Proof.
  apply (C1_single_pulse_events example_mapping
           (example_doc 10 {| start := 2; duration := 3 |})
           "A" "ch" "p1" 3%N); reflexivity.
Defined.

(** C2, as the code has it: [compile] returns the concatenation, in program
    order, of each block's native bit-field and duration sequences repeated
    its repeat count times (a count below one repeats nothing), so that the
    event count is the sum of repeat count times native length; the waveform
    archive, which is written when the change check answers False, is not
    expanded: it holds one variant per distinct block name and carries the
    repeat counts and the block order beside the array. *)
Theorem C2_repeat_expansion {R : Type} `{Float64 R} `{EqDecision R}
    (mapping : gmap string N) (doc : yaml_document Z (pulse Z)) (s' : t Z)
    (self : PulseSequenceYaml.t (R:=R))
    (fs fs1 fs' : PulseSequenceYaml.files PulseSequenceYaml.document
                    PulseSequence.artifact)
    (analog_doc : PulseSequenceYaml.document) :
  parse_pulse_sequence_file (__init__ mapping doc) = Ok s' ->
  PulseSequenceYaml.yaml_file fs = Some analog_doc ->
  PulseSequenceYaml._sequence_didnt_change fs = Ok (false, fs1) ->
  PulseSequenceYaml.translate_yaml_to_numeric_instructions self fs = Ok fs' ->
  let program := zip (sequencing_order doc) (sequencing_repeats doc) in
  let bits :=
    (fun '(block, repeats) => (cb_channel_bits (native (ps s') block), repeats))
    <$> program in
  let durations :=
    (fun '(block, repeats) => (cb_durations (native (ps s') block), repeats))
    <$> program in
  (forall block repeats,
     (block, repeats) ∈ program -> is_Some (ps s' !! block)) /\
  compile s' = Ok (repeat_expansion bits, repeat_expansion durations) /\
  length (repeat_expansion bits)
  = sum_list ((fun '(native, repeats) => (Z.to_nat repeats * length native)%nat)
              <$> bits) /\
  length (repeat_expansion durations)
  = sum_list ((fun '(native, repeats) => (Z.to_nat repeats * length native)%nat)
              <$> durations) /\
  exists archive,
    PulseSequenceYaml.npz_file fs' = Some archive /\
    length (PulseSequence.final archive)
    = length (remove_dups (sequencing_order analog_doc)) /\
    PulseSequence.saved_sequencer archive = Some (sequencing_repeats analog_doc) /\
    PulseSequence.saved_sequencernames archive
    = Some (sequencing_order analog_doc).
Proof.
  intros Hparse Hyaml Haux Htranslate program bits durations.
  unfold parse_pulse_sequence_file in Hparse.
  change (yaml_sequence (__init__ mapping doc)) with doc in Hparse.
  apply parse_loop_entries in Hparse as (_ & Hentries & Hdoc); [|done].
  change (yaml_sequence (__init__ mapping doc)) with doc in Hdoc.
  assert (forall block repeats,
            (block, repeats) ∈ program -> is_Some (ps s' !! block)) as Hin.
  { intros block repeats Hbr. apply Hentries.
    by apply (elem_of_zip_l _ _ _ _ Hbr). }
  split; [done|]. split.
  { unfold compile. rewrite Hdoc.
    exact (compile_loop (ps s') program [] [] Hin). }
  split; [apply length_repeat_expansion|].
  split; [apply length_repeat_expansion|].
  by eapply translate_spec.
Qed.

Lemma C2_repeat_expansion_witness :
  exists s' fs',
    parse_pulse_sequence_file
      (__init__ example_mapping (example_doc 10 {| start := 2; duration := 3 |}))
    = Ok s' /\
    PulseSequenceYaml.translate_yaml_to_numeric_instructions
      example_translator first_compile = Ok fs' /\
    compile s' = Ok ([0; 8; 0; 0; 8; 0], [2; 3; 5; 2; 3; 5]) /\
    exists archive,
      PulseSequenceYaml.npz_file fs' = Some archive /\
      length (PulseSequence.final archive) = 1%nat.
Proof.
  eexists _, _. split; [vm_compute; reflexivity|].
  split; [vm_compute; reflexivity|].
  match goal with
  | |- compile ?s = _ /\ (exists archive, PulseSequenceYaml.npz_file ?fs = _ /\ _) =>
      destruct (C2_repeat_expansion example_mapping
                  (example_doc 10 {| start := 2; duration := 3 |}) s
                  example_translator first_compile
                  (PulseSequenceYaml.write_aux cache_doc first_compile) fs
                  cache_doc)
        as (_ & Hcompile & _ & _ & archive & Hnpz & Hlen & _)
  end.
  - vm_compute; reflexivity.
  - reflexivity.
  - reflexivity.
  - vm_compute; reflexivity.
  - split; [rewrite Hcompile; vm_compute; reflexivity|].
    exists archive. split; [exact Hnpz|]. rewrite Hlen. reflexivity.
Defined.

(** One block repeated three times: the archive holds one variant, not
    three, and the repeat count is stored beside it. *)
Lemma C2_analog_variants_counterexample :
  exists fs' archive,
    PulseSequenceYaml.translate_yaml_to_numeric_instructions
      example_translator first_compile = Ok fs' /\
    PulseSequenceYaml.npz_file fs' = Some archive /\
    sequencing_repeats cache_doc = [3] /\
    PulseSequence.saved_sequencer archive = Some [3] /\
    length (PulseSequence.final archive) = 1%nat /\
    sum_list ((fun repeats => Z.to_nat repeats * 1)%nat
              <$> sequencing_repeats cache_doc) = 3%nat /\
    1%nat <> 3%nat.
Proof.
  eexists _, _. split; [vm_compute; reflexivity|].
  split; [vm_compute; reflexivity|].
  repeat split; try (vm_compute; reflexivity). lia.
Qed.

(** C3, as the code has it: the merged events are sorted as the tuples
    (time, channel name, event), so that events with equal times stand in the
    order of their channel names and, on one channel, with "down" before
    "up"; the sorted timeline is a rearrangement of the merged one. *)
Theorem C3_events_sorted_as_tuples (s s' : t Z) :
  _sort_pulses s = Ok s' ->
  zip3 s' ≡ₚ zip3 s /\
  forall (i j : nat) (a b : Z * string * string),
    (i < j)%nat -> zip3 s' !! i = Some a -> zip3 s' !! j = Some b ->
    a.1.1 <= b.1.1 /\
    (a.1.1 = b.1.1 ->
     String.leb a.1.2 b.1.2 = true /\
     (a.1.2 = b.1.2 -> String.leb a.2 b.2 = true)).
Proof.
  intros Hsort. apply _sort_pulses_spec in Hsort as (-> & _).
  split; [apply sorted_Permutation|].
  intros i j a b Hij Ha Hb.
  exact (StronglySorted_lookup event_le _ i j a b
           (sorted_events_StronglySorted _) Hij Ha Hb).
Qed.

Lemma C3_events_sorted_as_tuples_witness :
  exists s',
    _sort_pulses (_parse_block (__init__ two_channel_mapping two_channel_doc)
                    two_channel_block) = Ok s' /\
    zip3 s' ≡ₚ zip3 (_parse_block (__init__ two_channel_mapping two_channel_doc)
                       two_channel_block).
Proof.
  eexists. split; [vm_compute; reflexivity|].
  refine (proj1 (C3_events_sorted_as_tuples
                   (_parse_block (__init__ two_channel_mapping two_channel_doc)
                      two_channel_block) _ _)).
  vm_compute; reflexivity.
Defined.

(** The tie-break of the specification: a stable sort on the time alone. *)
Definition stable_sort_by_time (l : list (Z * string * string))
  : list (Z * string * string) :=
  sorted (fun a b => a.1.1 <? b.1.1) l.

(** Channel "b" is enumerated before channel "a" and both rise at time 0: a
    stable tie-break would keep "b" first, the code puts "a" first. *)
Lemma C3_tie_break_counterexample :
  exists s',
    _sort_pulses (_parse_block (__init__ two_channel_mapping two_channel_doc)
                    two_channel_block) = Ok s' /\
    event_channel s' = ["a"; "b"; "a"; "b"]%string /\
    (stable_sort_by_time
       (zip3 (_parse_block (__init__ two_channel_mapping two_channel_doc)
                two_channel_block))).*1.*2 = ["b"; "a"; "b"; "a"]%string /\
    zip3 s' <> stable_sort_by_time
                 (zip3 (_parse_block (__init__ two_channel_mapping two_channel_doc)
                          two_channel_block)).
Proof.
  eexists. split; [vm_compute; reflexivity|].
  split; [vm_compute; reflexivity|]. split; [vm_compute; reflexivity|].
  vm_compute. discriminate.
Qed.

(** C4, as the code has it: [make] copies each source's analog row through
    unchanged and packs the six marker rows that follow it into one byte per
    sample, marker row [k] setting bit [7 - k] when its value is positive;
    under this mapping the marker values {0,1,0,1,0,1} at bit offsets 0..5
    pack to the byte 0b01010100 = 84 (bits 6, 4 and 2). *)
Theorem C4_marker_rows_packed {R : Type} `{Float64 R}
    (s : PulseSequence.t (R:=R)) (flags : list (string * list string)) :
  PulseSequenceFacts.wf s ->
  PulseSequence.flag_channels s = Some flags ->
  exists archive,
    PulseSequence.make s = Ok archive /\
    length (PulseSequence.final archive) = PulseSequence.numseqs s /\
    forall v si j,
      (v < PulseSequence.numseqs s)%nat ->
      (si < length (PulseSequence.awg_sources s))%nat ->
      (j < PulseSequence.num_points s)%nat ->
      PulseSequenceFacts.sample (PulseSequence.final archive) v (2 * si) j
      = PulseSequenceFacts.sample (PulseSequence.pulses s) v (7 * si) j /\
      exists markers : list R,
        length markers = 6%nat /\
        (forall k, (k < 6)%nat ->
           PulseSequenceFacts.sample (PulseSequence.pulses s) v (7 * si + 1 + k) j
           = markers !! k) /\
        PulseSequenceFacts.sample (PulseSequence.final archive) v (2 * si + 1) j
        = Some (f_of_uint8 (PulseSequenceFacts.marker_byte markers)) /\
        0 <= PulseSequenceFacts.marker_byte markers < 256 /\
        (forall k m, markers !! k = Some m ->
           Z.testbit (PulseSequenceFacts.marker_byte markers) (7 - Z.of_nat k)
           = f_pos m) /\
        (f_pos <$> markers = [false; true; false; true; false; true] ->
         PulseSequenceFacts.marker_byte markers = 84).
Proof.
  intros Hwf Hflags. eexists. split; [by apply PulseSequenceFacts.make_spec|].
  cbn [PulseSequence.final]. split.
  { rewrite length_fmap. by destruct Hwf as (_ & ? & _). }
  intros v si j Hv Hsi Hj.
  destruct (PulseSequenceFacts.sample_final s v si j Hwf Hv Hsi Hj)
    as (Hanalog & markers & Hlen & Hmarkers & Hpacked).
  split; [done|]. exists markers.
  split; [done|]. split; [done|]. split; [done|].
  split; [by apply PulseSequenceFacts.marker_byte_bound|].
  split; [|apply PulseSequenceFacts.marker_byte_alternating].
  intros k m. by apply PulseSequenceFacts.marker_byte_testbit.
Qed.

Lemma C4_marker_rows_packed_witness :
  exists archive,
    PulseSequence.make alternating_sequence = Ok archive /\
    length (PulseSequence.final archive) = 1%nat.
Proof.
  destruct (C4_marker_rows_packed alternating_sequence []
              alternating_sequence_wf eq_refl)
    as (archive & Hmake & Hlen & _).
  exists archive. split; [exact Hmake|exact Hlen].
Defined.

(** The marker values {0,1,0,1,0,1} at bit offsets 0..5 pack to 84 =
    0b01010100, not to 168 = 0b10101000. *)
Lemma C4_alternating_markers_counterexample :
  (forall k : nat, (k < 6)%nat ->
     PulseSequenceFacts.sample (PulseSequence.pulses alternating_sequence)
       0 (1 + k) 0
     = [0; 1; 0; 1; 0; 1] !! k) /\
  PulseSequence.make alternating_sequence
  = Ok {| PulseSequence.final := [[[0; 0; 0; 0]; [84; 84; 84; 84]]];
          PulseSequence.saved_sequencer := None;
          PulseSequence.saved_sequencernames := None;
          PulseSequence.saved_flag_channels := [] |} /\
  84 <> 168.
Proof.
  split; [|split; [vm_compute; reflexivity|lia]].
  intros k Hk. destruct k as [|[|[|[|[|[|k]]]]]]; [..|lia]; reflexivity.
Qed.

(** C5: two pulses added in order to one channel, the start and the duration
    of each converted to its index range: every sample that lies in both
    ranges holds the value of the later pulse, whatever the earlier one
    wrote there. *)
Theorem C5_later_pulse_overwrites {R : Type} `{Float64 R}
    (s : PulseSequence.t (R:=R)) (numseq : Z + Z * Z) (channel : Z)
    (v0 n r : nat)
    (start1 duration1 : R) (inputtype1 : string) (amplitude1 : R)
    (freq1 : option (R * R))
    (start2 duration2 : R) (inputtype2 : string) (amplitude2 : R)
    (freq2 : option (R * R))
    (first1 stop1 first2 stop2 : Z) (q1 q2 : PulseSequence.t (R:=R)) :
  PulseSequenceFacts.wf s ->
  PulseSequenceFacts.variant_range s numseq = Ok (v0, n) ->
  np_index (7 * length (PulseSequence.awg_sources s)) channel = Ok r ->
  PulseSequence.index_range s start1 duration1 inputtype1
  = Ok (first1, stop1, q1) ->
  PulseSequence.index_range s start2 duration2 inputtype2
  = Ok (first2, stop2, q2) ->
  exists s1 s2,
    PulseSequence.add_pulse s numseq start1 duration1 channel inputtype1
      amplitude1 freq1 = Ok s1 /\
    PulseSequence.add_pulse s1 numseq start2 duration2 channel inputtype2
      amplitude2 freq2 = Ok s2 /\
    forall v j,
      (v0 <= v < v0 + n)%nat ->
      ((PulseSequenceFacts.pulse_range s start1 duration1 inputtype1).1 <= j
       < (PulseSequenceFacts.pulse_range s start1 duration1 inputtype1).1
         + (PulseSequenceFacts.pulse_range s start1 duration1 inputtype1).2)%nat ->
      ((PulseSequenceFacts.pulse_range s start2 duration2 inputtype2).1 <= j
       < (PulseSequenceFacts.pulse_range s start2 duration2 inputtype2).1
         + (PulseSequenceFacts.pulse_range s start2 duration2 inputtype2).2)%nat ->
      exists x,
        PulseSequenceFacts.pulse_value s amplitude2 freq2 j = Some x /\
        PulseSequenceFacts.sample (PulseSequence.pulses s2) v r j = Some x.
Proof.
  intros Hwf Hvar Hch Hidx1 Hidx2.
  destruct (PulseSequenceFacts.add_pulse_spec s numseq start1 duration1 channel
              inputtype1 amplitude1 freq1 v0 n r first1 stop1 q1
              Hwf Hvar Hch Hidx1)
    as (s1 & Hs1 & Hwf1 & Hn1 & Hq1 & Ha1 & Ht1 & Hr1 & _).
  destruct (PulseSequenceFacts.index_range_rate s s1 start2 duration2
              inputtype2 first2 stop2 q2 Hr1 Hidx2) as [q2' Hidx2'].
  destruct (PulseSequenceFacts.add_pulse_spec s1 numseq start2 duration2 channel
              inputtype2 amplitude2 freq2 v0 n r first2 stop2 q2' Hwf1)
    as (s2 & Hs2 & _ & _ & _ & _ & _ & _ & Hsample).
  { destruct numseq as [i|[a b]]; simpl in *; by rewrite Hq1. }
  { by rewrite Ha1. }
  { done. }
  exists s1, s2. split; [done|]. split; [done|].
  intros v j Hv _ Hj.
  rewrite Hsample, (PulseSequenceFacts.pulse_range_frame s s1) by done.
  rewrite decide_True by done.
  assert (PulseSequenceFacts.pulse_value s1 amplitude2 freq2 j
          = PulseSequenceFacts.pulse_value s amplitude2 freq2 j) as ->.
  { unfold PulseSequenceFacts.pulse_value. by rewrite Ht1. }
  assert (j < length (PulseSequence.time s))%nat as Hlt.
  { destruct Hwf as [-> _].
    pose proof (slice_range_le (PulseSequence.num_points s) first2 stop2)
      as Hle.
    unfold PulseSequenceFacts.pulse_range in Hj. rewrite Hidx2 in Hj. lia. }
  unfold PulseSequenceFacts.pulse_value.
  destruct freq2 as [[frequency phase]|]; [|eauto].
  destruct (lookup_lt_is_Some_2 _ _ Hlt) as [t Ht]. rewrite Ht. eauto.
Qed.

Lemma C5_later_pulse_overwrites_witness :
  exists s1 s2,
    PulseSequence.add_pulse example_sequence (inl 0) 0 3 0 "points" 5 None
    = Ok s1 /\
    PulseSequence.add_pulse s1 (inl 0) 2 2 0 "points" 7 None = Ok s2 /\
    PulseSequenceFacts.sample (PulseSequence.pulses s2) 0 0 2 = Some 7.
Proof.
  assert (PulseSequence.index_range example_sequence 0 3 "points"
          = Ok (0, 3, example_sequence)) as Hidx1 by (vm_compute; reflexivity).
  assert (PulseSequence.index_range example_sequence 2 2 "points"
          = Ok (2, 4, example_sequence)) as Hidx2 by (vm_compute; reflexivity).
  destruct (C5_later_pulse_overwrites example_sequence (inl 0) 0 0 1 0
              0 3 "points" 5 None 2 2 "points" 7 None
              0 3 2 4 example_sequence example_sequence
              example_sequence_wf eq_refl eq_refl Hidx1 Hidx2)
    as (s1 & s2 & H1 & H2 & Hoverlap).
  exists s1, s2. split; [exact H1|]. split; [exact H2|].
  destruct (Hoverlap 0%nat 2%nat) as (x & Hx & Hsample).
  - lia.
  - vm_compute. lia.
  - vm_compute. lia.
  - rewrite Hsample, <- Hx. reflexivity.
Defined.

(** C6, as the code has it: in every run of the compiler the two sequences
    enter pruning with one length, so that no index is ever out of range, no
    warning is emitted, and the pruned sequences have one length and no zero
    duration; an index that one of the lists does not have is not fatal: the
    pop is skipped with a warning and pruning goes on. *)
Theorem C6_pruning_in_lockstep
    (mapping : gmap string N) (doc : yaml_document Z (pulse Z)) (s' : t Z) :
  parse_pulse_sequence_file (__init__ mapping doc) = Ok s' ->
  warned s' = [] /\
  (forall block cb,
     ps s' !! block = Some cb ->
     length (cb_channel_bits cb) = length (cb_durations cb) /\
     Forall (fun d => d <> 0) (cb_durations cb)) /\
  (forall s s2 : t Z, channel_bits s = [] -> _compute_channel_bits s = Ok s2 ->
     length (channel_bits s2) = length (event_durations s2) /\
     warned s2 = warned s) /\
  (forall s : t Z, length (channel_bits s) = length (event_durations s) ->
     length (channel_bits (_pop_uncessary_entries s))
       = length (event_durations (_pop_uncessary_entries s)) /\
     warned (_pop_uncessary_entries s) = warned s) /\
  (forall (s : t Z) i, (length (channel_bits s) <= i)%nat ->
     channel_bits (pop_step s i) = channel_bits s /\
     last (warned (pop_step s i))
       = Some (BadChannelBitsIndex i (length (channel_bits s)))) /\
  (forall (s : t Z) i, (length (event_durations s) <= i)%nat ->
     event_durations (pop_step s i) = event_durations s /\
     BadDurationsIndex i (length (event_durations s)) ∈ warned (pop_step s i)).
Proof.
  intros Hparse.
  apply parse_pulse_sequence_file_spec in Hparse as (Hw & _ & Hps).
  split; [done|]. split; [|split; [|split; [|split]]].
  - intros block cb Hcb.
    destruct (Hps _ _ Hcb) as (times & bits & _ & Hlen & -> & ->).
    split; [|apply keep_self_nonzero].
    by apply keep_length.
  - intros s s2 Hnil Hbits.
    apply _compute_channel_bits_spec in Hbits
      as (bits & _ & Hlen & -> & -> & -> & _); [|done].
    split; [|done]. apply keep_length.
    rewrite !length_app, Hlen. f_equal.
    destruct (leading (event_times s)) as [|t0 [|]] eqn:Hlead; try done.
    unfold leading in Hlead. destruct (event_times s) as [|t ?]; [done|].
    by destruct (t =? 0).
  - intros s Hlen.
    destruct (pop_uncessary_entries_spec s Hlen) as (-> & -> & -> & _).
    split; [|done]. by apply keep_length.
  - apply pop_step_skips.
  - apply pop_step_skips_durations.
Qed.

(** The two pulses of [two_channel_doc] rise together and fall together: of
    the three segments between the four events, the first and the last have
    length 0, and pruning pops them at the indices 2 and 0. *)
Lemma C6_pruning_in_lockstep_witness :
  let s := set_channel_bits [1; 3; 2]
             (set_event_durations [0; 1; 0]
                (__init__ two_channel_mapping two_channel_doc)) in
  sorted (fun a b => (b <? a)%nat) (indices_to_pop (event_durations s))
  = [2%nat; 0%nat] /\
  event_durations (_pop_uncessary_entries s) = [1] /\
  channel_bits (_pop_uncessary_entries s) = [3] /\
  warned (_pop_uncessary_entries s) = warned s /\
  exists s',
    parse_pulse_sequence_file (__init__ two_channel_mapping two_channel_doc)
    = Ok s' /\
    ps s' !! "A"%string
    = Some {| cb_channel_bits := [3]; cb_durations := [1] |} /\
    warned s' = [].
Proof.
  intros s.
  assert (parse_pulse_sequence_file (__init__ two_channel_mapping two_channel_doc)
          = Ok (set_ps {[ "A"%string :=
                            {| cb_channel_bits := [3]; cb_durations := [1] |} ]}
                  (__init__ two_channel_mapping two_channel_doc))) as Hparse
    by (vm_compute; reflexivity).
  destruct (C6_pruning_in_lockstep two_channel_mapping two_channel_doc _ Hparse)
    as (Hwarned & _ & _ & Hpop & _).
  split; [vm_compute; reflexivity|].
  split; [vm_compute; reflexivity|].
  split; [vm_compute; reflexivity|].
  split; [by apply (Hpop s)|].
  eexists. split; [exact Hparse|].
  split; [vm_compute; reflexivity|exact Hwarned].
Defined.

(** A bit-field list that is one entry short: the pop at index 1 is skipped
    for it with a warning, and pruning returns. *)
Lemma C6_mismatch_is_skipped :
  let s := set_channel_bits [7]
             (set_event_durations [1; 0]
                (__init__ example_mapping
                   (example_doc 5 {| start := 0; duration := 5 |}))) in
  event_durations (_pop_uncessary_entries s) = [1] /\
  channel_bits (_pop_uncessary_entries s) = [7] /\
  warned (_pop_uncessary_entries s) = [BadChannelBitsIndex 1 1].
Proof. repeat split; vm_compute; reflexivity. Qed.

(** C7, as the code has it: for every block compiled under a numeric total
    duration from a document whose times are ints, the final durations of
    the block (trailing gap synthesized, leading zero segment inserted, zero
    durations pruned) add up to the declared total; on float times every
    difference is rounded, and the sum can miss the total. *)
Theorem C7_durations_sum_to_total
    (mapping : gmap string N) (doc : yaml_document Z (pulse Z)) (T : Z)
    (s' : t Z) (block : string) (cb : compiled_block Z) :
  yaml_total_duration doc = Duration T ->
  parse_pulse_sequence_file (__init__ mapping doc) = Ok s' ->
  ps s' !! block = Some cb ->
  py_sum (cb_durations cb) = T.
Proof.
  intros HT Hparse Hcb.
  apply parse_pulse_sequence_file_spec in Hparse as (_ & _ & Hps).
  destruct (Hps _ _ Hcb) as (times & bits & Hne & _ & _ & ->).
  rewrite py_sum_int, keep_self_sum, HT. by apply raw_durations_sum.
Qed.

Lemma C7_durations_sum_to_total_witness :
  exists s' cb,
    parse_pulse_sequence_file
      (__init__ example_mapping (example_doc 10 {| start := 2; duration := 3 |}))
    = Ok s' /\
    ps s' !! "A"%string = Some cb /\
    py_sum (cb_durations cb) = 10.
Proof.
  eexists _, _. split; [vm_compute; reflexivity|].
  split; [vm_compute; reflexivity|].
  eapply (C7_durations_sum_to_total example_mapping
            (example_doc 10 {| start := 2; duration := 3 |}) 10 _ "A");
    vm_compute; reflexivity.
Defined.

(** The block of [float_doc] is declared 0.9 us long. Its pulse ends at
    [0.27 + 0.07], the double 0.34; the pulse segment lasts [0.34 - 0.27] and
    the trailing gap [0.9 - 0.34]. Added as doubles, from the left or from
    the right, the three durations give 0.9000000000000001; added without
    any rounding, as the numbers that they stand for, they exceed the double
    0.9 by [2 ** -54]. *)
Lemma C7_float_durations_counterexample :
  exists s' cb units total,
    parse_pulse_sequence_file (__init__ example_mapping float_doc) = Ok s' /\
    ps s' !! "A"%string = Some cb /\
    cb_durations cb
    = [0.27; PrimFloat.sub 0.34 0.27; PrimFloat.sub 0.9 0.34]%float /\
    py_sum (cb_durations cb) = 0.9000000000000001%float /\
    foldr n_add n_zero (cb_durations cb) = 0.9000000000000001%float /\
    n_eqb (py_sum (cb_durations cb)) 0.9%float = false /\
    mapM float_units (cb_durations cb) = Some units /\
    float_units 0.9%float = Some total /\
    sum_Z units = total + 2 ^ (1074 - 54).
Proof.
  eexists _, _, _, _. split; [vm_compute; reflexivity|].
  split; [vm_compute; reflexivity|].
  repeat split; vm_compute; reflexivity.
Qed.

(** C8, as the code has it: of two calls in a row on the same specification
    the second returns true; the first returns false exactly when the
    sidecar is missing or holds a document that Python's [==] tells from the
    specification, and true otherwise, as when the sidecar holds the
    specification itself. *)
Theorem C8_change_cache_twice {T P A : Type} `{EqDecision T} `{EqDecision P}
    (fs : PulseSequenceYaml.files (yaml_document T P) A)
    (spec : yaml_document T P) :
  PulseSequenceYaml.yaml_file fs = Some spec ->
  exists (first : bool) (fs1 fs2 : PulseSequenceYaml.files (yaml_document T P) A),
    PulseSequenceYaml._sequence_didnt_change fs = Ok (first, fs1) /\
    PulseSequenceYaml.yaml_file fs1 = Some spec /\
    PulseSequenceYaml._sequence_didnt_change fs1 = Ok (true, fs2) /\
    (first = false <->
     (forall previous,
        PulseSequenceYaml.aux_file fs = Some previous ->
        document_eqb previous spec = false)) /\
    (PulseSequenceYaml.aux_file fs = Some spec -> first = true).
Proof.
  intros Hspec. unfold PulseSequenceYaml._sequence_didnt_change.
  rewrite Hspec. unfold py_eqb, yaml_document_py_eq.
  destruct (PulseSequenceYaml.aux_file fs) as [previous|] eqn:Haux.
  - eexists _, _, _. split; [reflexivity|]. cbn. rewrite Hspec.
    split; [done|]. split; [by rewrite document_eqb_refl|]. split.
    + split; [by intros Hfirst ? [= <-]|]. intros Hall. by apply Hall.
    + intros [= ->]. apply document_eqb_refl.
  - eexists _, _, _. split; [reflexivity|]. cbn. rewrite Hspec.
    split; [done|]. split; [by rewrite document_eqb_refl|]. done.
Qed.

Lemma C8_change_cache_twice_witness :
  exists (first : bool) fs1 fs2,
    PulseSequenceYaml._sequence_didnt_change
      {| PulseSequenceYaml.yaml_file := Some cache_doc;
         PulseSequenceYaml.aux_file := None;
         PulseSequenceYaml.npz_file := @None (PulseSequence.artifact (R:=Z)) |}
    = Ok (first, fs1) /\
    PulseSequenceYaml.yaml_file fs1 = Some cache_doc /\
    PulseSequenceYaml._sequence_didnt_change fs1 = Ok (true, fs2) /\
    first = false.
Proof.
  destruct (C8_change_cache_twice
              {| PulseSequenceYaml.yaml_file := Some cache_doc;
                 PulseSequenceYaml.aux_file := None;
                 PulseSequenceYaml.npz_file :=
                   @None (PulseSequence.artifact (R:=Z)) |}
              cache_doc eq_refl)
    as (first & fs1 & fs2 & Hfirst & Hyaml & Hsecond & Hiff & _).
  exists first, fs1, fs2. split; [exact Hfirst|]. split; [exact Hyaml|].
  split; [exact Hsecond|]. apply Hiff. intros previous. discriminate.
Defined.

(** The sidecar already holds the specification, as after any earlier
    compile, or holds it with the channels of a block in another order, as
    [yaml.dump] writes them: the first of two calls returns true. *)
Lemma C8_first_call_true_counterexample :
  PulseSequenceYaml._sequence_didnt_change
    {| PulseSequenceYaml.yaml_file := Some cache_doc;
       PulseSequenceYaml.aux_file := Some cache_doc;
       PulseSequenceYaml.npz_file := @None (PulseSequence.artifact (R:=Z)) |}
  = Ok (true,
        {| PulseSequenceYaml.yaml_file := Some cache_doc;
           PulseSequenceYaml.aux_file := Some cache_doc;
           PulseSequenceYaml.npz_file := None |}) /\
  dumped_cache_doc <> cache_doc /\
  PulseSequenceYaml._sequence_didnt_change
    {| PulseSequenceYaml.yaml_file := Some cache_doc;
       PulseSequenceYaml.aux_file := Some dumped_cache_doc;
       PulseSequenceYaml.npz_file := @None (PulseSequence.artifact (R:=Z)) |}
  = Ok (true,
        {| PulseSequenceYaml.yaml_file := Some cache_doc;
           PulseSequenceYaml.aux_file := Some cache_doc;
           PulseSequenceYaml.npz_file := None |}).
Proof.
  split; [vm_compute; reflexivity|]. split; [|vm_compute; reflexivity].
  intros Heq. apply (f_equal (fun d => blocks d !! "A"%string)) in Heq.
  vm_compute in Heq. discriminate.
Qed.

(** C9: a pulse whose first index is not negative and whose end index lies
    beyond [num_points] raises nothing: the samples from its first index up
    to the end of the row are written, the rest of the pulse is dropped, and
    the array keeps its shape. *)
Theorem C9_write_clipped_to_the_row {R : Type} `{Float64 R}
    (s : PulseSequence.t (R:=R)) (numseq : Z + Z * Z) (channel : Z)
    (v0 n r : nat) (start duration : R) (inputtype : string) (amplitude : R)
    (freq : option (R * R)) (first stop : Z) (s1 : PulseSequence.t (R:=R)) :
  PulseSequenceFacts.wf s ->
  PulseSequenceFacts.variant_range s numseq = Ok (v0, n) ->
  np_index (7 * length (PulseSequence.awg_sources s)) channel = Ok r ->
  PulseSequence.index_range s start duration inputtype = Ok (first, stop, s1) ->
  0 <= first ->
  Z.of_nat (PulseSequence.num_points s) < stop ->
  exists s',
    PulseSequence.add_pulse s numseq start duration channel inputtype
      amplitude freq = Ok s' /\
    PulseSequence.num_points s' = PulseSequence.num_points s /\
    PulseSequence.numseqs s' = PulseSequence.numseqs s /\
    PulseSequence.awg_sources s' = PulseSequence.awg_sources s /\
    PulseSequenceFacts.shaped (PulseSequence.numseqs s)
      (7 * length (PulseSequence.awg_sources s)) (PulseSequence.num_points s)
      (PulseSequence.pulses s') /\
    (forall v' r' j,
       PulseSequenceFacts.sample (PulseSequence.pulses s') v' r' j
       = if decide ((v0 <= v' < v0 + n)%nat /\ r' = r /\
                    (Z.to_nat first <= j < PulseSequence.num_points s)%nat)
         then PulseSequenceFacts.pulse_value s amplitude freq j
         else PulseSequenceFacts.sample (PulseSequence.pulses s) v' r' j) /\
    (forall v' r' j,
       (PulseSequence.num_points s <= j)%nat ->
       PulseSequenceFacts.sample (PulseSequence.pulses s') v' r' j = None).
Proof.
  intros Hwf Hvar Hch Hidx Hfirst Hstop.
  destruct (PulseSequenceFacts.add_pulse_spec s numseq start duration channel
              inputtype amplitude freq v0 n r first stop s1 Hwf Hvar Hch Hidx)
    as (s' & Hs' & Hwf' & Hn & Hq & Ha & _ & _ & Hsample).
  exists s'. split; [done|]. split; [done|]. split; [done|]. split; [done|].
  destruct Hwf' as [_ Hshape]. rewrite Hn, Hq, Ha in Hshape.
  split; [done|]. split.
  - intros v' r' j. rewrite Hsample.
    unfold PulseSequenceFacts.pulse_range. rewrite Hidx.
    unfold slice_range, slice_bound. cbn [fst snd].
    destruct (Z.ltb_spec first 0) as [?|_]; [lia|].
    destruct (Z.ltb_spec stop 0) as [?|_]; [lia|].
    destruct (decide ((v0 <= v' < v0 + n)%nat /\ r' = r /\
                      (Z.to_nat first <= j < PulseSequence.num_points s)%nat))
      as [(Hv & Hr & Hj)|Hout].
    + rewrite decide_True; [done|]. split; [done|]. split; [done|]. lia.
    + rewrite decide_False; [done|]. intros (Hv & Hr & Hj). apply Hout.
      split; [done|]. split; [done|]. lia.
  - intros v' r' j Hj.
    by eapply PulseSequenceFacts.sample_out_of_range.
Qed.

Lemma C9_write_clipped_to_the_row_witness :
  exists s',
    PulseSequence.add_pulse example_sequence (inl 0) 2 9 6 "points" 1 None
    = Ok s' /\
    PulseSequence.num_points s' = 4%nat /\
    PulseSequenceFacts.sample (PulseSequence.pulses s') 0 6 3 = Some 1 /\
    PulseSequenceFacts.sample (PulseSequence.pulses s') 0 6 4 = None.
Proof.
  assert (PulseSequence.index_range example_sequence 2 9 "points"
          = Ok (2, 11, example_sequence)) as Hidx by (vm_compute; reflexivity).
  destruct (C9_write_clipped_to_the_row example_sequence (inl 0) 6 0 1 6
              2 9 "points" 1 None 2 11 example_sequence
              example_sequence_wf eq_refl eq_refl Hidx)
    as (s' & Hs' & Hn & _ & _ & _ & Hsample & Hdropped).
  - lia.
  - vm_compute. reflexivity.
  - exists s'. split; [exact Hs'|]. split; [exact Hn|]. split.
    + rewrite Hsample. reflexivity.
    + apply Hdropped. vm_compute. lia.
Defined.

(** C10: when the last event of a block lies beyond a numeric total
    duration, the synthesized trailing segment is negative and is still the
    last segment of the block's final output: pruning removes zeros only. *)
Theorem C10_negative_trailing_segment
    (mapping : gmap string N) (doc : yaml_document Z (pulse Z))
    (block : string) (b : ps_block Z) (s1 s' : t Z) (t_last T : Z) :
  sequencing_order doc = [block] ->
  blocks doc !! block = Some b ->
  yaml_total_duration doc = Duration T ->
  _sort_pulses (_parse_block (__init__ mapping doc) b) = Ok s1 ->
  last (event_times s1) = Some t_last ->
  T < t_last ->
  parse_pulse_sequence_file (__init__ mapping doc) = Ok s' ->
  exists cb,
    ps s' !! block = Some cb /\
    last (cb_durations cb) = Some (T - t_last) /\
    T - t_last < 0.
Proof.
  intros Horder Hblock HT Hsort Hlast Hlt Hparse.
  unfold parse_pulse_sequence_file in Hparse.
  change (yaml_sequence (__init__ mapping doc)) with doc in Hparse.
  rewrite Horder in Hparse. cbn [for_each] in Hparse.
  inv_bind Hparse. injection Hparse as <-.
  apply parse_one_spec in Ha
    as (b' & s1' & bits & cb & Hb' & Hsort' & Hcb & Hps & _); [|done].
  change (yaml_sequence (__init__ mapping doc)) with doc in Hb'.
  assert (b' = b) as -> by congruence.
  assert (s1' = s1) as -> by congruence.
  exists cb. rewrite Hps, lookup_insert_eq. split; [done|]. split; [|lia].
  destruct Hcb as (_ & _ & _ & ->).
  change (total_duration (__init__ mapping doc)) with (yaml_total_duration doc).
  rewrite HT, keep_self_filter.
  unfold raw_durations, trailing. rewrite Hlast.
  destruct (Z.eqb_spec t_last T) as [->|_]; [lia|].
  rewrite !filter_app, !app_assoc, filter_cons_True by lia.
  apply last_snoc.
Qed.

Lemma C10_negative_trailing_segment_witness :
  exists s',
    parse_pulse_sequence_file
      (__init__ example_mapping (example_doc 4 {| start := 2; duration := 3 |}))
    = Ok s' /\
    exists cb,
      ps s' !! "A"%string = Some cb /\
      last (cb_durations cb) = Some (4 - 5) /\
      4 - 5 < 0.
Proof.
  eexists. split; [vm_compute; reflexivity|].
  eapply (C10_negative_trailing_segment example_mapping
            (example_doc 4 {| start := 2; duration := 3 |}) "A"
            [("ch"%string, [("p1"%string, {| start := 2; duration := 3 |})])]
            _ _ 5 4);
    vm_compute; reflexivity.
Defined.

(** * Further properties of the digital event compiler *)

(** X1: [parse_pulse_sequence_file] returns exactly when every block named in
    [sequencing_order] is an entry of the document, holds one pulse at least,
    and every channel of it that holds a pulse is a key of the channel
    mapping; a channel without pulses need not be mapped. *)
Theorem parse_returns_iff (mapping : gmap string N) (doc : yaml_document Z (pulse Z)) :
  (exists s', parse_pulse_sequence_file (__init__ mapping doc) = Ok s') <->
  forall block, block ∈ sequencing_order doc ->
    exists b,
      blocks doc !! block = Some b /\
      (exists channel channel_pulses,
         (channel, channel_pulses) ∈ b /\ channel_pulses <> []) /\
      (forall channel channel_pulses,
         (channel, channel_pulses) ∈ b -> channel_pulses <> [] ->
         is_Some (mapping !! channel)).
Proof.
  unfold parse_pulse_sequence_file. cbn [yaml_sequence __init__]. split.
  - intros [s' Hrun].
    apply parse_loop_clean in Hrun as (_ & Hall & _); [|apply init_clean].
    cbn [channel_mapping yaml_sequence __init__] in Hall.
    rewrite Forall_forall in Hall. intros block Hin.
    destruct (Hall block Hin) as (b & Hb & Hne & Hm). exists b.
    split; [done|]. split; [by apply block_events_not_nil|].
    by apply block_events_mapped.
  - intros Hall. apply parse_loop_Ok; [apply init_clean|].
    apply Forall_forall. intros block Hin.
    destruct (Hall block Hin) as (b & Hb & Hne & Hm). exists b.
    split; [done|]. split; [by apply block_events_not_nil|].
    by apply block_events_mapped.
Qed.

(** X2: after [parse_pulse_sequence_file] the scratch lists of the object are
    empty again, and [ps] has an entry for the blocks named in
    [sequencing_order] and for no other key. *)
Theorem parse_resets_and_fills (mapping : gmap string N)
    (doc : yaml_document Z (pulse Z)) (s' : t Z) :
  parse_pulse_sequence_file (__init__ mapping doc) = Ok s' ->
  event_times s' = [] /\ event_channel s' = [] /\ events s' = [] /\
  event_durations s' = [] /\ channel_bits s' = [] /\
  forall block, is_Some (ps s' !! block) <-> block ∈ sequencing_order doc.
Proof.
  intros Hrun. apply parse_file_table in Hrun as (Hclean & Hall & Hps).
  destruct Hclean as (? & ? & ? & ? & ?). repeat split; try done.
  - rewrite Hps. case_decide; [done|]. by intros [? ?].
  - intros Hin. rewrite Hps, decide_True by done.
    rewrite Forall_forall in Hall. destruct (Hall block Hin) as (b & Hb & _).
    unfold ps_block in *. rewrite Hb. by eexists.
Qed.

Lemma parse_resets_and_fills_witness :
  exists s',
    parse_pulse_sequence_file
      (__init__ example_mapping (example_doc 10 {| start := 2; duration := 3 |}))
    = Ok s' /\
    is_Some (ps s' !! "A"%string).
Proof.
  eexists. split; [vm_compute; reflexivity|].
  match goal with
  | |- is_Some (ps ?s !! _) =>
      destruct (parse_resets_and_fills example_mapping
                  (example_doc 10 {| start := 2; duration := 3 |}) s)
        as (_ & _ & _ & _ & _ & Hps); [vm_compute; reflexivity|]
  end.
  apply Hps. vm_compute. left.
Defined.





(** X5: the entry that parsing stores for a block is a function of the
    block, the channel mapping and the total duration alone, [compile_block]:
    no state passes from one block of the program to the next, and a block
    that is named twice is compiled twice, to the same entry. *)
Theorem parse_entry_closed_form (mapping : gmap string N)
    (doc : yaml_document Z (pulse Z)) (s' : t Z) (block : string) :
  parse_pulse_sequence_file (__init__ mapping doc) = Ok s' ->
  ps s' !! block
  = if decide (block ∈ sequencing_order doc)
    then compile_block mapping (yaml_total_duration doc) <$> blocks doc !! block
    else None.
Proof. intros Hrun. by apply parse_file_table. Qed.

Lemma parse_entry_closed_form_witness :
  exists s',
    parse_pulse_sequence_file
      (__init__ example_mapping (example_doc 10 {| start := 2; duration := 3 |}))
    = Ok s' /\
    ps s' !! "A"%string
    = Some {| cb_channel_bits := [0; 8; 0]; cb_durations := [2; 3; 5] |}.
Proof.
  eexists. split; [vm_compute; reflexivity|].
  match goal with
  | |- ps ?s !! _ = _ =>
      rewrite (parse_entry_closed_form example_mapping
                 (example_doc 10 {| start := 2; duration := 3 |}) s "A")
  end.
  - vm_compute. reflexivity.
  - vm_compute. reflexivity.
Defined.

(** X6: in a document whose times are ints, under [total_duration: ignore]
    the durations of a compiled block add up to the latest time of the
    block, the end of the pulse that ends last. *)
Theorem ignore_durations_sum_to_last_event (mapping : gmap string N)
    (doc : yaml_document Z (pulse Z)) (s' : t Z) (block : string)
    (cb : compiled_block Z) :
  yaml_total_duration doc = Ignore ->
  parse_pulse_sequence_file (__init__ mapping doc) = Ok s' ->
  ps s' !! block = Some cb ->
  exists b t_last,
    blocks doc !! block = Some b /\
    t_last ∈ pulse_times b /\
    (forall t, t ∈ pulse_times b -> t <= t_last) /\
    sum_Z (cb_durations cb) = t_last.
Proof.
  intros Htotal Hrun Hcb.
  destruct (parse_file_entry _ _ _ _ _ Hrun Hcb) as (b & Hb & ->).
  apply parse_file_table in Hrun as (_ & Hall & Hps).
  assert (block ∈ sequencing_order doc) as Hin.
  { rewrite Hps in Hcb. by case_decide. }
  rewrite Forall_forall in Hall.
  destruct (Hall block Hin) as (b' & Hb' & Hne & _).
  assert (b' = b) as -> by congruence.
  set (times := ((sorted tuple_lt (block_events b)).*1).*1).
  assert (times ≡ₚ pulse_times b) as Hperm by apply sorted_times_Permutation.
  destruct (last times) as [t_last|] eqn:Hlast.
  2:{ apply last_None in Hlast. exfalso. apply Hne.
      apply Permutation_nil_r. unfold pulse_times in Hperm.
      rewrite Hlast in Hperm.
      apply Permutation_nil_l in Hperm. symmetry in Hperm.
      apply fmap_nil_inv in Hperm. by apply fmap_nil_inv in Hperm. }
  exists b, t_last. split; [done|]. split; [|split].
  - rewrite <- Hperm. by apply last_Some_elem_of.
  - intros t Ht. rewrite <- Hperm in Ht.
    apply list_elem_of_lookup in Ht as [i Hi].
    rewrite last_lookup in Hlast.
    pose proof (lookup_lt_Some _ _ _ Hi) as Hlt.
    eapply (sorted_times_increasing b i); [|exact Hi|exact Hlast]. lia.
  - unfold compile_block. cbn [cb_durations]. fold times.
    rewrite keep_self_sum, Htotal.
    by apply (raw_durations_sum_ignore times).
Qed.

Lemma ignore_durations_sum_to_last_event_witness :
  exists s' cb,
    parse_pulse_sequence_file (__init__ two_channel_mapping two_channel_doc)
    = Ok s' /\
    ps s' !! "A"%string = Some cb /\
    exists b t_last,
      blocks two_channel_doc !! "A"%string = Some b /\
      t_last ∈ pulse_times b /\
      (forall t, t ∈ pulse_times b -> t <= t_last) /\
      sum_Z (cb_durations cb) = t_last.
Proof.
  eexists _, _. split; [vm_compute; reflexivity|].
  match goal with |- ps ?s !! _ = _ /\ _ => set (s0 := s) end.
  split; [vm_compute; reflexivity|].
  apply (ignore_durations_sum_to_last_event two_channel_mapping
           two_channel_doc s0 "A");
    vm_compute; reflexivity.
Defined.

(** X7: when the earliest time of a block is not 0, the compiled block
    opens with a segment that lasts up to that time with every channel
    low. *)
Theorem block_starts_low (mapping : gmap string N)
    (doc : yaml_document Z (pulse Z)) (s' : t Z) (block : string)
    (b : ps_block Z) (cb : compiled_block Z) (t0 : Z) :
  parse_pulse_sequence_file (__init__ mapping doc) = Ok s' ->
  blocks doc !! block = Some b ->
  ps s' !! block = Some cb ->
  t0 ∈ pulse_times b ->
  Forall (fun t => t0 <= t) (pulse_times b) ->
  t0 <> 0 ->
  head (cb_channel_bits cb) = Some 0 /\ head (cb_durations cb) = Some t0.
Proof.
  intros Hrun Hb Hcb Hin Hmin Ht0.
  destruct (parse_file_entry _ _ _ _ _ Hrun Hcb) as (b' & Hb' & ->).
  assert (b' = b) as -> by congruence.
  apply compile_block_head; [|done].
  apply sorted_times_head; [done|]. by apply Forall_forall.
Qed.

Lemma block_starts_low_witness :
  exists s' cb,
    parse_pulse_sequence_file
      (__init__ example_mapping (example_doc 10 {| start := 2; duration := 3 |}))
    = Ok s' /\
    ps s' !! "A"%string = Some cb /\
    head (cb_channel_bits cb) = Some 0 /\ head (cb_durations cb) = Some 2.
Proof.
  eexists _, _. split; [vm_compute; reflexivity|].
  match goal with |- ps ?s !! _ = _ /\ _ => set (s0 := s) end.
  split; [vm_compute; reflexivity|].
  apply (block_starts_low example_mapping
           (example_doc 10 {| start := 2; duration := 3 |}) s0 "A"
           [("ch"%string, [("p1"%string, {| start := 2; duration := 3 |})])]).
  - vm_compute. reflexivity.
  - vm_compute. reflexivity.
  - vm_compute. reflexivity.
  - vm_compute. left.
  - vm_compute. repeat constructor; discriminate.
  - lia.
Defined.

(** X8: under a numeric total duration that the latest time of a block does
    not equal, the compiled block closes with the segment from that time to
    the total, and every channel is low in it: each pulse that rose has
    fallen. *)
Theorem block_ends_low (mapping : gmap string N)
    (doc : yaml_document Z (pulse Z)) (s' : t Z) (block : string)
    (b : ps_block Z) (cb : compiled_block Z) (T t_last : Z) :
  yaml_total_duration doc = Duration T ->
  parse_pulse_sequence_file (__init__ mapping doc) = Ok s' ->
  blocks doc !! block = Some b ->
  ps s' !! block = Some cb ->
  t_last ∈ pulse_times b ->
  Forall (fun t => t <= t_last) (pulse_times b) ->
  t_last <> T ->
  last (cb_channel_bits cb) = Some 0 /\
  last (cb_durations cb) = Some (T - t_last).
Proof.
  intros Htotal Hrun Hb Hcb Hin Hmax HT.
  destruct (parse_file_entry _ _ _ _ _ Hrun Hcb) as (b' & Hb' & ->).
  assert (b' = b) as -> by congruence.
  rewrite Htotal. apply compile_block_last; [|done].
  apply sorted_times_last; [done|]. by apply Forall_forall.
Qed.

Lemma block_ends_low_witness :
  exists s' cb,
    parse_pulse_sequence_file
      (__init__ example_mapping (example_doc 10 {| start := 2; duration := 3 |}))
    = Ok s' /\
    ps s' !! "A"%string = Some cb /\
    last (cb_channel_bits cb) = Some 0 /\ last (cb_durations cb) = Some (10 - 5).
Proof.
  eexists _, _. split; [vm_compute; reflexivity|].
  match goal with |- ps ?s !! _ = _ /\ _ => set (s0 := s) end.
  split; [vm_compute; reflexivity|].
  apply (block_ends_low example_mapping
           (example_doc 10 {| start := 2; duration := 3 |}) s0 "A"
           [("ch"%string, [("p1"%string, {| start := 2; duration := 3 |})])]).
  - vm_compute. reflexivity.
  - vm_compute. reflexivity.
  - vm_compute. reflexivity.
  - vm_compute. reflexivity.
  - vm_compute. right. left.
  - vm_compute. repeat constructor; discriminate.
  - lia.
Defined.

(** X9: when no time of a block is negative and none lies beyond a numeric
    total duration, every duration of the compiled block is positive. *)
Theorem block_durations_positive (mapping : gmap string N)
    (doc : yaml_document Z (pulse Z)) (s' : t Z) (block : string)
    (b : ps_block Z) (cb : compiled_block Z) :
  parse_pulse_sequence_file (__init__ mapping doc) = Ok s' ->
  blocks doc !! block = Some b ->
  ps s' !! block = Some cb ->
  Forall (fun t => 0 <= t) (pulse_times b) ->
  (forall T, yaml_total_duration doc = Duration T ->
             Forall (fun t => t <= T) (pulse_times b)) ->
  Forall (fun d => 0 < d) (cb_durations cb).
Proof.
  intros Hrun Hb Hcb Hlo Hhi.
  destruct (parse_file_entry _ _ _ _ _ Hrun Hcb) as (b' & Hb' & ->).
  assert (b' = b) as -> by congruence.
  by apply compile_block_positive.
Qed.

Lemma block_durations_positive_witness :
  exists s' cb,
    parse_pulse_sequence_file
      (__init__ example_mapping (example_doc 10 {| start := 2; duration := 3 |}))
    = Ok s' /\
    ps s' !! "A"%string = Some cb /\
    Forall (fun d => 0 < d) (cb_durations cb).
Proof.
  eexists _, _. split; [vm_compute; reflexivity|].
  match goal with |- ps ?s !! _ = _ /\ _ => set (s0 := s) end.
  split; [vm_compute; reflexivity|].
  apply (block_durations_positive example_mapping
           (example_doc 10 {| start := 2; duration := 3 |}) s0 "A"
           [("ch"%string, [("p1"%string, {| start := 2; duration := 3 |})])]).
  - vm_compute. reflexivity.
  - vm_compute. reflexivity.
  - vm_compute. reflexivity.
  - vm_compute. repeat constructor; discriminate.
  - intros T [= <-]. vm_compute. repeat constructor; discriminate.
Defined.

(** X10: the bit-field of every segment of a compiled block, in terms of the
    pulses, in a document whose times are ints and where no pulse starts
    before 0 or has a negative duration: the segment starts when the
    durations before it have passed, and its bit-field is the sum of
    [2 ** k] over the pulses that are high at that time, [k] being the index
    that the channel of the pulse is mapped to. *)
Theorem segment_bits_are_active_pulses (mapping : gmap string N)
    (doc : yaml_document Z (pulse Z)) (s' : t Z) (block : string)
    (b : ps_block Z) (cb : compiled_block Z) (i : nat) (d : Z) :
  parse_pulse_sequence_file (__init__ mapping doc) = Ok s' ->
  blocks doc !! block = Some b ->
  ps s' !! block = Some cb ->
  (forall channel channel_pulses p,
     (channel, channel_pulses) ∈ b -> p ∈ values channel_pulses ->
     0 <= start p /\ 0 <= duration p) ->
  cb_durations cb !! i = Some d ->
  cb_channel_bits cb !! i
  = Some (active_weight mapping b (sum_Z (take i (cb_durations cb)))).
Proof.
  intros Hrun Hb Hcb Hfw Hd.
  destruct (parse_file_entry _ _ _ _ _ Hrun Hcb) as (b' & Hb' & ->).
  assert (b' = b) as -> by congruence.
  by eapply compile_block_segment.
Qed.

Lemma segment_bits_are_active_pulses_witness :
  exists s' cb,
    parse_pulse_sequence_file
      (__init__ example_mapping (example_doc 10 {| start := 2; duration := 3 |}))
    = Ok s' /\
    ps s' !! "A"%string = Some cb /\
    cb_channel_bits cb !! 1%nat = Some (2 ^ 3).
Proof.
  eexists _, _. split; [vm_compute; reflexivity|].
  match goal with |- ps ?s !! _ = _ /\ _ => set (s0 := s) end.
  split; [vm_compute; reflexivity|].
  match goal with
  | |- cb_channel_bits ?cb !! _ = _ =>
      rewrite (segment_bits_are_active_pulses example_mapping
                 (example_doc 10 {| start := 2; duration := 3 |}) s0 "A"
                 [("ch"%string, [("p1"%string, {| start := 2; duration := 3 |})])]
                 cb 1 3)
  end.
  - vm_compute. reflexivity.
  - vm_compute. reflexivity.
  - vm_compute. reflexivity.
  - vm_compute. reflexivity.
  - intros channel channel_pulses p Hin Hp.
    apply list_elem_of_singleton in Hin. injection Hin as -> ->.
    apply list_elem_of_singleton in Hp as ->. cbn. lia.
  - vm_compute. reflexivity.
Defined.

(** X11: in a document whose times are ints, when no pulse of a block starts
    before 0 or has a negative duration, and the pulses that are high at the
    start of a segment drive bits that differ from one another, bit [k] of
    the bit-field of the segment is set exactly when a pulse of a channel
    mapped to [k] is high at that time. *)
Theorem segment_bit_is_channel_state (mapping : gmap string N)
    (doc : yaml_document Z (pulse Z)) (s' : t Z) (block : string)
    (b : ps_block Z) (cb : compiled_block Z) (i : nat) (d bits : Z) (k : N) :
  parse_pulse_sequence_file (__init__ mapping doc) = Ok s' ->
  blocks doc !! block = Some b ->
  ps s' !! block = Some cb ->
  (forall channel channel_pulses p,
     (channel, channel_pulses) ∈ b -> p ∈ values channel_pulses ->
     0 <= start p /\ 0 <= duration p) ->
  cb_durations cb !! i = Some d ->
  cb_channel_bits cb !! i = Some bits ->
  NoDup (active_indices mapping b (sum_Z (take i (cb_durations cb)))) ->
  Z.testbit bits (Z.of_N k) = true <->
  exists channel channel_pulses p,
    (channel, channel_pulses) ∈ b /\ p ∈ values channel_pulses /\
    mapping !! channel = Some k /\
    start p <= sum_Z (take i (cb_durations cb)) < start p + duration p.
Proof.
  intros Hrun Hb Hcb Hfw Hd Hbits Hnd.
  pose proof (parse_file_table _ _ _ Hrun) as (_ & Hall & Hps).
  destruct (parse_file_entry _ _ _ _ _ Hrun Hcb) as (b' & Hb' & ->).
  assert (b' = b) as -> by congruence.
  rewrite (compile_block_segment _ _ _ _ _ Hfw Hd) in Hbits.
  injection Hbits as <-.
  rewrite active_weight_indices, testbit_sum_pow2, bool_decide_eq_true by done.
  rewrite elem_of_active_indices.
  assert (forall channel channel_pulses p,
            (channel, channel_pulses) ∈ b -> p ∈ values channel_pulses ->
            is_Some (mapping !! channel)) as Hmapped.
  { assert (block ∈ sequencing_order doc) as Hin.
    { specialize (Hps block). rewrite Hcb in Hps. by case_decide. }
    rewrite Forall_forall in Hall.
    destruct (Hall block Hin) as (b' & Hb'' & _ & Hm).
    assert (b' = b) as -> by congruence.
    rewrite block_events_mapped in Hm.
    intros channel channel_pulses p Hentry Hp.
    apply (Hm channel channel_pulses Hentry). intros ->.
    by apply elem_of_nil in Hp. }
  split.
  - intros (channel & channel_pulses & p & Hentry & Hp & Hk & Hact).
    exists channel, channel_pulses, p.
    destruct (Hmapped _ _ _ Hentry Hp) as [k' Hk'].
    rewrite Hk' in Hk |- *. cbn in Hk. by subst.
  - intros (channel & channel_pulses & p & Hentry & Hp & Hk & Hact).
    exists channel, channel_pulses, p. by rewrite Hk.
Qed.

Lemma segment_bit_is_channel_state_witness :
  exists s' cb bits,
    parse_pulse_sequence_file
      (__init__ example_mapping (example_doc 10 {| start := 2; duration := 3 |}))
    = Ok s' /\
    ps s' !! "A"%string = Some cb /\
    cb_channel_bits cb !! 1%nat = Some bits /\
    Z.testbit bits (Z.of_N 3) = true.
Proof.
  eexists _, _, _. split; [vm_compute; reflexivity|].
  match goal with |- ps ?s !! _ = _ /\ _ => set (s0 := s) end.
  split; [vm_compute; reflexivity|].
  split; [vm_compute; reflexivity|].
  match goal with
  | |- Z.testbit ?bits _ = _ =>
      apply (segment_bit_is_channel_state example_mapping
               (example_doc 10 {| start := 2; duration := 3 |}) s0 "A"
               [("ch"%string, [("p1"%string, {| start := 2; duration := 3 |})])]
               {| cb_channel_bits := [0; 8; 0]; cb_durations := [2; 3; 5] |}
               1 3 bits 3)
  end.
  - vm_compute. reflexivity.
  - vm_compute. reflexivity.
  - vm_compute. reflexivity.
  - intros channel channel_pulses p Hin Hp.
    apply list_elem_of_singleton in Hin. injection Hin as -> ->.
    apply list_elem_of_singleton in Hp as ->. cbn. lia.
  - vm_compute. reflexivity.
  - vm_compute. reflexivity.
  - vm_compute. repeat constructor. by intros ?%elem_of_nil.
  - exists "ch"%string, [("p1"%string, {| start := 2; duration := 3 |})],
      {| start := 2; duration := 3 |}.
    split; [by left|]. split; [by left|]. split; [vm_compute; reflexivity|].
    vm_compute. split; [discriminate|reflexivity].
Defined.

(** X12: [compile] raises KeyError exactly when a block of the zipped program
    has no entry in [ps], and otherwise returns; on an object that has not
    parsed anything it returns for the empty program only. *)
Theorem compile_raises_KeyError (s : t Z) :
  let program := zip (sequencing_order (yaml_sequence s))
                     (sequencing_repeats (yaml_sequence s)) in
  (compile s = Raise KeyError <->
   exists block repeats, (block, repeats) ∈ program /\ ps s !! block = None) /\
  ((exists out, compile s = Ok out) <->
   forall block repeats, (block, repeats) ∈ program -> is_Some (ps s !! block)) /\
  (ps s = ∅ -> program <> [] -> compile s = Raise KeyError).
Proof.
  intros program.
  assert ((forall block repeats,
             (block, repeats) ∈ program -> is_Some (ps s !! block)) \/
          (exists block repeats,
             (block, repeats) ∈ program /\ ps s !! block = None)) as Hcases.
  { generalize program as l. clear. intros l.
    induction l as [|[block repeats] l [IH|IH]].
    - left. by intros block repeats ?%elem_of_nil.
    - destruct (ps s !! block) as [cb|] eqn:Hcb.
      + left. intros block' repeats' [[= -> ->]|Hin]%elem_of_cons; [by eexists|].
        by eapply IH.
      + right. exists block, repeats. split; [by left|done].
    - right. destruct IH as (block' & repeats' & Hin & Hnone).
      exists block', repeats'. split; [by right|done]. }
  assert ((exists block repeats,
             (block, repeats) ∈ program /\ ps s !! block = None) ->
          compile s = Raise KeyError) as Hraise.
  { intros Hmiss. unfold compile. by apply compile_loop_raises. }
  assert ((forall block repeats,
             (block, repeats) ∈ program -> is_Some (ps s !! block)) ->
          exists out, compile s = Ok out) as Hok.
  { intros Hall. unfold compile. eexists. by apply compile_loop. }
  split; [|split].
  - split; [|done]. intros Hrun.
    destruct Hcases as [Hall|Hmiss]; [|done].
    destruct (Hok Hall) as [out Hout]. congruence.
  - split; [|done]. intros [out Hout].
    destruct Hcases as [Hall|Hmiss]; [done|].
    rewrite (Hraise Hmiss) in Hout. done.
  - intros Hempty Hne. apply Hraise.
    destruct program as [|[block repeats] l] eqn:E; [done|].
    exists block, repeats. split; [by left|]. by rewrite Hempty.
Qed.

(** X13: [compile] returns after every parse that has returned, and what it
    returns are two lists of one length, with no duration 0 among them. *)
Theorem compile_after_parse (mapping : gmap string N)
    (doc : yaml_document Z (pulse Z)) (s' : t Z) :
  parse_pulse_sequence_file (__init__ mapping doc) = Ok s' ->
  exists channel_bits bits_duration,
    compile s' = Ok (channel_bits, bits_duration) /\
    length channel_bits = length bits_duration /\
    Forall (fun d => d <> 0) bits_duration.
Proof.
  intros Hrun.
  pose proof (parse_pulse_sequence_file_spec _ _ _ Hrun) as (_ & Hdoc & Hps).
  unfold parse_pulse_sequence_file in Hrun.
  apply parse_loop_entries in Hrun as (_ & Hentries & _); [|done].
  cbn [yaml_sequence __init__] in Hentries.
  unfold compile. rewrite Hdoc.
  set (program := zip (sequencing_order doc) (sequencing_repeats doc)).
  assert (forall block repeats,
            (block, repeats) ∈ program -> is_Some (ps s' !! block)) as Hin.
  { intros block repeats Hbr. apply Hentries.
    by apply (elem_of_zip_l _ _ _ _ Hbr). }
  rewrite (compile_loop (ps s') program [] [] Hin). cbn [app].
  eexists _, _. split; [reflexivity|].
  clearbody program. clear Hentries.
  unfold repeat_expansion.
  induction program as [|[block repeats] program IH].
  - split; [done|]. constructor.
  - destruct (Hin block repeats) as [cb Hcb]; [by left|].
    destruct IH as (IHlen & IHnz).
    { intros b r Hbr. apply (Hin b r). by right. }
    destruct (Hps _ _ Hcb) as (times & bits & Hne & Hlen & Hbits & Hdur).
    assert (native (ps s') block = cb) as Hnative
      by (unfold native; by rewrite Hcb).
    cbn [fmap list_fmap concat]. rewrite Hnative.
    split.
    + rewrite !length_app, !length_list_mul, IHlen. f_equal. f_equal.
      rewrite Hbits, Hdur. by apply keep_length.
    + apply Forall_app. split; [|done].
      apply Forall_list_mul. rewrite Hdur. apply keep_self_nonzero.
Qed.

Lemma compile_after_parse_witness :
  exists s' channel_bits bits_duration,
    parse_pulse_sequence_file
      (__init__ example_mapping (example_doc 10 {| start := 2; duration := 3 |}))
    = Ok s' /\
    compile s' = Ok (channel_bits, bits_duration) /\
    length channel_bits = length bits_duration /\
    Forall (fun d => d <> 0) bits_duration.
Proof.
  eexists.
  match goal with |- exists cb bd, ?p = Ok ?s /\ _ =>
    assert (p = Ok s) as Hparse by (vm_compute; reflexivity) end.
  destruct (compile_after_parse example_mapping
              (example_doc 10 {| start := 2; duration := 3 |}) _ Hparse)
    as (channel_bits & bits_duration & Hc & Hlen & Hnz).
  by exists channel_bits, bits_duration.
Defined.

(** * Further properties of the waveform builder *)

(** X14: a pulse, its start and duration converted to an index range, added
    to the array that [__init__] has allocated: inside the array, the
    samples of the addressed variants and row that lie in the range of the
    pulse hold its value, and every other sample is still the 0.0 of
    [np.zeros]. *)
Theorem pulse_on_fresh_array {R : Type} `{Float64 R}
    (numseqs : nat) (total_duration : R) (sources : list Z) (samprate : R)
    (s : PulseSequence.t (R:=R)) (numseq : Z + Z * Z) (channel : Z)
    (v0 n r : nat) (start duration : R) (inputtype : string) (amplitude : R)
    (freq : option (R * R)) (first stop : Z) (s1 : PulseSequence.t (R:=R)) :
  PulseSequence.__init__ numseqs total_duration sources samprate = Ok s ->
  PulseSequenceFacts.variant_range s numseq = Ok (v0, n) ->
  np_index (7 * length sources) channel = Ok r ->
  PulseSequence.index_range s start duration inputtype = Ok (first, stop, s1) ->
  exists s',
    PulseSequence.add_pulse s numseq start duration channel inputtype
      amplitude freq = Ok s' /\
    forall v' r' j,
      (v' < numseqs)%nat -> (r' < 7 * length sources)%nat ->
      (j < PulseSequence.num_points s)%nat ->
      PulseSequenceFacts.sample (PulseSequence.pulses s') v' r' j
      = if decide ((v0 <= v' < v0 + n)%nat /\ r' = r /\
                   ((PulseSequenceFacts.pulse_range s start duration inputtype).1
                    <= j
                    < (PulseSequenceFacts.pulse_range s start duration inputtype).1
                      + (PulseSequenceFacts.pulse_range s start duration inputtype).2)%nat)
        then PulseSequenceFacts.pulse_value s amplitude freq j
        else Some f_zero.
Proof.
  intros Hinit Hvar Hch Hidx.
  apply PulseSequenceFacts.__init___spec in Hinit
    as (Hwf & HN & Hsrc & _ & _ & Hzero).
  rewrite <- Hsrc in Hch.
  destruct (PulseSequenceFacts.add_pulse_spec s numseq start duration channel
              inputtype amplitude freq v0 n r first stop s1 Hwf Hvar Hch Hidx)
    as (s' & Hs' & _ & _ & _ & _ & _ & _ & Hsample).
  exists s'. split; [done|]. intros v' r' j Hv Hr Hj.
  rewrite Hsample. destruct (decide _); [done|].
  rewrite Hzero. by apply sample_replicate.
Qed.

Lemma pulse_on_fresh_array_witness :
  exists s',
    PulseSequence.add_pulse example_sequence (inl 0) 1 2 0 "points" 5 None
    = Ok s' /\
    PulseSequenceFacts.sample (PulseSequence.pulses s') 0 0 0 = Some 0 /\
    PulseSequenceFacts.sample (PulseSequence.pulses s') 0 0 1 = Some 5 /\
    PulseSequenceFacts.sample (PulseSequence.pulses s') 0 1 1 = Some 0.
Proof.
  assert (PulseSequence.index_range example_sequence 1 2 "points"
          = Ok (1, 3, example_sequence)) as Hidx by (vm_compute; reflexivity).
  destruct (pulse_on_fresh_array 1 4 [1] 1 example_sequence (inl 0) 0 0 1 0
              1 2 "points" 5 None 1 3 example_sequence
              example_sequence_built eq_refl eq_refl Hidx)
    as (s' & Hs' & Hsample).
  exists s'. split; [exact Hs'|].
  rewrite !Hsample by (vm_compute; lia). by vm_compute.
Defined.

(** X15: [add_pulse] returns exactly when the start and the duration can be
    converted to indices, the channel index is inside the
    [7 * len(awg_sources)] rows, counted from either end, and an integer
    variant index is inside the [numseqs] variants; a pair of variant bounds
    is clipped and never fails. A start or a duration that cannot be
    converted raises what the conversion raises, before an index is looked
    at; every other exception is an IndexError. *)
Theorem add_pulse_returns_iff {R : Type} `{Float64 R}
    (s : PulseSequence.t (R:=R)) (numseq : Z + Z * Z) (start duration : R)
    (channel : Z) (inputtype : string) (amplitude : R)
    (freq : option (R * R)) :
  (returns (PulseSequence.add_pulse s numseq start duration channel inputtype
              amplitude freq) <->
   returns (PulseSequence.index_range s start duration inputtype) /\
   (- Z.of_nat (7 * length (PulseSequence.awg_sources s)) <= channel
    < Z.of_nat (7 * length (PulseSequence.awg_sources s))) /\
   (forall i, numseq = inl i ->
              - Z.of_nat (PulseSequence.numseqs s) <= i
              < Z.of_nat (PulseSequence.numseqs s))) /\
  (forall e,
     PulseSequence.index_range s start duration inputtype = Raise e ->
     PulseSequence.add_pulse s numseq start duration channel inputtype
       amplitude freq = Raise e) /\
  (forall e,
     returns (PulseSequence.index_range s start duration inputtype) ->
     PulseSequence.add_pulse s numseq start duration channel inputtype
       amplitude freq = Raise e ->
     e = IndexError).
Proof.
  unfold returns.
  destruct (PulseSequence.index_range s start duration inputtype)
    as [[[first stop] s1]|e0] eqn:Hidx.
  2:{ rewrite (add_pulse_not_converted s numseq start duration channel
                 inputtype amplitude freq e0 Hidx).
      split; [|split].
      - split; [by intros [? ?]|]. by intros [[? ?] _].
      - by intros e [= <-].
      - by intros e [? ?]. }
  rewrite (add_pulse_unfold s numseq start duration channel inputtype
             amplitude freq first stop s1 Hidx).
  assert ((exists a : Z * Z * PulseSequence.t (R:=R),
             Ok (first, stop, s1) = Ok a) <-> True) as Hconv by (split; eauto).
  rewrite Hconv. clear Hconv.
  rewrite <- (np_index_Ok (7 * length (PulseSequence.awg_sources s)) channel).
  unfold PulseSequenceFacts.variant_range.
  destruct (np_index (7 * length (PulseSequence.awg_sources s)) channel)
    as [r|e] eqn:Hch.
  - destruct numseq as [i|[first' last']].
    + destruct (np_index (PulseSequence.numseqs s) i) as [v|e] eqn:Hi;
        cbn [mbind result_bind].
      * split; [|split; [done|done]]. split; [|eauto]. intros _.
        split; [done|]. split; [eauto|].
        intros i' [= <-]. apply np_index_Ok. eauto.
      * split; [|split; [done|]].
        -- split; [by intros [? ?]|]. intros (_ & _ & Hv).
           pose proof (Hv i eq_refl) as Hi'.
           apply np_index_Ok in Hi' as [v Hi']. congruence.
        -- intros e' _ [= <-]. by eapply np_index_Raise.
    + cbn [mbind result_bind].
      destruct (slice_range (PulseSequence.numseqs s) first' last') as [v0 n].
      cbn [mbind result_bind]. split; [|split; [done|done]].
      split; [|eauto]. intros _. split; [done|]. split; [eauto|]. done.
  - apply np_index_Raise in Hch as ->. split; [|split; [done|]].
    + split.
      * destruct numseq as [i|[first' last']]; cbn [mbind result_bind].
        -- destruct (np_index (PulseSequence.numseqs s) i);
             cbn [mbind result_bind]; by intros [? ?].
        -- destruct (slice_range (PulseSequence.numseqs s) first' last').
           cbn [mbind result_bind]. by intros [? ?].
      * by intros (_ & [? ?] & _).
    + intros e _. destruct numseq as [i|[first' last']]; cbn [mbind result_bind].
      * destruct (np_index (PulseSequence.numseqs s) i) as [v|e'] eqn:Hi;
          cbn [mbind result_bind]; [congruence|].
        intros [= <-]. by eapply np_index_Raise.
      * destruct (slice_range (PulseSequence.numseqs s) first' last').
        cbn [mbind result_bind]. congruence.
Qed.

(** X16: [add_pulse] touches the warning counter through [time_to_index]
    alone: with input type "time" it grows by one for the start and by one
    for the duration when they are not close to a whole number of samples,
    and with any other input type it stays. *)
Theorem add_pulse_counts_warnings {R : Type} `{Float64 R}
    (s s' : PulseSequence.t (R:=R)) (numseq : Z + Z * Z) (start duration : R)
    (channel : Z) (inputtype : string) (amplitude : R)
    (freq : option (R * R)) :
  PulseSequence.add_pulse s numseq start duration channel inputtype amplitude
    freq = Ok s' ->
  PulseSequence.warning_counter s'
  = (PulseSequence.warning_counter s
     + if (inputtype =? "time")%string
       then off_grid s start + off_grid s duration else 0)%nat.
Proof.
  intros Hadd.
  destruct (PulseSequence.index_range s start duration inputtype)
    as [[[first stop] s1]|e] eqn:Hidx.
  2:{ by rewrite (add_pulse_not_converted _ _ _ _ _ _ _ _ _ Hidx) in Hadd. }
  rewrite <- (index_range_counter s start duration inputtype first stop s1 Hidx).
  rewrite (add_pulse_unfold s numseq start duration channel inputtype
             amplitude freq first stop s1 Hidx) in Hadd.
  inv_bind Hadd. destruct a as [v0 n]. inv_bind Hadd.
  by injection Hadd as <-.
Qed.

Lemma add_pulse_counts_warnings_witness :
  exists s',
    PulseSequence.add_pulse example_sequence (inl 0) 1 2 0 "time" 5 None
    = Ok s' /\
    PulseSequence.warning_counter s' = 0%nat.
Proof.
  eexists. split; [vm_compute; reflexivity|].
  match goal with
  | |- PulseSequence.warning_counter ?x = _ =>
      rewrite (add_pulse_counts_warnings example_sequence x (inl 0) 1 2 0
                 "time" 5 None)
  end.
  - vm_compute. reflexivity.
  - vm_compute. reflexivity.
Defined.

(** X17: a pulse whose end index is not negative and not above its first
    index (a duration of zero samples, or a negative one) changes no
    sample. *)
Theorem empty_pulse_writes_nothing {R : Type} `{Float64 R}
    (s s1 s' : PulseSequence.t (R:=R)) (numseq : Z + Z * Z)
    (start duration : R) (channel : Z) (inputtype : string) (amplitude : R)
    (freq : option (R * R)) (first stop : Z) :
  PulseSequence.index_range s start duration inputtype = Ok (first, stop, s1) ->
  0 <= stop <= first ->
  PulseSequence.add_pulse s numseq start duration channel inputtype amplitude
    freq = Ok s' ->
  PulseSequence.pulses s' = PulseSequence.pulses s.
Proof.
  intros Hidx Hstop Hadd.
  rewrite (add_pulse_unfold s numseq start duration channel inputtype
             amplitude freq first stop s1 Hidx) in Hadd.
  inv_bind Hadd. destruct a as [v0 n]. inv_bind Hadd.
  injection Hadd as <-. cbn [PulseSequence.pulses PulseSequence.set_pulses].
  assert ((slice_bound (PulseSequence.num_points s) stop
           - slice_bound (PulseSequence.num_points s) first)%nat = 0%nat) as ->.
  { unfold slice_bound.
    destruct (Z.ltb_spec first 0), (Z.ltb_spec stop 0); lia. }
  rewrite pulse_values_nil. apply map_range_id. apply write_row_nil.
Qed.

Lemma empty_pulse_writes_nothing_witness :
  exists s',
    PulseSequence.add_pulse example_sequence (inl 0) 3 (-2) 0 "points" 5 None
    = Ok s' /\
    PulseSequence.pulses s' = PulseSequence.pulses example_sequence.
Proof.
  eexists. split; [vm_compute; reflexivity|].
  match goal with
  | |- PulseSequence.pulses ?x = _ =>
      apply (empty_pulse_writes_nothing example_sequence example_sequence x
               (inl 0) 3 (-2) 0 "points" 5 None 3 1)
  end.
  - vm_compute. reflexivity.
  - lia.
  - vm_compute. reflexivity.
Defined.

(** X18: a first index below zero is no error and is not clipped to the
    start of the row: it counts from the end of the row. With an end index
    that is not negative the pulse covers the samples from
    [num_points + first] up to the end index, none when that is not
    larger. *)
Theorem negative_start_wraps {R : Type} `{Float64 R}
    (s : PulseSequence.t (R:=R)) (numseq : Z + Z * Z) (channel : Z)
    (v0 n r : nat) (start duration : R) (inputtype : string) (amplitude : R)
    (freq : option (R * R)) (first stop : Z) (s1 : PulseSequence.t (R:=R)) :
  PulseSequenceFacts.wf s ->
  PulseSequenceFacts.variant_range s numseq = Ok (v0, n) ->
  np_index (7 * length (PulseSequence.awg_sources s)) channel = Ok r ->
  PulseSequence.index_range s start duration inputtype = Ok (first, stop, s1) ->
  - Z.of_nat (PulseSequence.num_points s) <= first < 0 ->
  0 <= stop ->
  exists s',
    PulseSequence.add_pulse s numseq start duration channel inputtype
      amplitude freq = Ok s' /\
    forall v' r' j,
      PulseSequenceFacts.sample (PulseSequence.pulses s') v' r' j
      = if decide ((v0 <= v' < v0 + n)%nat /\ r' = r /\
                   Z.of_nat (PulseSequence.num_points s) + first <= Z.of_nat j
                   < Z.min stop (Z.of_nat (PulseSequence.num_points s)))
        then PulseSequenceFacts.pulse_value s amplitude freq j
        else PulseSequenceFacts.sample (PulseSequence.pulses s) v' r' j.
Proof.
  intros Hwf Hvar Hch Hidx Hfirst Hstop.
  destruct (PulseSequenceFacts.add_pulse_spec s numseq start duration channel
              inputtype amplitude freq v0 n r first stop s1 Hwf Hvar Hch Hidx)
    as (s' & Hs' & _ & _ & _ & _ & _ & _ & Hsample).
  exists s'. split; [done|].
  intros v' r' j. rewrite Hsample.
  unfold PulseSequenceFacts.pulse_range. rewrite Hidx.
  unfold slice_range, slice_bound. cbn [fst snd].
  destruct (Z.ltb_spec first 0) as [_|?]; [|lia].
  destruct (Z.ltb_spec stop 0) as [?|_]; [lia|].
  destruct (decide ((v0 <= v' < v0 + n)%nat /\ r' = r /\
                    Z.of_nat (PulseSequence.num_points s) + first <= Z.of_nat j
                    < Z.min stop (Z.of_nat (PulseSequence.num_points s))))
    as [(Hv & Hr & Hj)|Hout].
  - rewrite decide_True; [done|]. split; [done|]. split; [done|]. lia.
  - rewrite decide_False; [done|]. intros (Hv & Hr & Hj). apply Hout.
    split; [done|]. split; [done|]. lia.
Qed.

Lemma negative_start_wraps_witness :
  exists s',
    PulseSequence.add_pulse example_sequence (inl 0) (-1) 3 0 "points" 5 None
    = Ok s' /\
    PulseSequenceFacts.sample (PulseSequence.pulses s') 0 0 0 = Some 0 /\
    PulseSequenceFacts.sample (PulseSequence.pulses s') 0 0 3 = Some 0.
Proof.
  assert (PulseSequence.index_range example_sequence (-1) 3 "points"
          = Ok (-1, 2, example_sequence)) as Hidx by (vm_compute; reflexivity).
  destruct (negative_start_wraps example_sequence (inl 0) 0 0 1 0
              (-1) 3 "points" 5 None (-1) 2 example_sequence
              example_sequence_wf eq_refl eq_refl Hidx)
    as (s' & Hs' & Hsample).
  - cbn. lia.
  - lia.
  - exists s'. split; [exact Hs'|]. rewrite !Hsample. by vm_compute.
Defined.

(** X19: [__init__] only annotates [flag_channels], and [add_pulse] never
    assigns it: on an object that nothing else has touched, [make] computes
    the array and then raises AttributeError. *)
Theorem make_needs_flag_channels {R : Type} `{Float64 R}
    (s : PulseSequence.t (R:=R)) :
  PulseSequenceFacts.wf s ->
  PulseSequence.flag_channels s = None ->
  PulseSequence.make s = Raise AttributeError /\
  forall numseq start duration channel inputtype amplitude freq s',
    PulseSequence.add_pulse s numseq start duration channel inputtype
      amplitude freq = Ok s' ->
    PulseSequenceFacts.wf s' /\
    PulseSequence.flag_channels s' = None /\
    PulseSequence.make s' = Raise AttributeError.
Proof.
  intros Hwf Hflags. split; [by apply make_without_flags|].
  intros numseq start duration channel inputtype amplitude freq s' Hadd.
  assert (PulseSequence.flag_channels s' = None) as Hflags'.
  { by rewrite (add_pulse_flag_channels _ _ _ _ _ _ _ _ _ Hadd). }
  assert (PulseSequenceFacts.wf s') as Hwf'.
  { destruct (add_pulse_Ok_inv _ _ _ _ _ _ _ _ _ Hadd)
      as (v0 & n & r & a & b & s1 & Hvar & Hch & Hidx).
    destruct (PulseSequenceFacts.add_pulse_spec s numseq start duration channel
                inputtype amplitude freq v0 n r a b s1 Hwf Hvar Hch Hidx)
      as (s'' & Hs'' & Hwf'' & _).
    congruence. }
  split; [done|]. split; [done|]. by apply make_without_flags.
Qed.

Lemma make_needs_flag_channels_witness :
  PulseSequence.make example_sequence = Raise AttributeError.
Proof.
  exact (proj1 (make_needs_flag_channels example_sequence
                  example_sequence_wf eq_refl)).
Defined.

(** X20: the array that [make] stores has the shape
    [(numseqs, 2 * len(awg_sources), num_points)]. *)
Theorem make_shape {R : Type} `{Float64 R}
    (s : PulseSequence.t (R:=R)) (flags : list (string * list string))
    (archive : PulseSequence.artifact (R:=R)) :
  PulseSequenceFacts.wf s ->
  PulseSequence.flag_channels s = Some flags ->
  PulseSequence.make s = Ok archive ->
  PulseSequenceFacts.shaped (PulseSequence.numseqs s)
    (2 * length (PulseSequence.awg_sources s)) (PulseSequence.num_points s)
    (PulseSequence.final archive).
Proof.
  intros Hwf Hflags Hmake.
  rewrite (PulseSequenceFacts.make_spec s flags Hwf Hflags) in Hmake.
  injection Hmake as <-. cbn [PulseSequence.final].
  destruct Hwf as (_ & Hlen & Hshape).
  split; [by rewrite length_fmap|].
  apply Forall_fmap. eapply Forall_impl; [exact Hshape|].
  intros variant [Hrows Hrow]. cbn [compose].
  split; [apply PulseSequenceFacts.length_concat_pairs|].
  apply Forall_concat, Forall_fmap, Forall_forall.
  intros si Hsi%elem_of_seq. cbn [compose].
  unfold PulseSequenceFacts.collapsed.
  rewrite Forall_lookup in Hrow.
  assert (forall i, (i < 7 * length (PulseSequence.awg_sources s))%nat ->
            length (default [] (variant !! i)) = PulseSequence.num_points s)
    as Hdef.
  { intros i Hi. destruct (lookup_lt_is_Some_2 variant i) as [row Hi']; [lia|].
    rewrite Hi'. by eapply Hrow. }
  repeat constructor.
  - apply Hdef. lia.
  - rewrite length_fmap. apply length_pack_markers.
    apply Forall_fmap, Forall_forall. intros k Hk%elem_of_seq. cbn [compose].
    apply Hdef. lia.
Qed.

Lemma make_shape_witness :
  exists archive,
    PulseSequence.make alternating_sequence = Ok archive /\
    PulseSequenceFacts.shaped 1 2 4 (PulseSequence.final archive).
Proof.
  eexists. split; [vm_compute; reflexivity|].
  match goal with
  | |- PulseSequenceFacts.shaped _ _ _ (PulseSequence.final ?a) =>
      apply (make_shape alternating_sequence [] a alternating_sequence_wf eq_refl)
  end.
  vm_compute. reflexivity.
Defined.

(** X21: bits 1 and 0 of a packed marker byte are never set, and the byte is
    0 exactly when none of the six marker samples is positive. *)
Theorem packed_byte_low_bits {R : Type} `{Float64 R}
    (s : PulseSequence.t (R:=R)) (flags : list (string * list string))
    (archive : PulseSequence.artifact (R:=R)) (v si j : nat) :
  PulseSequenceFacts.wf s ->
  PulseSequence.flag_channels s = Some flags ->
  PulseSequence.make s = Ok archive ->
  (v < PulseSequence.numseqs s)%nat ->
  (si < length (PulseSequence.awg_sources s))%nat ->
  (j < PulseSequence.num_points s)%nat ->
  exists byte,
    PulseSequenceFacts.sample (PulseSequence.final archive) v (2 * si + 1) j
    = Some (f_of_uint8 byte) /\
    byte mod 4 = 0 /\
    (byte = 0 <->
     forall k m,
       (k < 6)%nat ->
       PulseSequenceFacts.sample (PulseSequence.pulses s) v (7 * si + 1 + k) j
       = Some m ->
       f_pos m = false).
Proof.
  intros Hwf Hflags Hmake Hv Hsi Hj.
  rewrite (PulseSequenceFacts.make_spec s flags Hwf Hflags) in Hmake.
  injection Hmake as <-. cbn [PulseSequence.final].
  destruct (PulseSequenceFacts.sample_final s v si j Hwf Hv Hsi Hj)
    as (_ & markers & Hlen & Hmarkers & Hpacked).
  exists (PulseSequenceFacts.marker_byte markers).
  split; [done|]. split; [by apply marker_byte_mod4|].
  rewrite (marker_byte_zero markers Hlen), Forall_lookup. split.
  - intros Hall k m Hk Hm. rewrite (Hmarkers k Hk) in Hm. by eapply Hall.
  - intros Hall k m Hm. apply (Hall k m); [|by rewrite Hmarkers
      by (apply lookup_lt_Some in Hm; lia)].
    apply lookup_lt_Some in Hm. lia.
Qed.

Lemma packed_byte_low_bits_witness :
  exists archive byte,
    PulseSequence.make alternating_sequence = Ok archive /\
    PulseSequenceFacts.sample (PulseSequence.final archive) 0 (2 * 0 + 1) 0
    = Some byte /\
    byte mod 4 = 0.
Proof.
  eexists.
  match goal with
  | |- exists byte, ?m = Ok ?a /\ _ =>
      assert (m = Ok a) as Hmake by (vm_compute; reflexivity)
  end.
  match type of Hmake with
  | _ = Ok ?a =>
      destruct (packed_byte_low_bits alternating_sequence [] a 0 0 0
                  alternating_sequence_wf eq_refl Hmake)
        as (byte & Hbyte & Hmod & _)
  end.
  - cbn. lia.
  - cbn. lia.
  - cbn. lia.
  - exists byte. split; [exact Hmake|]. split; [exact Hbyte|exact Hmod].
Defined.

(** * Further properties of the translation to an archive *)

(** X22: when the sidecar holds the document, the translation returns and
    leaves the three files as they are: the document is not checked, and an
    archive that is missing is not built. *)
Theorem translate_unchanged_skips {R : Type} `{Float64 R} `{EqDecision R}
    (self : PulseSequenceYaml.t (R:=R))
    (fs : PulseSequenceYaml.files PulseSequenceYaml.document
            PulseSequence.artifact)
    (doc : PulseSequenceYaml.document) :
  PulseSequenceYaml.yaml_file fs = Some doc ->
  PulseSequenceYaml.aux_file fs = Some doc ->
  PulseSequenceYaml._sequence_didnt_change fs = Ok (true, fs) /\
  PulseSequenceYaml.translate_yaml_to_numeric_instructions self fs = Ok fs.
Proof.
  intros Hyaml Haux. split; [|by eapply translate_cache_hit].
  by apply (sequence_unchanged fs doc).
Qed.

Lemma translate_unchanged_skips_witness :
  PulseSequenceYaml.translate_yaml_to_numeric_instructions example_translator
    stale_files
  = Ok stale_files /\
  PulseSequenceYaml.npz_file stale_files = None.
Proof.
  split; [|reflexivity].
  exact (proj2 (translate_unchanged_skips example_translator stale_files _
                  eq_refl eq_refl)).
Defined.

(** X23: a translation that returns leaves the document as it was and the
    sidecar equal to it, so that running it again returns at once and
    changes nothing. *)
Theorem translate_twice {R : Type} `{Float64 R} `{EqDecision R}
    (self : PulseSequenceYaml.t (R:=R))
    (fs fs' : PulseSequenceYaml.files PulseSequenceYaml.document
                PulseSequence.artifact) :
  PulseSequenceYaml.translate_yaml_to_numeric_instructions self fs = Ok fs' ->
  PulseSequenceYaml.yaml_file fs' = PulseSequenceYaml.yaml_file fs /\
  PulseSequenceYaml.aux_file fs' = PulseSequenceYaml.yaml_file fs /\
  PulseSequenceYaml.translate_yaml_to_numeric_instructions self fs' = Ok fs'.
Proof.
  intros Hrun.
  destruct (PulseSequenceYaml.yaml_file fs) as [doc|] eqn:Hyaml.
  2:{ unfold PulseSequenceYaml.translate_yaml_to_numeric_instructions,
        PulseSequenceYaml._sequence_didnt_change in Hrun.
      by rewrite Hyaml in Hrun. }
  assert (PulseSequenceYaml.yaml_file fs' = Some doc /\
          PulseSequenceYaml.aux_file fs' = Some doc) as [Hyaml' Haux'].
  { destruct (PulseSequenceYaml._sequence_didnt_change fs)
      as [[[|] fs1]|e] eqn:Hcheck.
    - rewrite (translate_unchanged self fs fs1 Hcheck) in Hrun.
      injection Hrun as <-.
      by rewrite (sequence_checked fs fs1 doc true Hyaml Hcheck).
    - rewrite (translate_changed self fs fs1 doc Hyaml Hcheck) in Hrun.
      inv_bind Hrun. inv_bind Hrun. inv_bind Hrun. destruct a1 as [seq flags].
      inv_bind Hrun. injection Hrun as <-. done.
    - unfold PulseSequenceYaml.translate_yaml_to_numeric_instructions in Hrun.
      by rewrite Hcheck in Hrun. }
  split; [done|]. split; [done|]. by eapply translate_cache_hit.
Qed.

Lemma translate_twice_witness :
  exists fs',
    PulseSequenceYaml.translate_yaml_to_numeric_instructions example_translator
      first_compile = Ok fs' /\
    PulseSequenceYaml.translate_yaml_to_numeric_instructions example_translator
      fs' = Ok fs'.
Proof.
  eexists. split; [vm_compute; reflexivity|].
  match goal with
  | |- PulseSequenceYaml.translate_yaml_to_numeric_instructions _ ?x = _ =>
      refine (proj2 (proj2 (translate_twice example_translator first_compile x _)))
  end.
  vm_compute. reflexivity.
Defined.



(** X25: the sidecar is overwritten before the document is looked at: when the
    translation raises, the files are those that [_sequence_didnt_change]
    has left, and the next translation finds the document unchanged and
    returns without an archive having been built. *)
Theorem translate_failure_is_cached {R : Type} `{Float64 R} `{EqDecision R}
    (self : PulseSequenceYaml.t (R:=R))
    (fs fs1 : PulseSequenceYaml.files PulseSequenceYaml.document
                PulseSequence.artifact)
    (unchanged : bool) (e : exn) :
  PulseSequenceYaml._sequence_didnt_change fs = Ok (unchanged, fs1) ->
  PulseSequenceYaml.translate_yaml_to_numeric_instructions self fs = Raise e ->
  unchanged = false /\
  PulseSequenceYaml.aux_file fs1 = PulseSequenceYaml.yaml_file fs /\
  PulseSequenceYaml.npz_file fs1 = PulseSequenceYaml.npz_file fs /\
  PulseSequenceYaml.translate_yaml_to_numeric_instructions self fs1 = Ok fs1.
Proof.
  intros Hcheck Hrun.
  assert (unchanged = false) as ->.
  { destruct unchanged; [|done].
    unfold PulseSequenceYaml.translate_yaml_to_numeric_instructions in Hrun.
    by rewrite Hcheck in Hrun. }
  split; [done|].
  destruct (PulseSequenceYaml.yaml_file fs) as [doc|] eqn:Hyaml.
  2:{ unfold PulseSequenceYaml._sequence_didnt_change in Hcheck.
      by rewrite Hyaml in Hcheck. }
  rewrite (sequence_checked fs fs1 doc false Hyaml Hcheck).
  split; [done|]. split; [done|].
  by apply (translate_cache_hit self _ doc).
Qed.

Lemma translate_failure_is_cached_witness :
  exists fs1,
    PulseSequenceYaml.translate_yaml_to_numeric_instructions example_translator
      {| PulseSequenceYaml.yaml_file := PulseSequenceYaml.yaml_file stale_files;
         PulseSequenceYaml.aux_file := None;
         PulseSequenceYaml.npz_file := None |}
    = Raise ValueError /\
    PulseSequenceYaml.translate_yaml_to_numeric_instructions example_translator
      fs1 = Ok fs1 /\
    PulseSequenceYaml.npz_file fs1 = None.
Proof.
  exists stale_files. split; [vm_compute; reflexivity|].
  destruct (translate_failure_is_cached example_translator
              {| PulseSequenceYaml.yaml_file := PulseSequenceYaml.yaml_file stale_files;
                 PulseSequenceYaml.aux_file := None;
                 PulseSequenceYaml.npz_file := None |}
              stale_files false ValueError)
    as (_ & _ & Hnpz & Hagain).
  - vm_compute. reflexivity.
  - vm_compute. reflexivity.
  - split; [exact Hagain|exact Hnpz].
Defined.



(** X27: the archive of a translation lists the flags block by block, the
    blocks being the distinct names of [sequencing_order] in sorted order,
    not in the order of the program, and the flags of a block those that its
    channels are mapped to, in the order of the channels. *)
Theorem translate_flag_channels {R : Type} `{Float64 R} `{EqDecision R}
    (self : PulseSequenceYaml.t (R:=R))
    (fs fs1 fs' : PulseSequenceYaml.files PulseSequenceYaml.document
                    PulseSequence.artifact)
    (doc : PulseSequenceYaml.document) :
  PulseSequenceYaml.yaml_file fs = Some doc ->
  PulseSequenceYaml._sequence_didnt_change fs = Ok (false, fs1) ->
  PulseSequenceYaml.translate_yaml_to_numeric_instructions self fs = Ok fs' ->
  exists archive,
    PulseSequenceYaml.npz_file fs' = Some archive /\
    PulseSequence.saved_flag_channels archive
    = (fun block =>
         (block, block_flags self (default [] (blocks doc !! block))))
      <$> sorted String.ltb (remove_dups (sequencing_order doc)).
Proof.
  intros Hyaml Haux Hrun.
  rewrite (translate_changed self fs fs1 doc Hyaml Haux) in Hrun.
  inv_bind Hrun. rename a into d. inv_bind Hrun. rename a into seq0.
  inv_bind Hrun. destruct a as [seq flag_channels].
  inv_bind Hrun. rename a into archive. injection Hrun as <-.
  exists archive. split; [done|].
  apply __init___ready in Ha0.
  destruct (add_blocks_ready self doc _ seq0 Ha0) as [_ Hno].
  destruct (Hno _ Ha1) as (_ & Hready & Hflags). cbn [fst snd] in *.
  destruct (make_ready _ _ _ seq flag_channels
              (Some (sequencing_repeats doc)) (Some (sequencing_order doc))
              Hready) as (archive' & Hmake & Hsaved & _).
  assert (archive' = archive) as -> by congruence.
  by rewrite Hsaved, Hflags.
Qed.

Lemma translate_flag_channels_witness :
  exists fs' archive,
    PulseSequenceYaml.translate_yaml_to_numeric_instructions example_translator
      first_compile = Ok fs' /\
    PulseSequenceYaml.npz_file fs' = Some archive /\
    PulseSequence.saved_flag_channels archive = [("A"%string, ["READ"%string])].
Proof.
  eexists.
  match goal with
  | |- exists archive, ?run = Ok ?x /\ _ =>
      assert (run = Ok x) as Hrun by (vm_compute; reflexivity)
  end.
  destruct (translate_flag_channels example_translator first_compile
              (PulseSequenceYaml.write_aux cache_doc first_compile) _
              cache_doc eq_refl eq_refl Hrun)
    as (archive & Hnpz & Hflags).
  exists archive. split; [exact Hrun|]. split; [exact Hnpz|].
  rewrite Hflags. vm_compute. reflexivity.
Defined.

(** X28: the array that a translation stores, sample by sample. Variant [v]
    belongs to the block at position [v] of the sorted distinct block names.
    The analog row of a source holds at every sample the value of the last
    pulse of that block, in the order of its channels and of their pulses,
    that is mapped to that row and reaches the sample, and 0.0 where there
    is none; the marker row holds the byte of the six marker rows, which are
    filled in the same way. *)
Theorem translate_array {R : Type} `{Float64 R} `{EqDecision R}
    (self : PulseSequenceYaml.t (R:=R))
    (fs fs1 fs' : PulseSequenceYaml.files PulseSequenceYaml.document
                    PulseSequence.artifact)
    (doc : PulseSequenceYaml.document) :
  PulseSequenceYaml.yaml_file fs = Some doc ->
  PulseSequenceYaml._sequence_didnt_change fs = Ok (false, fs1) ->
  PulseSequenceYaml.translate_yaml_to_numeric_instructions self fs = Ok fs' ->
  exists archive s0 d,
    PulseSequenceYaml.npz_file fs' = Some archive /\
    yaml_total_duration doc = Duration d /\
    PulseSequence.__init__
      (length (sorted String.ltb (remove_dups (sequencing_order doc)))) d
      (PulseSequenceYaml.awg_sources self) (PulseSequenceYaml.samp_rate self)
    = Ok s0 /\
    forall v block si j,
      sorted String.ltb (remove_dups (sequencing_order doc)) !! v = Some block ->
      (si < length (PulseSequenceYaml.awg_sources self))%nat ->
      (j < PulseSequence.num_points s0)%nat ->
      PulseSequenceFacts.sample (PulseSequence.final archive) v (2 * si) j
      = written s0 (block_writes self (default [] (blocks doc !! block)))
          (7 * si) j /\
      exists markers : list R,
        length markers = 6%nat /\
        (forall k, (k < 6)%nat ->
           markers !! k
           = written s0 (block_writes self (default [] (blocks doc !! block)))
               (7 * si + 1 + k) j) /\
        PulseSequenceFacts.sample (PulseSequence.final archive) v (2 * si + 1) j
        = Some (f_of_uint8 (PulseSequenceFacts.marker_byte markers)).
Proof.
  intros Hyaml Haux Hrun.
  rewrite (translate_changed self fs fs1 doc Hyaml Haux) in Hrun.
  inv_bind Hrun. rename a into d. inv_bind Hrun. rename a into s0.
  inv_bind Hrun. destruct a as [seq flag_channels].
  inv_bind Hrun. rename a into archive. injection Hrun as <-.
  destruct (yaml_total_duration doc) as [|d'] eqn:Htotal; [done|].
  injection Ha as ->.
  exists archive, s0, d. split; [done|]. split; [done|]. split; [done|].
  pose proof (PulseSequenceFacts.__init___spec _ _ _ _ _ Ha0)
    as (Hwf0 & HN0 & Hsrc0 & _ & _ & Hzero).
  set (names := sorted String.ltb (remove_dups (sequencing_order doc))) in *.
  assert (like s0 s0) as Hlike0 by (split; [exact Hwf0|by repeat split]).
  destruct (add_blocks_like self doc s0 (enumerate names) (s0, [])
              (seq, flag_channels)) as (Hlike & Hin & _); [done| | |done|].
  { rewrite enumerate_fst. apply NoDup_seq. }
  { apply Forall_forall. intros [i block] Hi%enumerate_lookup%lookup_lt_Some.
    cbn [fst]. by rewrite HN0. }
  cbn [fst] in *.
  destruct Hlike as (Hwf & HN & Hsrc & _ & Hn & _).
  rewrite (PulseSequenceFacts.make_spec _ flag_channels) in Ha2; [|done|done].
  injection Ha2 as <-. cbn [PulseSequence.final].
  intros v block si j Hv Hsi Hj.
  assert (forall r, (r < 7 * length (PulseSequenceYaml.awg_sources self))%nat ->
            PulseSequenceFacts.sample (PulseSequence.pulses seq) v r j
            = written s0 (block_writes self (default [] (blocks doc !! block)))
                r j) as Hrow.
  { intros r Hr. rewrite (Hin v block r j) by (by apply enumerate_lookup).
    unfold written. f_equal. rewrite Hzero. apply sample_replicate.
    - by apply lookup_lt_Some in Hv.
    - done.
    - done. }
  destruct (PulseSequenceFacts.sample_final
              (PulseSequence.set_sequencernames (Some (sequencing_order doc))
                 (PulseSequence.set_sequencer (Some (sequencing_repeats doc))
                    (PulseSequence.set_flag_channels (Some flag_channels) seq)))
              v si j) as (Hanalog & markers & Hlen & Hmarkers & Hpacked).
  - done.
  - cbn. rewrite HN, HN0. by apply lookup_lt_Some in Hv.
  - cbn. by rewrite Hsrc, Hsrc0.
  - cbn. by rewrite Hn.
  - cbn [PulseSequence.pulses PulseSequence.num_points
         PulseSequence.awg_sources PulseSequence.set_sequencernames
         PulseSequence.set_sequencer PulseSequence.set_flag_channels] in *.
    split.
    + rewrite Hanalog. apply Hrow. lia.
    + exists markers. split; [done|]. split; [|done].
      intros k Hk. rewrite <- (Hmarkers k Hk). apply Hrow. lia.
Qed.

Lemma translate_array_witness :
  exists fs' archive,
    PulseSequenceYaml.translate_yaml_to_numeric_instructions example_translator
      first_compile = Ok fs' /\
    PulseSequenceYaml.npz_file fs' = Some archive /\
    PulseSequenceFacts.sample (PulseSequence.final archive) 0 (2 * 0) 1 = Some 5 /\
    PulseSequenceFacts.sample (PulseSequence.final archive) 0 (2 * 0) 3 = Some 0.
Proof.
  eexists.
  match goal with
  | |- exists archive, ?run = Ok ?x /\ _ =>
      assert (run = Ok x) as Hrun by (vm_compute; reflexivity)
  end.
  destruct (translate_array example_translator first_compile
              (PulseSequenceYaml.write_aux cache_doc first_compile) _ cache_doc
              eq_refl eq_refl Hrun)
    as (archive & s0 & d & Hnpz & Hd & Hinit & Hsample).
  exists archive. split; [exact Hrun|]. split; [exact Hnpz|].
  injection Hd as <-. vm_compute in Hinit. injection Hinit as <-.
  split.
  - refine (eq_trans (proj1 (Hsample 0%nat "A"%string 0%nat 1%nat _ _ _)) _).
    + vm_compute. reflexivity.
    + vm_compute. lia.
    + vm_compute. lia.
    + vm_compute. reflexivity.
  - refine (eq_trans (proj1 (Hsample 0%nat "A"%string 0%nat 3%nat _ _ _)) _).
    + vm_compute. reflexivity.
    + vm_compute. lia.
    + vm_compute. lia.
    + vm_compute. reflexivity.
Defined.
